(** * AISP provenance graph: State, Op, OpFunction, Logbook

    A shallow embedding of [src/core/state.py], [src/core/op.py] and the
    [Logbook] class of [src/core/agent.py].

    Python objects live in a store; a [State] object is identified by its
    address (Python's [id(self)]), and every field that holds a reference to
    a [State] holds its address.  Functions that mutate objects take the
    store and return the new store, also when they raise.  Wall-clock fields
    ([timestamp], [execution_time], [start_time]) and the [uuid] of a record
    are not modelled, nor is the console output of a verbose [Logbook]. *)

From stdpp Require Import gmap strings list pretty.
From Stdlib Require Import ZArith Lia.

Open Scope string_scope.
Open Scope list_scope.

(** ** Python values, exceptions and results *)

Abbreviation addr := nat.

(** A Python value as [isinstance(_, State)] sees it: a reference to a
    [State], or anything else, of which only [type(x)] as printed is kept. *)
Inductive value :=
  | VState (a : addr)
  | VOther (ty : string).

(** The class of an exception.  [TypeError], [RuntimeError] and
    [ValueError] are the classes that the code raises itself; [UserError]
    is any other class derived from [Exception]; [BaseOnly] is a class
    derived from [BaseException] and not from [Exception]:
    [KeyboardInterrupt], [SystemExit], [GeneratorExit], or a class of the
    program. *)
Inductive exn_class :=
  | TypeError
  | RuntimeError
  | ValueError
  | UserError (cls : string)
  | BaseOnly (cls : string).

Definition KeyboardInterrupt : exn_class := BaseOnly "KeyboardInterrupt".
Definition SystemExit : exn_class := BaseOnly "SystemExit".

(** An exception: class and [str(e)]; [ExnFrom] is [raise ... from cause],
    which sets [__cause__]. *)
Inductive exn :=
  | Exn (cls : exn_class) (msg : string)
  | ExnFrom (cls : exn_class) (msg : string) (cause : exn).

Definition str (e : exn) : string :=
  match e with Exn _ msg | ExnFrom _ msg _ => msg end.
Definition exn_cls (e : exn) : exn_class :=
  match e with Exn c _ | ExnFrom c _ _ => c end.
Definition exn_cause (e : exn) : option exn :=
  match e with Exn _ _ => None | ExnFrom _ _ c => Some c end.

(** [isinstance(e, Exception)]: what [except Exception as e] catches. *)
Definition is_exception (e : exn) : bool :=
  match exn_cls e with
  | BaseOnly _ => false
  | TypeError | RuntimeError | ValueError | UserError _ => true
  end.

Inductive result (A : Type) :=
  | Ok (x : A)
  | Raise (e : exn).
Arguments Ok {A} x.
Arguments Raise {A} e.

Definition is_raise {A} (r : result A) : bool :=
  match r with Raise _ => true | Ok _ => false end.

(** [needle in hay] on Python strings. *)
Definition contains (hay needle : string) : Prop :=
  ∃ pre post, hay = pre +:+ needle +:+ post.

(** ** Op: the data of an operation object *)

Module Op.
(** [op_id] is the identity of the object, [cls] is
    [self.__class__.__name__], [name] is [self.name]. *)
Record t := mk { op_id : nat; cls : string; name : string }.

(** [Op.__init__]: [self.name = name or self.__class__.__name__]. *)
Definition init (op_id : nat) (cls : string) (name : option string) : t :=
  mk op_id cls
     (match name with
      | Some n => if bool_decide (n = "") then cls else n
      | None => cls
      end).
End Op.

#[global] Instance Op_eq_dec : EqDecision Op.t.
Proof. solve_decision. Defined.

(** ** State *)

Record Payload := mk_payload { payload_class : string; payload_body : string }.

Module State.
(** [is_origin_attr] is the entry ["is_origin"] of the instance
    [__dict__]: absent on a fresh object, where [state.is_origin] finds
    the method of the class; once set it shadows the method. *)
Record t := mk {
  payload : Payload;
  creator_op : option Op.t;
  inputs : list addr;
  can_trace : bool;
  note : string;
  is_origin_attr : option bool
}.

Definition bubble_id (a : addr) : string := "bubble_" +:+ pretty a.
End State.

Abbreviation heap := (list State.t).

Module StateOps.
Import State.

(** [State.__init__]: the new object is allocated at the end of the
    store; [self.inputs = inputs or []]. *)
Definition init (h : heap) (payload : Payload) (creator_op : option Op.t)
    (inputs : option (list addr)) (can_trace : bool) (note : string)
  : heap * addr :=
  (h ++ [mk payload creator_op (default [] inputs) can_trace note None],
   length h).

Definition detach (h : heap) (self : addr) : option (heap * addr) :=
  st ← h !! self;
  Some (init h (payload st) None (Some []) false
             ("Detached from " +:+ note st)).

Definition clone (h : heap) (self : addr) : option (heap * addr) :=
  st ← h !! self;
  Some (init h (payload st) (creator_op st) (Some (inputs st))
             (can_trace st) ("Cloned from " +:+ note st)).

(** [self.is_origin()]: attribute lookup finds the instance attribute
    first; a [bool] is not callable. *)
Definition is_origin (st : t) : result bool :=
  match is_origin_attr st with
  | Some _ => Raise (Exn TypeError "'bool' object is not callable")
  | None => Ok (bool_decide (creator_op st = None))
  end.

Definition get_source (st : t) : result string :=
  match is_origin st with
  | Raise e => Raise e
  | Ok true => Ok "原始输入"
  | Ok false =>
      match creator_op st with
      | Some op => Ok (Op.cls op +:+ "操作")
      | None => Ok "未知来源"
      end
  end.

(** One line of the text that [backward] returns. *)
Inductive line :=
  | Bubble (depth : nat) (a : addr) (st : t)
  | Marker (depth : nat) (a : addr).

Fixpoint indent (depth : nat) : string :=
  match depth with
  | O => ""
  | S d => "  " +:+ indent d
  end.

Definition show (l : line) : string :=
  match l with
  | Marker depth a =>
      indent depth +:+ "🔄 " +:+ bubble_id a +:+ " (循环引用或深度限制)"
  | Bubble depth a st =>
      let creator_info :=
        match creator_op st with
        | Some op => " ←" +:+ Op.cls op
        | None => " (原始)"
        end in
      let current :=
        indent depth +:+ "🎈 " +:+ bubble_id a +:+ ": "
          +:+ payload_class (payload st) +:+ creator_info in
      if bool_decide (note st = "") then current
      else current +:+ " | " +:+ note st
  end.

Definition is_marker (l : line) : bool :=
  match l with Marker _ _ => true | Bubble _ _ _ => false end.

Definition line_depth (l : line) : nat :=
  match l with Marker d _ | Bubble d _ _ => d end.

(** [max_depth is not None and depth > max_depth] *)
Definition too_deep (max_depth : option Z) (depth : nat) : bool :=
  match max_depth with
  | Some m => bool_decide (m < Z.of_nat depth)%Z
  | None => false
  end.

Definition newline : string := String (Ascii.ascii_of_nat 10) EmptyString.

(** ["\n".join(ls)] *)
Definition join_lines (ls : list string) : string := String.concat newline ls.

(** The loop [for inp in state.inputs: result.append(build_tree(inp,
    depth + 1, visited))]: [visited] is one set object, handed on to
    every call and mutated by it, so it is threaded through. *)
Fixpoint each (child : addr → gset addr → option (string * gset addr))
    (inps : list addr) (result : list string) (visited : gset addr)
  : option (list string * gset addr) :=
  match inps with
  | [] => Some (result, visited)
  | inp :: rest =>
      '(text, visited) ← child inp visited;
      each child rest (result ++ [text]) visited
  end.

(** [build_tree] returns its text and the [visited] set as it has left
    it.  [fuel] bounds the recursion depth; [None] is returned only when
    it runs out or a reference dangles. *)
Fixpoint build_tree (fuel : nat) (h : heap) (max_depth : option Z)
    (state : addr) (depth : nat) (visited : gset addr)
  : option (string * gset addr) :=
  match fuel with
  | O => None
  | S fuel' =>
      if bool_decide (state ∈ visited) || too_deep max_depth depth
      then Some (show (Marker depth state), visited)
      else
        st ← h !! state;
        let visited := {[state]} ∪ visited in
        let current := show (Bubble depth state st) in
        match inputs st with
        | [] => Some (current, visited)
        | _ =>
            '(result, visited) ←
              each (λ inp, build_tree fuel' h max_depth inp (S depth))
                   (inputs st) [current] visited;
            Some (join_lines result, visited)
        end
  end.

Definition backward (h : heap) (self : addr) (max_depth : option Z)
  : option string :=
  fst <$> build_tree (S (length h)) h max_depth self 0 ∅.

(** The same walk, returning the text line by line: [each_lines] and
    [build_tree_lines] follow [each] and [build_tree] and keep the lines
    apart instead of joining them ([build_tree_text_lines] below). *)
Fixpoint each_lines
    (child : addr → gset addr → option (list line * gset addr))
    (inps : list addr) (visited : gset addr)
  : option (list line * gset addr) :=
  match inps with
  | [] => Some ([], visited)
  | inp :: rest =>
      '(ls, visited) ← child inp visited;
      '(more, visited) ← each_lines child rest visited;
      Some (ls ++ more, visited)
  end.

Fixpoint build_tree_lines (fuel : nat) (h : heap) (max_depth : option Z)
    (state : addr) (depth : nat) (visited : gset addr)
  : option (list line * gset addr) :=
  match fuel with
  | O => None
  | S fuel' =>
      if bool_decide (state ∈ visited) || too_deep max_depth depth
      then Some ([Marker depth state], visited)
      else
        st ← h !! state;
        let visited := {[state]} ∪ visited in
        let current := Bubble depth state st in
        '(below, visited) ←
          each_lines (λ inp, build_tree_lines fuel' h max_depth inp (S depth))
                     (inputs st) visited;
        Some (current :: below, visited)
  end.

Definition backward_lines (h : heap) (self : addr) (max_depth : option Z)
  : option (list line) :=
  fst <$> build_tree_lines (S (length h)) h max_depth self 0 ∅.
End StateOps.

(** ** OpRecord *)

Inductive status := started | completed | failed.

#[global] Instance status_eq_dec : EqDecision status.
Proof. solve_decision. Defined.

Module OpRecord.
Record t := mk {
  op_name : string;
  inputs : list addr;
  output : option addr;
  status : status;
  error : option string
}.

Definition init (op_name : string) (inputs : list addr) : t :=
  mk op_name inputs None started None.

Definition complete (self : t) (output : addr) : t :=
  mk (op_name self) (inputs self) (Some output) completed (error self).

Definition fail (self : t) (error : string) : t :=
  mk (op_name self) (inputs self) (output self) failed (Some error).
End OpRecord.

(** ** OpFunction.apply: the wiring algorithm *)

(** What [op.forward] returns in [apply]: a list is taken as the
    list of outputs, any other value as the single output. *)
Inductive forward_ret :=
  | FSingle (v : value)
  | FList (vs : list value).

(** [forward] is the code of a subclass: it may allocate and mutate
    objects, and it returns or raises.  The keyword arguments are part of
    the closure. *)
Definition forward_fn := list addr → heap → heap * result forward_ret.

(** What [apply] returns: [result_states[0]] or [result_states]. *)
Inductive apply_ret :=
  | RSingle (a : addr)
  | RList (l : list addr).

Module OpFunction.
(** [for input_state in inputs: if not isinstance(input_state, State):
    raise TypeError] *)
Fixpoint check_inputs (inputs : list value) : result (list addr) :=
  match inputs with
  | [] => Ok []
  | VState a :: rest =>
      match check_inputs rest with
      | Ok l => Ok (a :: l)
      | Raise e => Raise e
      end
  | VOther ty :: _ => Raise (Exn TypeError ("Expected State, got " +:+ ty))
  end.

(** The body of [if isinstance(output, State)]: stamp the node when
    [output.creator_op is None]. *)
Definition stamp (op : Op.t) (inputs : list addr) (output : addr)
    (h : heap) : heap :=
  match h !! output with
  | Some st =>
      match State.creator_op st with
      | None =>
          <[output := State.mk (State.payload st) (Some op) inputs
                        (State.can_trace st) (State.note st) (Some false)]> h
      | Some _ => h
      end
  | None => h
  end.

(** The loop over [outputs], with [result_states] as accumulator. It
    raises at the first output that is not a [State]; the store is
    returned as the loop has left it. *)
Fixpoint wire (op : Op.t) (inputs : list addr) (outputs : list value)
    (result_states : list addr) (h : heap) : heap * result (list addr) :=
  match outputs with
  | [] => (h, Ok result_states)
  | VState a :: rest =>
      wire op inputs rest (result_states ++ [a]) (stamp op inputs a h)
  | VOther ty :: _ =>
      (h, Raise (Exn TypeError
                   ("Op " +:+ Op.name op +:+ " output must be State, got "
                      +:+ ty)))
  end.

(** [apply]: the check of the inputs, [forward] under [try] with
    [except Exception as e: raise RuntimeError(...) from e] (an exception
    that is not an [Exception] leaves as it is), then the loop. *)
Definition apply (op : Op.t) (forward : forward_fn) (inputs : list value)
    (h : heap) : heap * result apply_ret :=
  match check_inputs inputs with
  | Raise e => (h, Raise e)
  | Ok ins =>
      match forward ins h with
      | (h, Raise e) =>
          if is_exception e then
            (h, Raise (ExnFrom RuntimeError
                         ("Op " +:+ Op.name op +:+ " failed: " +:+ str e) e))
          else (h, Raise e)
      | (h, Ok ret) =>
          let outputs :=
            match ret with FList vs => vs | FSingle v => [v] end in
          match wire op ins outputs [] h with
          | (h, Raise e) => (h, Raise e)
          | (h, Ok result_states) =>
              (h, Ok match result_states with
                     | [a] => RSingle a
                     | _ => RList result_states
                     end)
          end
      end
  end.
End OpFunction.

(** ** Logbook *)

Module Logbook.
Record t := mk {
  name : string;
  op_records : list OpRecord.t;
  bubbles : list addr;
  verbose : bool
}.

Definition init (name : string) (verbose : bool) : t := mk name [] [] verbose.

(** [record]: no field of the logbook is written before a [raise], so a
    raising call leaves the logbook as it was. *)
Definition record (self : t) (bubble : option addr) (op_name : option string)
    (inputs : option (list addr)) (error : option string) : result t :=
  match op_name with
  | Some op_name =>
      match inputs with
      | None =>
          Raise (Exn ValueError "inputs is required when op_name is provided")
      | Some inputs =>
          let record := OpRecord.init op_name inputs in
          match bubble with
          | Some bubble =>
              Ok (mk (name self)
                     (op_records self ++ [OpRecord.complete record bubble])
                     (bubbles self ++ [bubble])
                     (verbose self))
          | None =>
              match error with
              | Some error =>
                  Ok (mk (name self)
                         (op_records self ++ [OpRecord.fail record error])
                         (bubbles self)
                         (verbose self))
              | None =>
                  Raise (Exn ValueError
                    "Either bubble or error must be provided for Op execution")
              end
          end
      end
  | None =>
      match bubble with
      | Some bubble =>
          Ok (mk (name self) (op_records self) (bubbles self ++ [bubble])
                 (verbose self))
      | None =>
          Raise (Exn ValueError "Either bubble or op_name must be provided")
      end
  end.

(** What a line of the text of [trace_tree] shows. *)
Inductive item :=
  | Produced (op_name : string) (a : addr) (note : string)
  | Origin (a : addr) (note : string)
  | Cycle (a : addr) (note : string)
  | DepthLimit (count : Z).

(** A line of the text of [trace_tree]: [lead] is the drawing in front
    of it (the prefixes and the connector the callers have put there),
    [depth] the [depth] argument of the call that made it. *)
Record line := mk_line { lead : string; depth : nat; what : item }.

Definition show_item (i : item) : string :=
  match i with
  | Produced op_name _ note => "🧠 " +:+ op_name +:+ " -> 🎈 " +:+ note
  | Origin _ note => "🎈 Origin: " +:+ note
  | Cycle _ note => "🔄 " +:+ note +:+ " (循环引用)"
  | DepthLimit count => "🔄 深度限制(" +:+ pretty count +:+ ")"
  end.

Definition show (l : line) : string := lead l +:+ show_item (what l).

(** The drawing [prefix + connector] goes in front of the first line of
    the child's text. *)
Definition attach (drawing : string) (child_result : list line) : list line :=
  match child_result with
  | [] => []
  | l :: rest => mk_line (drawing +:+ lead l) (depth l) (what l) :: rest
  end.

(** [count and depth >= count]: [None] and [0] are both falsy. *)
Definition limit_reached (count : option Z) (depth : nat) : option Z :=
  match count with
  | Some c =>
      if bool_decide (c ≠ 0%Z) && bool_decide (c ≤ Z.of_nat depth)%Z
      then Some c else None
  | None => None
  end.

(** [next((r for r in self.op_records if r.output and r.output.bubble_id
    == bubble.bubble_id), None)] *)
Definition producing_record (op_records : list OpRecord.t) (bubble : addr)
  : option OpRecord.t :=
  find (λ r, bool_decide (OpRecord.output r = Some bubble)) op_records.

(** The loop [for i, input_bubble in enumerate(producing_record.inputs)],
    with [result] as it grows; [n] is [len(producing_record.inputs)]. *)
Fixpoint children (child : addr → string → option string)
    (prefix : string) (n : nat) (i : nat) (inps : list addr) (result : string)
  : option string :=
  match inps with
  | [] => Some result
  | input_bubble :: rest =>
      let is_last := bool_decide (i = n - 1) in
      let child_prefix := prefix +:+ (if is_last then "    " else "│   ") in
      let connector := if is_last then "└── " else "├── " in
      child_result ← child input_bubble child_prefix;
      children child prefix n (S i) rest
        (result +:+ StateOps.newline +:+ prefix +:+ connector +:+ child_result)
  end.

(** [trace_tree]: every child gets [visited.copy()], so [visited] is a
    value here.  [fuel] bounds the recursion depth, as in [build_tree]. *)
Fixpoint trace_tree (fuel : nat) (h : heap) (op_records : list OpRecord.t)
    (count : option Z) (bubble : addr) (depth : nat) (visited : gset addr)
    (prefix : string) : option string :=
  match fuel with
  | O => None
  | S fuel' =>
      match limit_reached count depth with
      | Some c => Some (show_item (DepthLimit c))
      | None =>
          st ← h !! bubble;
          if bool_decide (bubble ∈ visited)
          then Some (show_item (Cycle bubble (State.note st)))
          else
            let visited := {[bubble]} ∪ visited in
            match producing_record op_records bubble with
            | Some r =>
                children
                  (λ inp, trace_tree fuel' h op_records count inp
                                     (S depth) visited)
                  prefix (length (OpRecord.inputs r)) 0 (OpRecord.inputs r)
                  (show_item (Produced (OpRecord.op_name r) bubble
                                       (State.note st)))
            | None => Some (show_item (Origin bubble (State.note st)))
            end
      end
  end.

(** [display] prints; the model returns the printed lines.  With no
    [from_bubble] it starts from [self.bubbles[-1]]. *)
Definition display (self : t) (h : heap) (from_bubble : option addr)
    (count : option Z) : option (list string) :=
  match from_bubble, last (bubbles self) with
  | None, None => Some ["📝 Logbook '" +:+ name self +:+ "': 无记录"]
  | Some b, _ | None, Some b =>
      text ← trace_tree (S (length h)) h (op_records self) count b 0 ∅ "";
      Some ["📝 Logbook '" +:+ name self +:+ "' 计算图追溯:"; text]
  end.

(** The same walk, returning the text line by line, each line with the
    drawing in front of it kept apart ([trace_tree_text_lines] below). *)
Fixpoint children_lines (child : addr → string → option (list line))
    (prefix : string) (n : nat) (i : nat) (inps : list addr)
  : option (list line) :=
  match inps with
  | [] => Some []
  | input_bubble :: rest =>
      let is_last := bool_decide (i = n - 1) in
      let child_prefix := prefix +:+ (if is_last then "    " else "│   ") in
      let connector := if is_last then "└── " else "├── " in
      child_result ← child input_bubble child_prefix;
      more ← children_lines child prefix n (S i) rest;
      Some (attach (prefix +:+ connector) child_result ++ more)
  end.

Fixpoint trace_tree_lines (fuel : nat) (h : heap)
    (op_records : list OpRecord.t) (count : option Z) (bubble : addr)
    (depth : nat) (visited : gset addr) (prefix : string)
  : option (list line) :=
  match fuel with
  | O => None
  | S fuel' =>
      match limit_reached count depth with
      | Some c => Some [mk_line "" depth (DepthLimit c)]
      | None =>
          st ← h !! bubble;
          if bool_decide (bubble ∈ visited)
          then Some [mk_line "" depth (Cycle bubble (State.note st))]
          else
            let visited := {[bubble]} ∪ visited in
            match producing_record op_records bubble with
            | Some r =>
                below ←
                  children_lines
                    (λ inp, trace_tree_lines fuel' h op_records count inp
                                             (S depth) visited)
                    prefix (length (OpRecord.inputs r)) 0
                    (OpRecord.inputs r);
                Some (mk_line "" depth
                        (Produced (OpRecord.op_name r) bubble (State.note st))
                      :: below)
            | None =>
                Some [mk_line "" depth (Origin bubble (State.note st))]
            end
      end
  end.

Definition trace_lines (self : t) (h : heap) (from_bubble : addr)
    (count : option Z) : option (list line) :=
  trace_tree_lines (S (length h)) h (op_records self) count from_bubble 0 ∅ "".
End Logbook.

(** ** Op.__call__ *)

(** [for output in outputs: logbook.record(output, op_name=self.name,
    inputs=list(states))]; the logbook is returned as the loop has left
    it. *)
Fixpoint record_outputs (logbook : Logbook.t) (op_name : string)
    (states : list addr) (outputs : list addr) : Logbook.t * result unit :=
  match outputs with
  | [] => (logbook, Ok tt)
  | output :: rest =>
      match Logbook.record logbook (Some output) (Some op_name) (Some states) None with
      | Ok logbook => record_outputs logbook op_name states rest
      | Raise e => (logbook, Raise e)
      end
  end.

(** [Op.__call__] on [states], with or without a [logbook].  The clause
    [except Exception as e] records the failure and re-raises [e]; were
    the recording itself to raise, that exception would leave instead.  An
    exception that is not an [Exception] passes the clause untouched. *)
Definition Op_call (self : Op.t) (forward : forward_fn) (states : list addr)
    (logbook : option Logbook.t) (h : heap)
  : heap * option Logbook.t * result apply_ret :=
  let except (h : heap) (logbook : option Logbook.t) (e : exn) :=
    if is_exception e then
      match logbook with
      | Some lb =>
          match Logbook.record lb None (Some (Op.name self)) (Some states)
                  (Some (str e)) with
          | Ok lb => (h, Some lb, Raise e)
          | Raise e' => (h, Some lb, Raise e')
          end
      | None => (h, None, Raise e)
      end
    else (h, logbook, Raise e) in
  match OpFunction.apply self forward (VState <$> states) h with
  | (h, Ok result) =>
      match logbook with
      | Some lb =>
          let outputs :=
            match result with RList l => l | RSingle a => [a] end in
          match record_outputs lb (Op.name self) states outputs with
          | (lb, Ok _) => (h, Some lb, Ok result)
          | (lb, Raise e) => except h (Some lb) e
          end
      | None => (h, None, Ok result)
      end
  | (h, Raise e) => except h logbook e
  end.

(** ** Auxiliary notions for the statements *)

(** The outputs of [forward], normalised to a list as [apply] does. *)
Definition outputs_of (ret : forward_ret) : list value :=
  match ret with FList vs => vs | FSingle v => [v] end.

(** [result_states[0] if len(result_states) == 1 else result_states] *)
Definition collapse (result_states : list addr) : apply_ret :=
  match result_states with
  | [a] => RSingle a
  | _ => RList result_states
  end.

(** The store that the loop of [apply] leaves after the nodes [outs] have
    gone through it. *)
Definition stamp_all (op : Op.t) (ins : list addr) (outs : list addr)
    (h : heap) : heap :=
  foldl (λ h a, OpFunction.stamp op ins a h) h outs.

(** The origin invariant of a node: no producing operation exactly when
    there are no inputs. *)
Definition origin_invariant (st : State.t) : Prop :=
  State.creator_op st = None ↔ State.inputs st = [].

(** ** Concrete objects for the scenarios *)

Module Scenario.
Definition brief : Payload := mk_payload "ResearchBriefPayload" "brief".

Definition Op1 : Op.t := Op.init 1 "Generate" (Some "Op1").
Definition Op2 : Op.t := Op.init 2 "Critique" (Some "Op2").
Definition Op3 : Op.t := Op.init 3 "Execute" (Some "Op3").

(** The store after [A = State(brief, note="A")]: [A] is at address 0. *)
Definition store_A : heap := (StateOps.init [] brief None None true "A").1.

(** A [forward] that builds one new node and returns it. *)
Definition forward_new (note : string) : forward_fn :=
  λ _ h, let '(h, b) := StateOps.init h brief None None true note in
         (h, Ok (FSingle (VState b))).

(** A [forward] that returns the node [a] it was given or has kept. *)
Definition forward_same (a : addr) : forward_fn :=
  λ _ h, (h, Ok (FSingle (VState a))).

(** A [forward] that builds two new nodes and returns them as a list. *)
Definition forward_two (note1 note2 : string) : forward_fn :=
  λ _ h, let '(h, b) := StateOps.init h brief None None true note1 in
         let '(h, c) := StateOps.init h brief None None true note2 in
         (h, Ok (FList [VState b; VState c])).

(** A [forward] that builds a node and returns it with a string. *)
Definition forward_mixed (note : string) : forward_fn :=
  λ _ h, let '(h, b) := StateOps.init h brief None None true note in
         (h, Ok (FList [VState b; VOther "<class 'str'>"])).

(** A [forward] that raises [ValueError(msg)]. *)
Definition forward_raise (msg : string) : forward_fn :=
  λ _ h, (h, Raise (Exn ValueError msg)).

Definition empty_logbook : Logbook.t := Logbook.init "default" false.
End Scenario.

(** ** The two provenance graphs *)

(** Every reference held in the store points into the store (in Python a
    reference cannot dangle). *)
Definition closed_heap (h : heap) : Prop :=
  Forall (λ st, Forall (λ b, b < length h) (State.inputs st)) h.

Definition closed_ledger (h : heap) (op_records : list OpRecord.t) : Prop :=
  Forall (λ r, Forall (λ b, b < length h) (OpRecord.inputs r)) op_records.

(** [b] is an input of [a], as [backward] follows it. *)
Definition input_edge (h : heap) (a b : addr) : Prop :=
  ∃ st, h !! a = Some st ∧ b ∈ State.inputs st.

(** [b] is an input of the record that produced [a], as [display] follows
    it. *)
Definition record_edge (op_records : list OpRecord.t) (a b : addr) : Prop :=
  ∃ r, Logbook.producing_record op_records a = Some r
       ∧ b ∈ OpRecord.inputs r.

Definition is_cycle_line (l : Logbook.line) : bool :=
  match Logbook.what l with Logbook.Cycle _ _ => true | _ => false end.

Definition is_depth_line (l : Logbook.line) : bool :=
  match Logbook.what l with Logbook.DepthLimit _ => true | _ => false end.

(** The addresses of the store, as a set. *)
Definition addresses (h : heap) : gset addr := set_seq 0 (length h).

(** ** Graphs built through the public interface *)

Module Run.
(** One call of [op] on [states] with the logbook, on the store so far;
    the result of the call is dropped. *)
Definition call (op : Op.t) (forward : forward_fn) (states : list addr)
    (s : heap * Logbook.t) : heap * Logbook.t :=
  let '(h, lb, _) := Op_call op forward states (Some s.2) s.1 in
  (h, default s.2 lb).

(** [A] at address 0, recorded as an origin node. *)
Definition start : heap * Logbook.t :=
  (Scenario.store_A,
   match Logbook.record Scenario.empty_logbook (Some 0) None None None with
   | Ok lb => lb
   | Raise _ => Scenario.empty_logbook
   end).

(** [B = Op1(A)], [C = Op2(B)]: a chain, [C] at address 2. *)
Definition chain : heap * Logbook.t :=
  call Scenario.Op2 (Scenario.forward_new "C") [1]
    (call Scenario.Op1 (Scenario.forward_new "B") [0] start).

(** [B = Op1(A)], [C = Op2(A)], [D = Op3(B, C)]: [B] and [C] share the
    ancestor [A], and there is no cycle; [D] is at address 3. *)
Definition diamond : heap * Logbook.t :=
  call Scenario.Op3 (Scenario.forward_new "D") [1; 2]
    (call Scenario.Op2 (Scenario.forward_new "C") [0]
       (call Scenario.Op1 (Scenario.forward_new "B") [0] start)).

(** A cycle, made without [apply]: [A] and [B] are built with each other
    as input ([A.inputs] assigned after [B] exists), and the caller
    records both, each as produced from the other. *)
Definition cycle : heap * Logbook.t :=
  ([State.mk Scenario.brief (Some Scenario.Op1) [1] true "A" None;
    State.mk Scenario.brief (Some Scenario.Op2) [0] true "B" None],
   match Logbook.record Scenario.empty_logbook (Some 0) (Some "Op1")
           (Some [1]) None with
   | Ok lb =>
       match Logbook.record lb (Some 1) (Some "Op2") (Some [0]) None with
       | Ok lb => lb
       | Raise _ => lb
       end
   | Raise _ => Scenario.empty_logbook
   end).
End Run.

(** The node a line of [backward] is about, and a summary of the line:
    marker or not, depth, node. *)
Definition line_addr (l : StateOps.line) : addr :=
  match l with StateOps.Marker _ a | StateOps.Bubble _ a _ => a end.

Definition line_summary (l : StateOps.line) : bool * nat * addr :=
  (StateOps.is_marker l, StateOps.line_depth l, line_addr l).

(** The lines [ls] as they follow a first line: each with the newline
    that ["\n".join] puts in front of it. *)
Definition after_lines (ls : list string) : string :=
  foldr (λ l acc, StateOps.newline +:+ l +:+ acc) "" ls.

(** ** Well-formed logbooks *)

(** The record that [record] appends for a produced node. *)
Definition completed_record (op_name : string) (inputs : list addr)
    (output : addr) : OpRecord.t :=
  OpRecord.mk op_name inputs (Some output) completed None.

(** The record that [record] appends for a failure. *)
Definition failed_record (op_name : string) (inputs : list addr)
    (error : string) : OpRecord.t :=
  OpRecord.mk op_name inputs None failed (Some error).

(** A record as [record] leaves it: terminal, with an output exactly when
    completed and an error text exactly when failed. *)
Definition terminal_record (r : OpRecord.t) : Prop :=
  match OpRecord.status r with
  | started => False
  | completed => is_Some (OpRecord.output r) ∧ OpRecord.error r = None
  | failed => OpRecord.output r = None ∧ is_Some (OpRecord.error r)
  end.

(** Every record is terminal and the output of every record is in the
    node list. *)
Definition logbook_ok (lb : Logbook.t) : Prop :=
  Forall terminal_record (Logbook.op_records lb)
  ∧ Forall (λ r, ∀ b, OpRecord.output r = Some b → b ∈ Logbook.bubbles lb)
           (Logbook.op_records lb).

(** The logbook after [outs] have been recorded as produced by [op_name]
    from [states]. *)
Definition logbook_completed (lb : Logbook.t) (op_name : string)
    (states : list addr) (outs : list addr) : Logbook.t :=
  Logbook.mk (Logbook.name lb)
    (Logbook.op_records lb ++ (completed_record op_name states <$> outs))
    (Logbook.bubbles lb ++ outs) (Logbook.verbose lb).

(** The logbook after a failure of [op_name] on [states] has been
    recorded. *)
Definition logbook_failed (lb : Logbook.t) (op_name : string)
    (states : list addr) (error : string) : Logbook.t :=
  Logbook.mk (Logbook.name lb)
    (Logbook.op_records lb ++ [failed_record op_name states error])
    (Logbook.bubbles lb) (Logbook.verbose lb).

(** The nodes of a result of [apply], as [Op.__call__] lists them. *)
Definition result_nodes (r : apply_ret) : list addr :=
  match r with RList l => l | RSingle a => [a] end.

(** The nodes that the lines of [backward] render (the lines that are
    not markers), in the order of the text. *)
Definition rendered (ls : list StateOps.line) : list addr :=
  omap (λ l, match l with
             | StateOps.Bubble _ a _ => Some a
             | StateOps.Marker _ _ => None
             end) ls.

(** ** CompositeOp *)

Module CompositeOp.
(** [CompositeOp.__init__]: the class is [CompositeOp], and the name, when
    none is given, says how many operations there are. *)
Definition init (op_id : nat) (ops : list (Op.t * forward_fn))
    (name : option string) : Op.t :=
  let auto := "Composite(" +:+ pretty (length ops) +:+ ")" in
  Op.init op_id "CompositeOp"
    (Some match name with
          | Some n => if bool_decide (n = "") then auto else n
          | None => auto
          end).

(** The loop of [forward]: every operation is called (through
    [Op.__call__], without a logbook: the keyword arguments that are
    handed on do not hold it) on what the one before has returned, made
    a sequence again. *)
Fixpoint run (ops : list (Op.t * forward_fn)) (current : list addr)
    (h : heap) : heap * result (list addr) :=
  match ops with
  | [] => (h, Ok current)
  | (op, forward) :: rest =>
      match Op_call op forward current None h with
      | (h, _, Ok result) =>
          run rest (match result with RList l => l | RSingle a => [a] end) h
      | (h, _, Raise e) => (h, Raise e)
      end
  end.

(** [CompositeOp.forward]: [current[0] if len(current) == 1 else
    list(current)]. *)
Definition forward (ops : list (Op.t * forward_fn)) : forward_fn :=
  λ states h,
    match run ops states h with
    | (h, Ok current) =>
        (h, Ok match current with
               | [a] => FSingle (VState a)
               | _ => FList (VState <$> current)
               end)
    | (h, Raise e) => (h, Raise e)
    end.
End CompositeOp.

(** ** AispAgent: the tree of modules *)

Definition dot : Ascii.ascii := Ascii.ascii_of_nat 46.

(** [s.split('.')] *)
Fixpoint split_dot (s : string) : list string :=
  match s with
  | EmptyString => [""]
  | String c s' =>
      if Ascii.eqb c dot then "" :: split_dot s'
      else match split_dot s' with
           | piece :: pieces => String c piece :: pieces
           | [] => [String c ""]
           end
  end.

(** ['.' in s] *)
Fixpoint has_dot (s : string) : bool :=
  match s with
  | EmptyString => false
  | String c s' => Ascii.eqb c dot || has_dot s'
  end.

(** A name that [get_submodule] can look up: not empty, without a dot. *)
Definition plain_name (s : string) : Prop := s ≠ "" ∧ has_dot s = false.

(** ['.'.join(atoms)] *)
Definition join_dot (atoms : list string) : string := String.concat "." atoms.

(** An agent as far as its modules go: the name of its class, [self.name]
    and [self._modules], an [OrderedDict] from names to modules, each an
    operation or an agent.  The logbook of the agent has no part in the
    tree and is left out.  The methods below only read the objects under
    an agent, so the tree is a value here. *)
Unset Elimination Schemes.
Inductive agent :=
  | Agent (cls : string) (name : string)
          (modules : list (string * (Op.t + agent))).
Set Elimination Schemes.

Abbreviation module_ := (Op.t + agent)%type.

Module AispAgent.
Definition modules_of (self : agent) : list (string * module_) :=
  match self with Agent _ _ modules => modules end.

(** [AispAgent.__init__]: no modules yet. *)
Definition init (cls name : string) : agent := Agent cls name [].

(** [d[key]] on an [OrderedDict], [None] when [key not in d]. *)
Fixpoint od_get {A} (key : string) (d : list (string * A)) : option A :=
  match d with
  | [] => None
  | (k, v) :: rest => if bool_decide (k = key) then Some v else od_get key rest
  end.



(** [modules()], as the list of what it yields. *)
Definition modules (self : agent) : list module_ := snd <$> modules_of self.

(** [named_modules(prefix)], as the list of what it yields. *)
Fixpoint named_modules (self : agent) (prefix : string)
  : list (string * module_) :=
  let prefix := if bool_decide (prefix = "") then prefix else prefix +:+ "." in
  match self with
  | Agent _ _ modules =>
      (fix items (modules : list (string * module_)) :=
         match modules with
         | [] => []
         | (name, module) :: rest =>
             (prefix +:+ name, module)
               :: match module with
                  | inr sub => named_modules sub (prefix +:+ name)
                  | inl _ => []
                  end
               ++ items rest
         end) modules
  end.

(** [repr(module)], the same format for operations and agents. *)
Definition repr (module : module_) : string :=
  match module with
  | inl op => Op.cls op +:+ "(name='" +:+ Op.name op +:+ "')"
  | inr (Agent cls name _) => cls +:+ "(name='" +:+ name +:+ "')"
  end.

Definition AttributeError : exn_class := UserError "AttributeError".

(** The loop [for item in atoms] of [get_submodule]; an operation has no
    [_modules]. *)
Fixpoint walk (module : module_) (atoms : list string) : result module_ :=
  match atoms with
  | [] => Ok module
  | item :: rest =>
      match module with
      | inl _ =>
          Raise (Exn AttributeError (repr module +:+ " has no attribute _modules"))
      | inr (Agent _ _ modules) =>
          match od_get item modules with
          | None =>
              Raise (Exn AttributeError
                         (repr module +:+ " has no submodule " +:+ item))
          | Some m => walk m rest
          end
      end
  end.

Definition get_submodule (self : agent) (target : string) : result module_ :=
  if bool_decide (target = "") then Ok (inr self)
  else walk (inr self) (split_dot target).
End AispAgent.

(** The modules under an agent with the names on the way to them. *)
Fixpoint paths (self : agent) : list (list string * module_) :=
  match self with
  | Agent _ _ modules =>
      (fix items (modules : list (string * module_)) :=
         match modules with
         | [] => []
         | (name, module) :: rest =>
             ([name], module)
               :: match module with
                  | inr sub => (λ p, (name :: p.1, p.2)) <$> paths sub
                  | inl _ => []
                  end
               ++ items rest
         end) modules
  end.

(** A tree as the code can look it up: at every agent the names are
    different from one another (they are the keys of a dictionary) and
    plain. *)
Fixpoint tree_ok (self : agent) : Prop :=
  match self with
  | Agent _ _ modules =>
      NoDup (fst <$> modules)
      ∧ (fix all (modules : list (string * module_)) : Prop :=
           match modules with
           | [] => True
           | (name, module) :: rest =>
               plain_name name
               ∧ match module with inr sub => tree_ok sub | inl _ => True end
               ∧ all rest
           end) modules
  end.

(** * Properties of the wiring algorithm *)

Section wiring.
Import OpFunction.

Variables (op : Op.t) (ins : list addr).

Lemma stamp_other (a b : addr) (h : heap) :
  a ≠ b → stamp op ins b h !! a = h !! a.
Proof.
  intros Hne. unfold stamp. destruct (h !! b) as [st|]; [|done].
  destruct (State.creator_op st); [done|].
  by rewrite list_lookup_insert_ne.
Qed.

(** A node without a producing operation is stamped. *)
Lemma stamp_absent (a : addr) (h : heap) (st : State.t) :
  h !! a = Some st → State.creator_op st = None →
  stamp op ins a h !! a =
    Some (State.mk (State.payload st) (Some op) ins (State.can_trace st)
                   (State.note st) (Some false)).
Proof.
  intros Hst Hnone. unfold stamp. rewrite Hst, Hnone.
  apply list_lookup_insert_eq. by eapply lookup_lt_Some.
Qed.

(** A node with a producing operation is left alone, whichever node the
    step is about. *)
Lemma stamp_present (a b : addr) (h : heap) (st : State.t) :
  h !! a = Some st → State.creator_op st ≠ None →
  stamp op ins b h !! a = Some st.
Proof.
  intros Hst Hset. destruct (decide (a = b)) as [->|Hne].
  - unfold stamp. rewrite Hst. by destruct (State.creator_op st).
  - by rewrite stamp_other.
Qed.

Lemma stamp_noop_iff (a : addr) (h : heap) (st : State.t) :
  h !! a = Some st →
  stamp op ins a h = h ↔ State.creator_op st ≠ None.
Proof.
  intros Hst. split.
  - intros Heq Hnone. pose proof (stamp_absent a h st Hst Hnone) as Hs.
    rewrite Heq, Hst in Hs. injection Hs as Hs. rewrite Hs in Hnone.
    discriminate.
  - intros Hset. unfold stamp. rewrite Hst.
    by destruct (State.creator_op st).
Qed.

Lemma wire_present (outputs : list value) (acc : list addr) (h : heap)
    (a : addr) (st : State.t) :
  h !! a = Some st → State.creator_op st ≠ None →
  (wire op ins outputs acc h).1 !! a = Some st.
Proof.
  revert acc h. induction outputs as [|[b|ty] rest IH]; intros acc h Hst Hset;
    simpl; [done| |done].
  apply IH; [|done]. by apply stamp_present.
Qed.

Lemma wire_states (outs : list addr) (acc : list addr) (h : heap) :
  wire op ins (VState <$> outs) acc h = (stamp_all op ins outs h, Ok (acc ++ outs)).
Proof.
  revert acc h. induction outs as [|a rest IH]; intros acc h; simpl.
  - by rewrite app_nil_r.
  - rewrite IH. unfold stamp_all. simpl. by rewrite <- app_assoc.
Qed.

(** The loop stops at the first output that is not a node: the nodes
    before it have been through the stamping step. *)
Lemma wire_stops (pre : list addr) (ty : string) (post : list value)
    (acc : list addr) (h : heap) :
  wire op ins ((VState <$> pre) ++ VOther ty :: post) acc h =
    (stamp_all op ins pre h,
     Raise (Exn TypeError
              ("Op " +:+ Op.name op +:+ " output must be State, got " +:+ ty))).
Proof.
  revert acc h. induction pre as [|a rest IH]; intros acc h; simpl; [done|].
  by rewrite IH.
Qed.

Lemma stamp_all_present (outs : list addr) (h : heap) (a : addr)
    (st : State.t) :
  h !! a = Some st → State.creator_op st ≠ None →
  stamp_all op ins outs h !! a = Some st.
Proof.
  revert h. induction outs as [|b rest IH]; intros h Hst Hset; [done|].
  apply IH; [|done]. by apply stamp_present.
Qed.

Lemma stamp_all_other (outs : list addr) (h : heap) (a : addr) :
  a ∉ outs → stamp_all op ins outs h !! a = h !! a.
Proof.
  revert h. induction outs as [|b rest IH]; intros h Hnotin; [done|].
  apply not_elem_of_cons in Hnotin as [Hne Hnotin].
  unfold stamp_all. simpl. fold (stamp_all op ins rest (stamp op ins b h)).
  rewrite IH by done. by apply stamp_other.
Qed.

(** Every node that went through the loop has a producing operation
    afterwards: the one it had, or [op] with [ins]. *)
Lemma stamp_all_member (outs : list addr) (h : heap) (a : addr)
    (st : State.t) :
  a ∈ outs → h !! a = Some st →
  ∃ st', stamp_all op ins outs h !! a = Some st'
    ∧ State.creator_op st' ≠ None
    ∧ (State.creator_op st ≠ None → st' = st)
    ∧ (State.creator_op st = None →
         State.creator_op st' = Some op ∧ State.inputs st' = ins).
Proof.
  revert h st. induction outs as [|b rest IH]; intros h st Hin Hst.
  - by apply elem_of_nil in Hin.
  - unfold stamp_all. simpl. fold (stamp_all op ins rest (stamp op ins b h)).
    destruct (State.creator_op st) as [o|] eqn:Hc.
    + exists st. rewrite stamp_all_present with (st := st);
        [by rewrite Hc | by apply stamp_present; rewrite ?Hc | by rewrite Hc].
    + destruct (decide (a = b)) as [->|Hne].
      * pose proof (stamp_absent b h st Hst Hc) as Hs.
        eexists. split; [by apply stamp_all_present; [exact Hs|]|].
        by simpl.
      * apply elem_of_cons in Hin as [?|Hin]; [done|].
        destruct (IH (stamp op ins b h) st Hin) as (st' & ? & ? & ? & ?).
        { by rewrite stamp_other. }
        exists st'. by rewrite Hc in *.
Qed.
End wiring.

Lemma check_inputs_states (states : list addr) :
  OpFunction.check_inputs (VState <$> states) = Ok states.
Proof. induction states as [|a rest IH]; csimpl; [done|]. by rewrite IH. Qed.

Lemma apply_forward_returns (op : Op.t) (forward : forward_fn)
    (inputs : list value) (ins : list addr) (h h1 : heap) (ret : forward_ret) :
  OpFunction.check_inputs inputs = Ok ins →
  forward ins h = (h1, Ok ret) →
  OpFunction.apply op forward inputs h =
    match OpFunction.wire op ins (outputs_of ret) [] h1 with
    | (h2, Raise e) => (h2, Raise e)
    | (h2, Ok result_states) => (h2, Ok (collapse result_states))
    end.
Proof.
  intros Hin Hfw. unfold OpFunction.apply. rewrite Hin, Hfw.
  by destruct ret.
Qed.

Lemma apply_forward_raises (op : Op.t) (forward : forward_fn)
    (inputs : list value) (ins : list addr) (h h1 : heap) (e : exn) :
  OpFunction.check_inputs inputs = Ok ins →
  forward ins h = (h1, Raise e) →
  is_exception e = true →
  OpFunction.apply op forward inputs h =
    (h1, Raise (ExnFrom RuntimeError
                  ("Op " +:+ Op.name op +:+ " failed: " +:+ str e) e)).
Proof.
  intros Hin Hfw He. unfold OpFunction.apply. by rewrite Hin, Hfw, He.
Qed.

(** What [except Exception] does not catch leaves [apply] as it is. *)
Lemma apply_forward_passes (op : Op.t) (forward : forward_fn)
    (inputs : list value) (ins : list addr) (h h1 : heap) (e : exn) :
  OpFunction.check_inputs inputs = Ok ins →
  forward ins h = (h1, Raise e) →
  is_exception e = false →
  OpFunction.apply op forward inputs h = (h1, Raise e).
Proof.
  intros Hin Hfw He. unfold OpFunction.apply. by rewrite Hin, Hfw, He.
Qed.

(** When [forward] raises, [apply] raises and the store is as [forward]
    has left it. *)
Lemma apply_forward_raise_heap (op : Op.t) (forward : forward_fn)
    (inputs : list value) (ins : list addr) (h h1 : heap) (e : exn) :
  OpFunction.check_inputs inputs = Ok ins →
  forward ins h = (h1, Raise e) →
  ∃ e', OpFunction.apply op forward inputs h = (h1, Raise e').
Proof.
  intros Hin Hfw. destruct (is_exception e) eqn:He.
  - eexists. by apply (apply_forward_raises _ _ _ ins).
  - eexists. by apply (apply_forward_passes _ _ _ ins).
Qed.

(** The heap after [apply] is the heap after the loop, whatever the loop
    returns. *)
Lemma apply_heap (op : Op.t) (forward : forward_fn)
    (inputs : list value) (ins : list addr) (h h1 : heap) (ret : forward_ret) :
  OpFunction.check_inputs inputs = Ok ins →
  forward ins h = (h1, Ok ret) →
  (OpFunction.apply op forward inputs h).1 =
    (OpFunction.wire op ins (outputs_of ret) [] h1).1.
Proof.
  intros Hin Hfw. rewrite (apply_forward_returns _ _ _ _ _ _ _ Hin Hfw).
  by destruct (OpFunction.wire _ _ _ _ _) as [h2 [rs|e]].
Qed.

(** C1. A node that [forward] returns with a producing operation keeps its
    fields through [apply]: the stamping step changes the store exactly
    when [creator_op] is absent.  When the call goes through, the node has
    a producing operation afterwards (the operation and inputs of this
    call if it had none), and a second call of [apply], by any operation
    on any inputs, whose [forward] hands the node back as it is, leaves it
    with the provenance of the first. *)
Theorem C1_stamping_idempotent
    (op : Op.t) (forward : forward_fn) (inputs : list value)
    (ins : list addr) (h h1 : heap) (ret : forward_ret)
    (a : addr) (st : State.t) :
  OpFunction.check_inputs inputs = Ok ins →
  forward ins h = (h1, Ok ret) →
  VState a ∈ outputs_of ret →
  h1 !! a = Some st →
  let h2 := (OpFunction.apply op forward inputs h).1 in
  (OpFunction.stamp op ins a h1 = h1 ↔ State.creator_op st ≠ None)
  ∧ (State.creator_op st ≠ None → h2 !! a = Some st)
  ∧ (∀ outs : list addr, outputs_of ret = VState <$> outs →
       ∃ st2, h2 !! a = Some st2
         ∧ State.creator_op st2 ≠ None
         ∧ (State.creator_op st = None →
              State.creator_op st2 = Some op ∧ State.inputs st2 = ins)
         ∧ ∀ (op' : Op.t) (forward' : forward_fn) (inputs' : list value)
             (ins' : list addr) (h3 : heap) (ret' : forward_ret),
             OpFunction.check_inputs inputs' = Ok ins' →
             forward' ins' h2 = (h3, Ok ret') →
             h3 !! a = Some st2 →
             (OpFunction.apply op' forward' inputs' h2).1 !! a = Some st2).
Proof.
  intros Hin Hfw Hout Hst h2. subst h2.
  rewrite (apply_heap _ _ _ _ _ _ _ Hin Hfw).
  split; [by apply stamp_noop_iff|]. split; [by apply wire_present|].
  intros outs Houts. rewrite Houts, wire_states. simpl.
  rewrite Houts in Hout. apply list_elem_of_fmap in Hout as (a' & [= <-] & Hmem).
  destruct (stamp_all_member op ins outs h1 a st Hmem Hst)
    as (st2 & Hst2 & Hset & _ & Hnew).
  exists st2. repeat split; [done|done|by apply Hnew|by apply Hnew|].
  intros op' forward' inputs' ins' h3 ret' Hin' Hfw' Hsame.
  rewrite (apply_forward_returns _ _ _ _ _ _ _ Hin' Hfw').
  pose proof (wire_present op' ins' (outputs_of ret') [] h3 a st2 Hsame Hset)
    as Hkeep.
  by destruct (OpFunction.wire _ _ _ _ _) as [h4 [rs|e]].
Qed.

(** C2. When every produced value is a node, [apply] returns the node
    itself if there is exactly one, and the list of the nodes in the order
    of production if there are more. *)
Theorem C2_singleton_collapse
    (op : Op.t) (forward : forward_fn) (inputs : list value)
    (ins : list addr) (h h1 : heap) (ret : forward_ret) (outs : list addr) :
  OpFunction.check_inputs inputs = Ok ins →
  forward ins h = (h1, Ok ret) →
  outputs_of ret = VState <$> outs →
  let r := (OpFunction.apply op forward inputs h).2 in
  (∀ a, outs = [a] → r = Ok (RSingle a))
  ∧ (1 < length outs → r = Ok (RList outs)).
Proof.
  intros Hin Hfw Houts r. subst r.
  rewrite (apply_forward_returns _ _ _ _ _ _ _ Hin Hfw), Houts, wire_states.
  simpl. split.
  - by intros a ->.
  - intros Hlen. destruct outs as [|a [|b rest]]; simpl in *; [lia|lia|done].
Qed.

Lemma C1_stamping_idempotent_witness :
  let h2 := (OpFunction.apply Scenario.Op1 (Scenario.forward_new "B")
               [VState 0] Scenario.store_A).1 in
  ∃ st2, h2 !! 1 = Some st2
    ∧ State.creator_op st2 = Some Scenario.Op1
    ∧ State.inputs st2 = [0]
    ∧ (OpFunction.apply Scenario.Op2 (Scenario.forward_same 1) [] h2).1 !! 1
      = Some st2.
Proof.
  destruct (C1_stamping_idempotent Scenario.Op1 (Scenario.forward_new "B")
              [VState 0] [0] Scenario.store_A
              (StateOps.init Scenario.store_A Scenario.brief None None true "B").1
              (FSingle (VState 1)) 1
              (State.mk Scenario.brief None [] true "B" None)
              eq_refl eq_refl (list_elem_of_here _ _) eq_refl)
    as (_ & _ & Hcall).
  destruct (Hcall [1] eq_refl) as (st2 & Hst2 & _ & Hnew & Hsecond).
  exists st2. destruct (Hnew eq_refl) as [Hop Hins].
  repeat split; [exact Hst2|exact Hop|exact Hins|].
  apply (Hsecond Scenario.Op2 (Scenario.forward_same 1) [] [] _
           (FSingle (VState 1)) eq_refl eq_refl Hst2).
Defined.

Lemma C2_singleton_collapse_witness :
  (OpFunction.apply Scenario.Op1 (Scenario.forward_new "B") [VState 0]
     Scenario.store_A).2 = Ok (RSingle 1)
  ∧ (OpFunction.apply Scenario.Op1 (Scenario.forward_two "B" "C") [VState 0]
       Scenario.store_A).2 = Ok (RList [1; 2]).
Proof.
  split.
  - apply (C2_singleton_collapse Scenario.Op1 (Scenario.forward_new "B")
             [VState 0] [0] Scenario.store_A _ (FSingle (VState 1)) [1]
             eq_refl eq_refl eq_refl).
    reflexivity.
  - apply (C2_singleton_collapse Scenario.Op1 (Scenario.forward_two "B" "C")
             [VState 0] [0] Scenario.store_A _ (FList [VState 1; VState 2])
             [1; 2] eq_refl eq_refl eq_refl).
    simpl. lia.
Defined.

(** * The origin invariant *)

Lemma init_lookup (h : heap) (payload : Payload) (creator_op : option Op.t)
    (inputs : option (list addr)) (can_trace : bool) (note : string) :
  let '(h', a) := StateOps.init h payload creator_op inputs can_trace note in
  h' !! a = Some (State.mk payload creator_op (default [] inputs) can_trace
                           note None)
  ∧ ∀ b, b < length h → h' !! b = h !! b.
Proof.
  simpl. split.
  - by rewrite lookup_app_r, Nat.sub_diag.
  - intros b Hb. by rewrite lookup_app_l.
Qed.

Lemma stamp_origin_invariant (op : Op.t) (ins : list addr) (b : addr)
    (h : heap) :
  ins ≠ [] →
  (∀ a st, h !! a = Some st → origin_invariant st) →
  ∀ a st, OpFunction.stamp op ins b h !! a = Some st → origin_invariant st.
Proof.
  intros Hins Hinv a st. destruct (decide (a = b)) as [->|Hne].
  - destruct (h !! b) as [st0|] eqn:Hst0.
    + destruct (State.creator_op st0) as [o|] eqn:Hc.
      * rewrite (stamp_present op ins b b h st0) by (by rewrite ?Hc).
        intros [= <-]. by eapply Hinv.
      * rewrite (stamp_absent op ins b h st0) by done.
        intros [= <-]. by unfold origin_invariant.
    + unfold OpFunction.stamp. rewrite Hst0. apply Hinv.
  - rewrite stamp_other by done. apply Hinv.
Qed.

Lemma wire_origin_invariant (op : Op.t) (ins : list addr)
    (outputs : list value) (acc : list addr) (h : heap) :
  ins ≠ [] →
  (∀ a st, h !! a = Some st → origin_invariant st) →
  ∀ a st, (OpFunction.wire op ins outputs acc h).1 !! a = Some st →
          origin_invariant st.
Proof.
  intros Hins. revert acc h.
  induction outputs as [|[b|ty] rest IH]; intros acc h Hinv; simpl; [done| |done].
  apply IH. by apply stamp_origin_invariant.
Qed.

(** C3, as the claim states it, fails: the constructor takes [creator_op] and
    [inputs] separately and checks nothing, so a node built with inputs
    and no operation has [creator_op is None] and [inputs != []]; and an
    operation called on no inputs stamps its output with itself and [[]]. *)
Lemma C3_origin_invariant_counterexample :
  (∃ st, (StateOps.init Scenario.store_A Scenario.brief None (Some [0]) true "B").1
           !! 1 = Some st
         ∧ State.creator_op st = None ∧ State.inputs st = [0]
         ∧ ¬ origin_invariant st)
  ∧ (∃ st, (OpFunction.apply Scenario.Op1 (Scenario.forward_new "B") []
              Scenario.store_A).1 !! 1 = Some st
           ∧ State.creator_op st = Some Scenario.Op1 ∧ State.inputs st = []
           ∧ ¬ origin_invariant st).
Proof.
  split; eexists; (split; [reflexivity|]); (split; [reflexivity|]);
    (split; [reflexivity|]); unfold origin_invariant; simpl; intros [H1 H2].
  - by specialize (H1 eq_refl).
  - by specialize (H2 eq_refl).
Qed.

(** C3, amended. A node built by the constructor satisfies the origin
    invariant exactly when the two optional arguments agree ([creator_op]
    absent and [inputs] absent or empty, or [creator_op] given and [inputs]
    not empty), so in particular when both are left out; and a call of
    [apply] with at least one input keeps the invariant on every node of
    the store on which [forward] has left it. *)
Theorem C3_origin_invariant_amended
    (op : Op.t) (forward : forward_fn) (inputs : list value)
    (ins : list addr) (h h1 : heap) (r : result forward_ret) :
  OpFunction.check_inputs inputs = Ok ins →
  forward ins h = (h1, r) →
  ins ≠ [] →
  (∀ a st, h1 !! a = Some st → origin_invariant st) →
  (∀ a st, (OpFunction.apply op forward inputs h).1 !! a = Some st →
           origin_invariant st)
  ∧ (∀ payload creator_op inps can_trace note,
       let '(h', a) := StateOps.init h payload creator_op inps can_trace note in
       ∃ st, h' !! a = Some st
         ∧ (origin_invariant st ↔ (creator_op = None ↔ default [] inps = [])))
  ∧ (∀ payload can_trace note,
       let '(h', a) := StateOps.init h payload None None can_trace note in
       ∃ st, h' !! a = Some st ∧ origin_invariant st).
Proof.
  intros Hin Hfw Hins Hinv. split; [|split].
  - intros a st. destruct r as [ret|e].
    + rewrite (apply_heap _ _ _ _ _ _ _ Hin Hfw).
      by apply wire_origin_invariant.
    + destruct (apply_forward_raise_heap op _ _ _ _ _ _ Hin Hfw) as [e' ->].
      apply Hinv.
  - intros payload creator_op inps can_trace note.
    pose proof (init_lookup h payload creator_op inps can_trace note) as Hl.
    simpl in *. destruct Hl as [Hl _]. eexists. split; [exact Hl|].
    by unfold origin_invariant.
  - intros payload can_trace note.
    pose proof (init_lookup h payload None None can_trace note) as Hl.
    simpl in *. destruct Hl as [Hl _]. eexists. split; [exact Hl|].
    by unfold origin_invariant.
Qed.

Lemma C3_origin_invariant_amended_witness :
  ∃ st, (OpFunction.apply Scenario.Op1 (Scenario.forward_new "B") [VState 0]
           Scenario.store_A).1 !! 1 = Some st
    ∧ origin_invariant st.
Proof.
  eexists. split; [reflexivity|].
  refine (proj1 (C3_origin_invariant_amended Scenario.Op1
                   (Scenario.forward_new "B") [VState 0] [0] Scenario.store_A
                   _ _ eq_refl eq_refl _ _) 1 _ eq_refl).
  - discriminate.
  - intros [|[|a]] st; simpl; intros [= <-]; by unfold origin_invariant.
Defined.

(** * is_origin and get_source *)

(** On a node that [apply] has not stamped, the method is found. *)
Lemma is_origin_fresh (st : State.t) :
  State.is_origin_attr st = None →
  StateOps.is_origin st = Ok (bool_decide (State.creator_op st = None))
  ∧ ∃ s, StateOps.get_source st = Ok s.
Proof.
  intros Hattr. unfold StateOps.get_source, StateOps.is_origin. rewrite Hattr.
  split; [done|]. case_bool_decide as Hc; [by eexists|].
  destruct (State.creator_op st); [by eexists|done].
Qed.

(** On a node that [apply] has stamped, [is_origin] is the [bool] that
    [output.is_origin = False] has stored, and calling it raises. *)
Lemma is_origin_stamped (op : Op.t) (ins : list addr) (a : addr) (h : heap)
    (st : State.t) :
  h !! a = Some st → State.creator_op st = None →
  ∃ st', OpFunction.stamp op ins a h !! a = Some st'
    ∧ StateOps.is_origin st' = Raise (Exn TypeError "'bool' object is not callable")
    ∧ StateOps.get_source st' = Raise (Exn TypeError "'bool' object is not callable").
Proof.
  intros Hst Hc. eexists. split; [by apply stamp_absent|]. done.
Qed.

(** C4 fails on the code. [B = Op1(A)] by way of [apply]: [B] has its
    producing operation, and both [B.is_origin()] and [B.get_source()]
    raise [TypeError], where the claim has them return [False] and a
    description. *)
Theorem C4_is_origin_after_apply :
  ∃ st, (OpFunction.apply Scenario.Op1 (Scenario.forward_new "B") [VState 0]
           Scenario.store_A).1 !! 1 = Some st
    ∧ State.creator_op st = Some Scenario.Op1
    ∧ StateOps.is_origin st = Raise (Exn TypeError "'bool' object is not callable")
    ∧ StateOps.get_source st = Raise (Exn TypeError "'bool' object is not callable").
Proof. eexists. by repeat split. Qed.

(** * Failures *)

(** C5, as the claim states it, fails: [forward] builds a node [B] and
    returns [[B, "text"]]; the call raises [TypeError], and [B], which had
    no producing operation when [forward] returned, has been stamped. *)
Lemma C5_no_partial_wiring_counterexample :
  let call := OpFunction.apply Scenario.Op1 (Scenario.forward_mixed "B")
                [VState 0] Scenario.store_A in
  let h1 := (Scenario.forward_mixed "B" [0] Scenario.store_A).1 in
  is_raise call.2 = true
  ∧ (State.creator_op <$> h1 !! 1) = Some None
  ∧ (State.creator_op <$> call.1 !! 1) = Some (Some Scenario.Op1)
  ∧ (State.inputs <$> call.1 !! 1) = Some [0].
Proof. by repeat split. Qed.

(** C5, amended. When the first produced value that is not a node comes
    after the nodes [pre], the call raises [TypeError]; with a logbook,
    one record with status [failed] is appended and nothing else, so no
    record is completed and no node is added; the store is the one that
    the stamping of [pre] has left, so every node outside [pre] (those
    produced after the offending value among them) is as [forward] left
    it. *)
Theorem C5_no_partial_wiring_amended
    (op : Op.t) (forward : forward_fn) (states : list addr)
    (lb : Logbook.t) (h h1 : heap) (ret : forward_ret)
    (pre : list addr) (ty : string) (post : list value) :
  forward states h = (h1, Ok ret) →
  outputs_of ret = (VState <$> pre) ++ VOther ty :: post →
  let e := Exn TypeError
             ("Op " +:+ Op.name op +:+ " output must be State, got " +:+ ty) in
  let h2 := stamp_all op states pre h1 in
  OpFunction.apply op forward (VState <$> states) h = (h2, Raise e)
  ∧ Op_call op forward states None h = (h2, None, Raise e)
  ∧ Op_call op forward states (Some lb) h =
      (h2,
       Some (Logbook.mk (Logbook.name lb)
               (Logbook.op_records lb ++
                  [OpRecord.mk (Op.name op) states None failed (Some (str e))])
               (Logbook.bubbles lb) (Logbook.verbose lb)),
       Raise e)
  ∧ (∀ a, a ∉ pre → h2 !! a = h1 !! a).
Proof.
  intros Hfw Houts e h2.
  assert (OpFunction.apply op forward (VState <$> states) h = (h2, Raise e))
    as Happly.
  { rewrite (apply_forward_returns _ _ _ _ _ _ _ (check_inputs_states _) Hfw).
    by rewrite Houts, wire_stops. }
  split; [done|]. unfold Op_call. rewrite Happly. split; [done|].
  split; [done|]. intros a Ha. by apply stamp_all_other.
Qed.

Lemma C5_no_partial_wiring_amended_witness :
  let e := Exn TypeError "Op Op1 output must be State, got <class 'str'>" in
  (Op_call Scenario.Op1 (Scenario.forward_mixed "B") [0]
     (Some Scenario.empty_logbook) Scenario.store_A).2 = Raise e
  ∧ (Op_call Scenario.Op1 (Scenario.forward_mixed "B") [0]
       (Some Scenario.empty_logbook) Scenario.store_A).1.2 =
    Some (Logbook.mk "default"
            [OpRecord.mk "Op1" [0] None failed (Some (str e))] [] false).
Proof.
  destruct (C5_no_partial_wiring_amended Scenario.Op1
              (Scenario.forward_mixed "B") [0] Scenario.empty_logbook
              Scenario.store_A _ _ [1] "<class 'str'>" [] eq_refl eq_refl)
    as (_ & _ & Hcall & _).
  rewrite Hcall. split; reflexivity.
Defined.

(** C6, as the claim states it, fails: [record] called with a node and an
    error string does not raise; it appends a [completed] record and the
    node, and the error string is dropped.  And with [op_name] given but
    no [inputs] it raises even when exactly one of the two is supplied. *)
Lemma C6_record_contract_counterexample :
  Logbook.record Scenario.empty_logbook (Some 0) (Some "Op1") (Some [])
                 (Some "bad input")
  = Ok (Logbook.mk "default" [OpRecord.mk "Op1" [] (Some 0) completed None]
                   [0] false)
  ∧ is_raise (Logbook.record Scenario.empty_logbook (Some 0) (Some "Op1") None
                None) = true.
Proof. by split. Qed.

(** C6, amended. With [op_name] and [inputs] given: a node, whether or not
    an error string comes with it, has a [completed] record appended and the
    node added to the node list, the error string being ignored; an error
    string alone has a [failed] record appended; neither raises
    [ValueError].  With [op_name] given and [inputs] absent the call
    raises [ValueError] whatever else is supplied. *)
Theorem C6_record_contract_amended
    (self : Logbook.t) (op_name : string) (inputs : list addr)
    (bubble : addr) (error : string) (any_bubble : option addr)
    (any_error : option string) :
  Logbook.record self (Some bubble) (Some op_name) (Some inputs) any_error =
    Ok (Logbook.mk (Logbook.name self)
          (Logbook.op_records self ++
             [OpRecord.mk op_name inputs (Some bubble) completed None])
          (Logbook.bubbles self ++ [bubble]) (Logbook.verbose self))
  ∧ Logbook.record self None (Some op_name) (Some inputs) (Some error) =
    Ok (Logbook.mk (Logbook.name self)
          (Logbook.op_records self ++
             [OpRecord.mk op_name inputs None failed (Some error)])
          (Logbook.bubbles self) (Logbook.verbose self))
  ∧ Logbook.record self None (Some op_name) (Some inputs) None =
    Raise (Exn ValueError
             "Either bubble or error must be provided for Op execution")
  ∧ Logbook.record self any_bubble (Some op_name) None any_error =
    Raise (Exn ValueError "inputs is required when op_name is provided").
Proof. by repeat split. Qed.

Lemma string_app_empty_r (s : string) : s +:+ "" = s.
Proof.
  induction s as [|c s IH]; [done|].
  change (String c (s +:+ "") = String c s). by rewrite IH.
Qed.

Lemma string_app_assoc (s1 s2 s3 : string) :
  (s1 +:+ s2) +:+ s3 = s1 +:+ s2 +:+ s3.
Proof.
  induction s1 as [|c s1 IH]; [done|].
  change (String c ((s1 +:+ s2) +:+ s3) = String c (s1 +:+ s2 +:+ s3)).
  by rewrite IH.
Qed.

(** C7, as the claim states it, fails: the handlers are [except Exception],
    and an exception that is not an [Exception] is not caught.  When
    [forward] raises [KeyboardInterrupt], [apply] raises that very
    exception, with no [RuntimeError] around it and no cause, and
    [Op.__call__] with a logbook appends no record. *)
Lemma C7_forward_failure_counterexample :
  let e := Exn KeyboardInterrupt "" in
  let forward : forward_fn := λ _ h, (h, Raise e) in
  forward [0] Scenario.store_A = (Scenario.store_A, Raise e)
  ∧ OpFunction.apply Scenario.Op3 forward [VState 0] Scenario.store_A
    = (Scenario.store_A, Raise e)
  ∧ exn_cls e ≠ RuntimeError
  ∧ exn_cause e = None
  ∧ Op_call Scenario.Op3 forward [0] (Some Scenario.empty_logbook)
            Scenario.store_A
    = (Scenario.store_A, Some Scenario.empty_logbook, Raise e)
  ∧ Logbook.op_records Scenario.empty_logbook = [].
Proof. by repeat split. Qed.

(** C7, amended. When [forward] raises [e] and [e] is an [Exception],
    [apply] raises a [RuntimeError] whose cause is [e] and whose message
    ends with the message of [e]; [Op.__call__] lets that exception
    through, and with a logbook it appends exactly one record, with status
    [failed] and an error text that contains the message of [e], and
    leaves the node list as it was.  When [e] is not an [Exception], it
    leaves [apply] and [Op.__call__] as it is and the logbook is not
    touched. *)
Theorem C7_forward_failure_amended
    (op : Op.t) (forward : forward_fn) (states : list addr)
    (lb : Logbook.t) (h h1 : heap) (e : exn) :
  forward states h = (h1, Raise e) →
  let wrapped := ExnFrom RuntimeError
                   ("Op " +:+ Op.name op +:+ " failed: " +:+ str e) e in
  if is_exception e then
    OpFunction.apply op forward (VState <$> states) h = (h1, Raise wrapped)
    ∧ exn_cause wrapped = Some e
    ∧ Op_call op forward states None h = (h1, None, Raise wrapped)
    ∧ ∃ r, Op_call op forward states (Some lb) h =
             (h1,
              Some (Logbook.mk (Logbook.name lb) (Logbook.op_records lb ++ [r])
                      (Logbook.bubbles lb) (Logbook.verbose lb)),
              Raise wrapped)
         ∧ OpRecord.status r = failed
         ∧ OpRecord.output r = None
         ∧ ∃ text, OpRecord.error r = Some text ∧ contains text (str e)
  else
    OpFunction.apply op forward (VState <$> states) h = (h1, Raise e)
    ∧ Op_call op forward states None h = (h1, None, Raise e)
    ∧ Op_call op forward states (Some lb) h = (h1, Some lb, Raise e).
Proof.
  intros Hfw wrapped. destruct (is_exception e) eqn:He.
  - assert (OpFunction.apply op forward (VState <$> states) h
            = (h1, Raise wrapped)) as Happly.
    { by rewrite (apply_forward_raises _ _ _ _ _ _ _
                    (check_inputs_states _) Hfw He). }
    split; [done|]. split; [done|]. unfold Op_call. rewrite Happly.
    split; [done|]. eexists. split; [reflexivity|]. simpl.
    split; [done|]. split; [done|]. eexists. split; [done|].
    exists ("Op " +:+ Op.name op +:+ " failed: "), "".
    by rewrite string_app_empty_r, !string_app_assoc.
  - assert (OpFunction.apply op forward (VState <$> states) h
            = (h1, Raise e)) as Happly.
    { by rewrite (apply_forward_passes _ _ _ _ _ _ _
                    (check_inputs_states _) Hfw He). }
    split; [done|]. unfold Op_call. rewrite Happly, He. by split.
Qed.

Lemma C7_forward_failure_amended_witness :
  ∃ r, (Op_call Scenario.Op3 (Scenario.forward_raise "bad input") [0]
          (Some Scenario.empty_logbook) Scenario.store_A).1.2 =
         Some (Logbook.mk "default" [r] [] false)
    ∧ OpRecord.status r = failed
    ∧ ∃ text, OpRecord.error r = Some text ∧ contains text "bad input".
Proof.
  destruct (C7_forward_failure_amended Scenario.Op3
              (Scenario.forward_raise "bad input")
              [0] Scenario.empty_logbook Scenario.store_A Scenario.store_A
              (Exn ValueError "bad input") eq_refl)
    as (_ & _ & _ & r & Hcall & Hstatus & _ & Herror).
  exists r. rewrite Hcall. split; [reflexivity|]. split; [exact Hstatus|].
  exact Herror.
Defined.

(** * The walk over the input pointers: State.backward *)

Lemma closed_heap_inputs (h : heap) (a : addr) (st : State.t) :
  closed_heap h → h !! a = Some st →
  ∀ b, b ∈ State.inputs st → b < length h.
Proof.
  intros Hclosed Hst. apply Forall_forall.
  by apply (Forall_lookup_1 _ _ _ _ Hclosed Hst).
Qed.

Lemma closed_ledger_inputs (h : heap) (op_records : list OpRecord.t)
    (r : OpRecord.t) :
  closed_ledger h op_records → r ∈ op_records →
  ∀ b, b ∈ OpRecord.inputs r → b < length h.
Proof.
  intros Hclosed Hr. apply Forall_forall.
  revert r Hr. by apply Forall_forall.
Qed.

Section backward.
Import StateOps.

Variables (h : heap) (max_depth : option Z).

Lemma build_tree_unfold (fuel : nat) (state : addr) (depth : nat)
    (visited : gset addr) :
  build_tree_lines (S fuel) h max_depth state depth visited =
    if bool_decide (state ∈ visited) || too_deep max_depth depth
    then Some ([Marker depth state], visited)
    else
      st ← h !! state;
      '(below, visited) ←
        each_lines (λ inp, build_tree_lines fuel h max_depth inp (S depth))
             (State.inputs st) ({[state]} ∪ visited);
      Some (Bubble depth state st :: below, visited).
Proof. done. Qed.

Lemma each_cons (child : addr → gset addr → option (list line * gset addr))
    (inp : addr) (rest : list addr) (visited v1 v2 : gset addr)
    (ls more : list line) :
  child inp visited = Some (ls, v1) →
  each_lines child rest v1 = Some (more, v2) →
  each_lines child (inp :: rest) visited = Some (ls ++ more, v2).
Proof. intros H1 H2. simpl. rewrite H1. simpl. by rewrite H2. Qed.

Lemma each_cons_inv
    (child : addr → gset addr → option (list line * gset addr))
    (inp : addr) (rest : list addr) (visited v2 : gset addr)
    (out : list line) :
  each_lines child (inp :: rest) visited = Some (out, v2) →
  ∃ ls v1 more, child inp visited = Some (ls, v1)
    ∧ each_lines child rest v1 = Some (more, v2) ∧ out = ls ++ more.
Proof.
  simpl. destruct (child inp visited) as [[ls v1]|] eqn:Hc; [|done]. simpl.
  destruct (each_lines child rest v1) as [[more v2']|] eqn:Hr; [|done]. simpl.
  intros [= <- <-]. by exists ls, v1, more.
Qed.

(** What a call that renders its node has done. *)
Lemma build_tree_inv (fuel : nat) (state : addr) (depth : nat)
    (visited v' : gset addr) (out : list line) :
  build_tree_lines fuel h max_depth state depth visited = Some (out, v') →
  (out = [Marker depth state] ∧ v' = visited
   ∧ (state ∈ visited ∨ (too_deep max_depth depth = true)))
  ∨ ∃ fuel' st below,
      fuel = S fuel' ∧ (state ∉ visited) ∧ too_deep max_depth depth = false
      ∧ h !! state = Some st
      ∧ each_lines (λ inp, build_tree_lines fuel' h max_depth inp (S depth))
             (State.inputs st) ({[state]} ∪ visited) = Some (below, v')
      ∧ out = Bubble depth state st :: below.
Proof.
  destruct fuel as [|fuel']; [done|]. rewrite build_tree_unfold.
  destruct (bool_decide (state ∈ visited)) eqn:Hvis;
    [|destruct (too_deep max_depth depth) eqn:Hdeep]; simpl.
  - intros [= <- <-]. left. apply bool_decide_eq_true in Hvis. tauto.
  - intros [= <- <-]. left. tauto.
  - destruct (h !! state) as [st|] eqn:Hst; [|done]. simpl.
    destruct (each_lines _ _ _) as [[below v2]|] eqn:Heach; [|done]. simpl.
    intros [= <- <-]. right. exists fuel', st, below.
    apply bool_decide_eq_false in Hvis. by repeat split.
Qed.

(** The set only grows. *)
Lemma build_tree_mono (fuel : nat) :
  ∀ (state : addr) (depth : nat) (visited v' : gset addr) (out : list line),
    build_tree_lines fuel h max_depth state depth visited = Some (out, v') →
    visited ⊆ v'.
Proof.
  induction fuel as [|fuel IH]; intros state depth visited v' out Hrun;
    [done|].
  apply build_tree_inv in Hrun
    as [(_ & -> & _)|(fuel' & st & below & [= <-] & _ & _ & _ & Heach & _)];
    [done|].
  assert (∀ inps v v2 ls,
            each_lines (λ inp, build_tree_lines fuel h max_depth inp (S depth)) inps v
              = Some (ls, v2) → v ⊆ v2) as Hloop.
  { induction inps as [|inp rest IHl]; intros v v2 ls Hl.
    - by injection Hl as _ <-.
    - apply each_cons_inv in Hl as (ls1 & v1 & more & Hc & Hr & _).
      apply IH in Hc. apply IHl in Hr. set_solver. }
  apply Hloop in Heach. set_solver.
Qed.

Lemma size_unvisited_insert (a : addr) (visited : gset addr) :
  a < length h → a ∉ visited →
  size (addresses h ∖ ({[a]} ∪ visited)) < size (addresses h ∖ visited).
Proof.
  intros Ha Hnot. apply subset_size. apply strict_spec_alt. split.
  - intros x [Hx Hn]%elem_of_difference. apply elem_of_difference.
    split; [done|]. intros Hv. apply Hn, elem_of_union. by right.
  - intros Heq. assert (a ∈ addresses h ∖ visited) as Hin.
    { apply elem_of_difference. split; [|done].
      apply elem_of_set_seq. lia. }
    rewrite <- Heq in Hin. apply elem_of_difference in Hin as [_ Hn].
    apply Hn, elem_of_union. left. by apply elem_of_singleton.
Qed.

Lemma size_unvisited_mono (v v' : gset addr) :
  v ⊆ v' → (size (addresses h ∖ v') ≤ size (addresses h ∖ v))%nat.
Proof.
  intros Hsub. apply subseteq_size.
  intros x [Hx Hn]%elem_of_difference. apply elem_of_difference.
  split; [done|]. intros Hv. by apply Hn, Hsub.
Qed.

(** Termination: with more fuel than there are unvisited addresses, the
    walk returns. *)
Lemma build_tree_total (fuel : nat) :
  closed_heap h →
  ∀ (state : addr) (depth : nat) (visited : gset addr),
    state < length h →
    size (addresses h ∖ visited) < fuel →
    is_Some (build_tree_lines fuel h max_depth state depth visited).
Proof.
  intros Hclosed. induction fuel as [|fuel IH];
    intros state depth visited Hstate Hfuel; [lia|].
  rewrite build_tree_unfold.
  destruct (bool_decide (state ∈ visited)) eqn:Hvis; [done|].
  destruct (too_deep max_depth depth); [done|]. simpl.
  apply bool_decide_eq_false in Hvis.
  destruct (lookup_lt_is_Some_2 h state Hstate) as [st Hst].
  rewrite Hst. simpl.
  pose proof (size_unvisited_insert state visited Hstate Hvis) as Hless.
  assert (∀ inps v,
            (∀ b, b ∈ inps → b < length h) →
            size (addresses h ∖ v) < fuel →
            is_Some (each_lines (λ inp, build_tree_lines fuel h max_depth inp (S depth))
                          inps v)) as Hloop.
  { induction inps as [|inp rest IHl]; intros v Hin Hv; [done|].
    destruct (IH inp (S depth) v) as [[ls v1] Hc]; [set_solver|done|].
    destruct (IHl v1) as [[more v2] Hr]; [set_solver| |].
    { apply build_tree_mono in Hc.
      pose proof (size_unvisited_mono v v1 Hc). lia. }
    by rewrite (each_cons (λ inp, build_tree_lines fuel h max_depth inp (S depth))
                 _ _ _ _ _ _ _ Hc Hr). }
  destruct (Hloop (State.inputs st) ({[state]} ∪ visited))
    as [[below v2] Heach]; [by eapply closed_heap_inputs|lia|].
  by rewrite Heach.
Qed.
End backward.

Section backward_markers.
Import StateOps.

Variables (h : heap) (max_depth : option Z).

(** From a node that is not yet visited, a way to a visited node or to
    a cycle goes through one of its inputs; the node itself counts as
    visited from then on. *)
Lemma way_through_input (R : relation addr) (a c : addr)
    (visited : gset addr) :
  a ∉ visited →
  rtc R a c → c ∈ visited ∨ tc R c c →
  ∃ b c', R a b ∧ rtc R b c' ∧ (c' ∈ {[a]} ∪ visited ∨ tc R c' c').
Proof.
  intros Hnot Hway Hc. apply rtc_inv in Hway as [<-|(b & Hab & Hbc)].
  - destruct Hc as [?|Hcyc]; [done|].
    inversion Hcyc as [? ? Haa|? b ? Hab Hba]; subst.
    + exists a, a. split; [done|]. split; [done|]. left. set_solver.
    + exists b, a. split; [done|]. split; [by apply tc_rtc|]. left.
      set_solver.
  - exists b, c. split; [done|]. split; [done|].
    destruct Hc as [?|?]; [left; set_solver|by right].
Qed.

(** A walk that can reach a visited node or a cycle emits a marker. *)
Lemma build_tree_marker (fuel : nat) :
  ∀ (state : addr) (depth : nat) (visited v' : gset addr) (out : list line),
    build_tree_lines fuel h max_depth state depth visited = Some (out, v') →
    (∃ c, rtc (input_edge h) state c
          ∧ (c ∈ visited ∨ tc (input_edge h) c c)) →
    ∃ l, l ∈ out ∧ is_marker l = true.
Proof.
  induction fuel as [|fuel IH];
    intros state depth visited v' out Hrun (c & Hway & Hc); [done|].
  apply build_tree_inv in Hrun
    as [(-> & _ & _)
       |(fuel' & st & below & [= <-] & Hnot & _ & Hst & Heach & ->)].
  { eexists. split; [apply list_elem_of_here|done]. }
  destruct (way_through_input _ _ _ _ Hnot Hway Hc)
    as (b & c' & (st' & Hst' & Hb) & Hway' & Hc').
  rewrite Hst in Hst'. injection Hst' as <-.
  assert (∀ inps v v2 ls,
            each_lines (λ inp, build_tree_lines fuel h max_depth inp (S depth)) inps v
              = Some (ls, v2) →
            b ∈ inps → c' ∈ v ∨ tc (input_edge h) c' c' →
            ∃ l, l ∈ ls ∧ is_marker l = true) as Hloop.
  { induction inps as [|inp rest IHl]; intros v v2 ls Hl Hin Hv.
    - by apply elem_of_nil in Hin.
    - apply each_cons_inv in Hl as (ls1 & v1 & more & Hchild & Hr & ->).
      apply elem_of_cons in Hin as [<-|Hin].
      + destruct (IH _ _ _ _ _ Hchild) as (l & Hl & Hm); [by exists c'|].
        exists l. split; [|done]. apply elem_of_app. by left.
      + destruct (IHl v1 v2 more Hr Hin) as (l & Hl & Hm).
        { apply build_tree_mono in Hchild.
          destruct Hv as [?|?]; [left; by apply Hchild|by right]. }
        exists l. split; [|done]. apply elem_of_app. by right. }
  destruct (Hloop _ _ _ _ Heach Hb Hc') as (l & Hl & Hm).
  exists l. split; [|done]. by apply list_elem_of_further.
Qed.

(** The depth of the lines: a rendered node is never deeper than the
    limit, and a marker at most one level below it. *)
Lemma build_tree_depth_bound (k : Z) (fuel : nat) :
  ∀ (state : addr) (depth : nat) (visited v' : gset addr) (out : list line),
    build_tree_lines fuel h (Some k) state depth visited = Some (out, v') →
    (Z.of_nat depth ≤ k + 1)%Z →
    ∀ l, l ∈ out →
         (Z.of_nat (line_depth l) ≤ k + 1)%Z
         ∧ (is_marker l = false → (Z.of_nat (line_depth l) ≤ k)%Z).
Proof.
  induction fuel as [|fuel IH];
    intros state depth visited v' out Hrun Hdepth l Hl; [done|].
  apply build_tree_inv in Hrun
    as [(-> & _ & _)
       |(fuel' & st & below & [= <-] & _ & Hdeep & _ & Heach & ->)].
  { apply list_elem_of_singleton in Hl as ->. by split. }
  simpl in Hdeep. apply bool_decide_eq_false in Hdeep.
  apply elem_of_cons in Hl as [->|Hl]; [simpl; split; lia|].
  assert (∀ inps v v2 ls,
            each_lines (λ inp, build_tree_lines fuel h (Some k) inp (S depth)) inps v
              = Some (ls, v2) →
            l ∈ ls →
            (Z.of_nat (line_depth l) ≤ k + 1)%Z
            ∧ (is_marker l = false → (Z.of_nat (line_depth l) ≤ k)%Z))
    as Hloop.
  { induction inps as [|inp rest IHl]; intros v v2 ls Hrun Hin.
    - injection Hrun as <- _. by apply elem_of_nil in Hin.
    - apply each_cons_inv in Hrun as (ls1 & v1 & more & Hchild & Hr & ->).
      apply elem_of_app in Hin as [Hin|Hin].
      + eapply IH; [exact Hchild|lia|done].
      + by eapply IHl. }
  by eapply Hloop.
Qed.

(** The first line of a walk is about the node it was called on. *)
Lemma build_tree_head (fuel : nat) (state : addr) (depth : nat)
    (visited v' : gset addr) (out : list line) :
  build_tree_lines fuel h max_depth state depth visited = Some (out, v') →
  ∃ l rest, out = l :: rest ∧ line_depth l = depth
    ∧ (is_marker l = true → l = Marker depth state)
    ∧ (too_deep max_depth depth = true → is_marker l = true).
Proof.
  intros Hrun. apply build_tree_inv in Hrun
    as [(-> & _ & _)|(fuel' & st & below & _ & _ & Hdeep & _ & _ & ->)].
  - by eexists _, _.
  - eexists _, _. split; [done|]. split; [done|]. rewrite Hdeep. by split.
Qed.

(** Every input of a rendered node has a line one level below. *)
Lemma build_tree_inputs (fuel : nat) :
  ∀ (state : addr) (depth : nat) (visited v' : gset addr) (out : list line),
    build_tree_lines fuel h max_depth state depth visited = Some (out, v') →
    ∀ d a st b, Bubble d a st ∈ out → b ∈ State.inputs st →
      ∃ l, l ∈ out ∧ line_depth l = S d
        ∧ (too_deep max_depth (S d) = true → l = Marker (S d) b).
Proof.
  induction fuel as [|fuel IH];
    intros state depth visited v' out Hrun d a st b Hl Hb; [done|].
  apply build_tree_inv in Hrun
    as [(-> & _ & _)
       |(fuel' & st0 & below & [= <-] & _ & _ & _ & Heach & ->)].
  { by apply list_elem_of_singleton in Hl. }
  assert (∀ inps v v2 ls,
            each_lines (λ inp, build_tree_lines fuel h max_depth inp (S depth)) inps v
              = Some (ls, v2) →
            (∀ b, b ∈ inps →
               ∃ l, l ∈ ls ∧ line_depth l = S depth
                 ∧ (too_deep max_depth (S depth) = true →
                    l = Marker (S depth) b))
            ∧ (Bubble d a st ∈ ls →
               ∃ l, l ∈ ls ∧ line_depth l = S d
                 ∧ (too_deep max_depth (S d) = true → l = Marker (S d) b)))
    as Hloop.
  { induction inps as [|inp rest IHl]; intros v v2 ls Hrun.
    - injection Hrun as <- _. split; [intros ? Hnil|intros Hnil];
        by apply elem_of_nil in Hnil.
    - apply each_cons_inv in Hrun as (ls1 & v1 & more & Hchild & Hr & ->).
      destruct (IHl _ _ _ Hr) as [Hfirst Hdeeper]. split.
      + intros b' [<-|Hin]%elem_of_cons.
        * destruct (build_tree_head _ _ _ _ _ _ Hchild)
            as (l & tl & -> & Hd & Hm & Hdeep).
          exists l. split; [apply list_elem_of_here|]. split; [done|].
          intros Htoo. by apply Hm, Hdeep.
        * destruct (Hfirst b' Hin) as (l & Hl' & ?).
          exists l. split; [|done]. apply elem_of_app. by right.
      + intros [Hin|Hin]%elem_of_app.
        * destruct (IH _ _ _ _ _ Hchild d a st b Hin Hb) as (l & Hl' & ?).
          exists l. split; [|done]. apply elem_of_app. by left.
        * destruct (Hdeeper Hin) as (l & Hl' & ?).
          exists l. split; [|done]. apply elem_of_app. by right. }
  destruct (Hloop _ _ _ _ Heach) as [Hfirst Hdeeper].
  apply elem_of_cons in Hl as [[= <- <- <-]|Hl].
  - destruct (Hfirst b Hb) as (l & Hl' & ?).
    exists l. split; [|done]. by apply list_elem_of_further.
  - destruct (Hdeeper Hl) as (l & Hl' & ?).
    exists l. split; [|done]. by apply list_elem_of_further.
Qed.
End backward_markers.

(** * The walk over the records: Logbook.display *)

Section display.
Import Logbook.

Variables (h : heap) (op_records : list OpRecord.t) (count : option Z).

Lemma trace_tree_unfold (fuel : nat) (bubble : addr) (depth : nat)
    (visited : gset addr) (prefix : string) :
  trace_tree_lines (S fuel) h op_records count bubble depth visited prefix =
    match limit_reached count depth with
    | Some c => Some [mk_line "" depth (DepthLimit c)]
    | None =>
        st ← h !! bubble;
        if bool_decide (bubble ∈ visited)
        then Some [mk_line "" depth (Cycle bubble (State.note st))]
        else
          match producing_record op_records bubble with
          | Some r =>
              below ←
                children_lines
                  (λ inp, trace_tree_lines fuel h op_records count inp (S depth)
                                     ({[bubble]} ∪ visited))
                  prefix (length (OpRecord.inputs r)) 0 (OpRecord.inputs r);
              Some (mk_line "" depth
                      (Produced (OpRecord.op_name r) bubble (State.note st))
                    :: below)
          | None => Some [mk_line "" depth (Origin bubble (State.note st))]
          end
    end.
Proof. done. Qed.

Lemma children_cons_inv (child : addr → string → option (list line))
    (prefix : string) (n i : nat) (inp : addr) (rest : list addr)
    (out : list line) :
  children_lines child prefix n i (inp :: rest) = Some out →
  ∃ child_prefix drawing child_result more,
    child inp child_prefix = Some child_result
    ∧ children_lines child prefix n (S i) rest = Some more
    ∧ out = attach drawing child_result ++ more.
Proof.
  simpl. destruct (child inp _) as [child_result|] eqn:Hc; [|done]. simpl.
  destruct (children_lines child prefix n (S i) rest) as [more|] eqn:Hr; [|done].
  simpl. intros [= <-]. by eexists _, _, _, _.
Qed.

(** The drawing in front of a line changes neither what it shows nor
    its depth. *)
Lemma attach_elem_of (drawing : string) (ls : list line) (l : line) :
  l ∈ ls →
  ∃ l', l' ∈ attach drawing ls ∧ what l' = what l ∧ depth l' = depth l.
Proof.
  destruct ls as [|l0 rest]; [by intros ?%elem_of_nil|].
  intros [->|Hin]%elem_of_cons.
  - eexists. split; [apply list_elem_of_here|done].
  - exists l. split; [by apply list_elem_of_further|done].
Qed.

Lemma elem_of_attach (drawing : string) (ls : list line) (l' : line) :
  l' ∈ attach drawing ls →
  ∃ l, l ∈ ls ∧ what l' = what l ∧ depth l' = depth l.
Proof.
  destruct ls as [|l0 rest]; [by intros ?%elem_of_nil|].
  intros [->|Hin]%elem_of_cons.
  - exists l0. split; [apply list_elem_of_here|done].
  - exists l'. split; [by apply list_elem_of_further|done].
Qed.

(** The cases of a call that returns. *)
Lemma trace_tree_inv (fuel : nat) (bubble : addr) (depth : nat)
    (visited : gset addr) (prefix : string) (out : list line) :
  trace_tree_lines fuel h op_records count bubble depth visited prefix = Some out →
  (∃ c, limit_reached count depth = Some c
        ∧ out = [mk_line "" depth (DepthLimit c)])
  ∨ (limit_reached count depth = None
     ∧ ∃ st, h !! bubble = Some st
       ∧ ((bubble ∈ visited
           ∧ out = [mk_line "" depth (Cycle bubble (State.note st))])
          ∨ ((bubble ∉ visited)
             ∧ producing_record op_records bubble = None
             ∧ out = [mk_line "" depth (Origin bubble (State.note st))])
          ∨ ((bubble ∉ visited)
             ∧ ∃ fuel' r below,
                 fuel = S fuel'
                 ∧ producing_record op_records bubble = Some r
                 ∧ children_lines
                     (λ inp, trace_tree_lines fuel' h op_records count inp
                                        (S depth) ({[bubble]} ∪ visited))
                     prefix (length (OpRecord.inputs r)) 0
                     (OpRecord.inputs r) = Some below
                 ∧ out = mk_line "" depth
                           (Produced (OpRecord.op_name r) bubble
                                     (State.note st)) :: below))).
Proof.
  destruct fuel as [|fuel']; [done|]. rewrite trace_tree_unfold.
  destruct (limit_reached count depth) as [c|] eqn:Hlimit.
  { intros [= <-]. left. by exists c. }
  destruct (h !! bubble) as [st|] eqn:Hst; [|done]. simpl.
  intros Hrun. right. split; [done|]. exists st. split; [done|].
  case_bool_decide as Hvis.
  { injection Hrun as <-. by left. }
  right. destruct (producing_record op_records bubble) as [r|] eqn:Hrec.
  - right. split; [done|].
    destruct (children_lines _ _ _ _ _) as [below|] eqn:Hbelow; [|done].
    injection Hrun as <-. by exists fuel', r, below.
  - left. by injection Hrun as <-.
Qed.

Lemma producing_record_elem_of (bubble : addr) (r : OpRecord.t) :
  producing_record op_records bubble = Some r →
  r ∈ op_records ∧ OpRecord.output r = Some bubble.
Proof.
  intros Hfind. apply find_some in Hfind as [Hin Hout].
  split; [by apply list_elem_of_In|]. by apply bool_decide_eq_true in Hout.
Qed.

(** Termination: with more fuel than there are addresses outside
    [visited], the walk returns. *)
Lemma trace_tree_total (fuel : nat) :
  closed_ledger h op_records →
  ∀ (bubble : addr) (depth : nat) (visited : gset addr) (prefix : string),
    bubble < length h →
    size (addresses h ∖ visited) < fuel →
    is_Some (trace_tree_lines fuel h op_records count bubble depth visited prefix).
Proof.
  intros Hclosed. induction fuel as [|fuel IH];
    intros bubble depth visited prefix Hbubble Hfuel; [lia|].
  rewrite trace_tree_unfold.
  destruct (limit_reached count depth); [done|].
  destruct (lookup_lt_is_Some_2 h bubble Hbubble) as [st Hst].
  rewrite Hst. simpl. case_bool_decide as Hvis; [done|].
  destruct (producing_record op_records bubble) as [r|] eqn:Hrec; [|done].
  apply producing_record_elem_of in Hrec as [Hr _].
  pose proof (size_unvisited_insert h bubble visited Hbubble Hvis) as Hless.
  assert (∀ inps n i,
            (∀ b, b ∈ inps → b < length h) →
            is_Some (children_lines
                       (λ inp, trace_tree_lines fuel h op_records count inp
                                          (S depth) ({[bubble]} ∪ visited))
                       prefix n i inps)) as Hloop.
  { induction inps as [|inp rest IHl]; intros n i Hin; [done|]. simpl.
    destruct (IH inp (S depth) ({[bubble]} ∪ visited)
                (prefix +:+ (if bool_decide (i = n - 1) then "    "
                             else "│   ")))
      as [child_result ->]; [set_solver|lia|]. simpl.
    destruct (IHl n (S i)) as [more ->]; [set_solver|]. done. }
  destruct (Hloop (OpRecord.inputs r) (length (OpRecord.inputs r)) 0)
    as [below ->]; [by eapply closed_ledger_inputs|]. done.
Qed.

(** A walk that can reach a node on the current path, or a cycle, emits
    a marker: the cycle marker, unless the depth limit cuts the walk
    first. *)
Lemma trace_tree_marker (fuel : nat) :
  ∀ (bubble : addr) (depth : nat) (visited : gset addr) (prefix : string)
    (out : list line),
    trace_tree_lines fuel h op_records count bubble depth visited prefix = Some out →
    (∃ c, rtc (record_edge op_records) bubble c
          ∧ (c ∈ visited ∨ tc (record_edge op_records) c c)) →
    ∃ l, l ∈ out ∧ (is_cycle_line l = true ∨ is_depth_line l = true).
Proof.
  induction fuel as [|fuel IH];
    intros bubble depth visited prefix out Hrun (c & Hway & Hc); [done|].
  apply trace_tree_inv in Hrun
    as [(k & _ & ->)
       |(_ & st & Hst
         & [(_ & ->)
           |[(Hnot & Hrec & ->)
            |(Hnot & fuel' & r & below & [= <-] & Hrec & Hbelow & ->)]])].
  - eexists. split; [apply list_elem_of_here|by right].
  - eexists. split; [apply list_elem_of_here|by left].
  - destruct (way_through_input _ _ _ _ Hnot Hway Hc)
      as (b & _ & (r & Hr & _) & _). congruence.
  - destruct (way_through_input _ _ _ _ Hnot Hway Hc)
      as (b & c' & (r' & Hr' & Hb) & Hway' & Hc').
    rewrite Hrec in Hr'. injection Hr' as <-.
    assert (∀ inps n i ls,
              children_lines
                (λ inp, trace_tree_lines fuel h op_records count inp (S depth)
                                   ({[bubble]} ∪ visited))
                prefix n i inps = Some ls →
              b ∈ inps →
              ∃ l, l ∈ ls ∧ (is_cycle_line l = true ∨ is_depth_line l = true))
      as Hloop.
    { induction inps as [|inp rest IHl]; intros n i ls Hl Hin.
      - by apply elem_of_nil in Hin.
      - apply children_cons_inv in Hl
          as (cp & drawing & child_result & more & Hchild & Hrest & ->).
        apply elem_of_cons in Hin as [<-|Hin].
        + destruct (IH _ _ _ _ _ Hchild) as (l & Hl & Hm); [by exists c'|].
          destruct (attach_elem_of drawing _ _ Hl) as (l' & Hl' & Hw & _).
          exists l'. split; [apply elem_of_app; by left|].
          unfold is_cycle_line, is_depth_line in *. by rewrite Hw.
        + destruct (IHl _ _ _ Hrest Hin) as (l & Hl & Hm).
          exists l. split; [|done]. apply elem_of_app. by right. }
    destruct (Hloop _ _ _ _ Hbelow Hb) as (l & Hl & Hm).
    exists l. split; [|done]. by apply list_elem_of_further.
Qed.

(** Without an effective limit ([count] is [None] or [0]) no line is a
    depth-limit marker. *)
Lemma trace_tree_no_depth_line (fuel : nat) :
  (∀ d, limit_reached count d = None) →
  ∀ (bubble : addr) (depth : nat) (visited : gset addr) (prefix : string)
    (out : list line),
    trace_tree_lines fuel h op_records count bubble depth visited prefix = Some out →
    ∀ l, l ∈ out → is_depth_line l = false.
Proof.
  intros Hno. induction fuel as [|fuel IH];
    intros bubble depth visited prefix out Hrun l Hl; [done|].
  apply trace_tree_inv in Hrun
    as [(k & Hk & _)
       |(_ & st & Hst
         & [(_ & ->)
           |[(Hnot & Hrec & ->)
            |(Hnot & fuel' & r & below & [= <-] & Hrec & Hbelow & ->)]])].
  - by rewrite Hno in Hk.
  - by apply list_elem_of_singleton in Hl as ->.
  - by apply list_elem_of_singleton in Hl as ->.
  - apply elem_of_cons in Hl as [->|Hl]; [done|].
    revert Hbelow Hl. generalize (length (OpRecord.inputs r)) 0.
    generalize (OpRecord.inputs r). clear Hrec. revert below.
    intros below inps. revert below.
    induction inps as [|inp rest IHl]; intros below n i Hbelow Hl.
    + injection Hbelow as <-. by apply elem_of_nil in Hl.
    + apply children_cons_inv in Hbelow
        as (cp & drawing & child_result & more & Hchild & Hrest & ->).
      apply elem_of_app in Hl as [Hl|Hl].
      * apply elem_of_attach in Hl as (l0 & Hl0 & Hw & _).
        pose proof (IH _ _ _ _ _ Hchild l0 Hl0) as Hd.
        unfold is_depth_line in *. by rewrite Hw.
      * by eapply IHl.
Qed.
End display.

Section display_path.
Import Logbook.

Variables (h : heap) (op_records : list OpRecord.t) (count : option Z).

(** When [visited] holds ancestors of the node on which the walk is
    called, a cycle marker is only ever put on a node that is its own
    ancestor: the copies of [visited] hold the current path and nothing
    else. *)
Lemma trace_tree_cycle_line (fuel : nat) :
  ∀ (bubble : addr) (depth : nat) (visited : gset addr) (prefix : string)
    (out : list line),
    trace_tree_lines fuel h op_records count bubble depth visited prefix = Some out →
    (∀ v, v ∈ visited → tc (record_edge op_records) v bubble) →
    ∀ l a n, l ∈ out → what l = Cycle a n →
             tc (record_edge op_records) a a.
Proof.
  induction fuel as [|fuel IH];
    intros bubble depth visited prefix out Hrun Hpath l a n Hl Hw; [done|].
  apply trace_tree_inv in Hrun
    as [(k & _ & ->)
       |(_ & st & Hst
         & [(Hvis & ->)
           |[(Hnot & Hrec & ->)
            |(Hnot & fuel' & r & below & [= <-] & Hrec & Hbelow & ->)]])].
  - by apply list_elem_of_singleton in Hl as ->.
  - apply list_elem_of_singleton in Hl as ->. injection Hw as <- _.
    by apply Hpath.
  - by apply list_elem_of_singleton in Hl as ->.
  - apply elem_of_cons in Hl as [->|Hl]; [done|].
    assert (∀ inps n0 i ls,
              children_lines
                (λ inp, trace_tree_lines fuel h op_records count inp (S depth)
                                   ({[bubble]} ∪ visited))
                prefix n0 i inps = Some ls →
              (∀ b, b ∈ inps → b ∈ OpRecord.inputs r) →
              l ∈ ls → tc (record_edge op_records) a a) as Hloop.
    { induction inps as [|inp rest IHl]; intros n0 i ls Hrun Hsub Hin.
      - injection Hrun as <-. by apply elem_of_nil in Hin.
      - apply children_cons_inv in Hrun
          as (cp & drawing & child_result & more & Hchild & Hrest & ->).
        apply elem_of_app in Hin as [Hin|Hin].
        + apply elem_of_attach in Hin as (l0 & Hl0 & Hw0 & _).
          eapply (IH _ _ _ _ _ Hchild); [|exact Hl0|by rewrite <- Hw0].
          assert (record_edge op_records bubble inp) as Hedge.
          { exists r. split; [done|]. apply Hsub, list_elem_of_here. }
          intros v [->%elem_of_singleton|Hv]%elem_of_union.
          * by apply tc_once.
          * eapply tc_r; [by apply Hpath|done].
        + eapply IHl; [exact Hrest| |done].
          intros b Hb. by apply Hsub, list_elem_of_further. }
    by eapply Hloop.
Qed.

(** With [count = k] and [k > 0], lines are at depth [k] at most and
    rendered nodes above it. *)
Lemma trace_tree_depth_bound (k : Z) (fuel : nat) :
  count = Some k → (0 < k)%Z →
  ∀ (bubble : addr) (depth0 : nat) (visited : gset addr) (prefix : string)
    (out : list line),
    trace_tree_lines fuel h op_records count bubble depth0 visited prefix = Some out →
    (Z.of_nat depth0 ≤ k)%Z →
    ∀ l, l ∈ out →
         (Z.of_nat (depth l) ≤ k)%Z
         ∧ (is_depth_line l = false → (Z.of_nat (depth l) < k)%Z).
Proof.
  intros -> Hk. induction fuel as [|fuel IH];
    intros bubble depth0 visited prefix out Hrun Hdepth l Hl; [done|].
  assert (limit_reached (Some k) depth0 = None → (Z.of_nat depth0 < k)%Z)
    as Hlimit.
  { unfold limit_reached. case_bool_decide; [|lia].
    case_bool_decide; [done|]. simpl. lia. }
  apply trace_tree_inv in Hrun
    as [(c & _ & ->)
       |(Hnone%Hlimit & st & Hst
         & [(Hvis & ->)
           |[(Hnot & Hrec & ->)
            |(Hnot & fuel' & r & below & [= <-] & Hrec & Hbelow & ->)]])].
  - by apply list_elem_of_singleton in Hl as ->.
  - apply list_elem_of_singleton in Hl as ->. simpl. split; lia.
  - apply list_elem_of_singleton in Hl as ->. simpl. split; lia.
  - apply elem_of_cons in Hl as [->|Hl]; [simpl; split; lia|].
    revert Hbelow Hl. generalize (length (OpRecord.inputs r)) 0.
    generalize (OpRecord.inputs r). clear Hrec. intros inps. revert below.
    induction inps as [|inp rest IHl]; intros below n i Hbelow Hl.
    + injection Hbelow as <-. by apply elem_of_nil in Hl.
    + apply children_cons_inv in Hbelow
        as (cp & drawing & child_result & more & Hchild & Hrest & ->).
      apply elem_of_app in Hl as [Hl|Hl].
      * apply elem_of_attach in Hl as (l0 & Hl0 & Hw & Hd).
        destruct (IH _ _ _ _ _ Hchild ltac:(lia) l0 Hl0) as [H1 H2].
        unfold is_depth_line in *. rewrite Hw, Hd. by split.
      * by eapply IHl.
Qed.
End display_path.

(** * The texts and their lines *)

Lemma join_lines_cons (x : string) (xs : list string) :
  StateOps.join_lines (x :: xs) = x +:+ after_lines xs.
Proof.
  revert x. induction xs as [|y xs IH]; intros x.
  - by rewrite string_app_empty_r.
  - change (x +:+ StateOps.newline +:+ StateOps.join_lines (y :: xs)
            = x +:+ StateOps.newline +:+ y +:+ after_lines xs).
    by rewrite IH.
Qed.

Lemma after_lines_app (xs ys : list string) :
  after_lines (xs ++ ys) = after_lines xs +:+ after_lines ys.
Proof.
  induction xs as [|x xs IH]; [done|].
  change (StateOps.newline +:+ x +:+ after_lines (xs ++ ys)
          = (StateOps.newline +:+ x +:+ after_lines xs) +:+ after_lines ys).
  by rewrite IH, !string_app_assoc.
Qed.

(** A text that is not empty, put after a newline, is its lines after a
    first line. *)
Lemma after_lines_join (xs : list string) :
  xs ≠ [] →
  StateOps.newline +:+ StateOps.join_lines xs = after_lines xs.
Proof. destruct xs as [|x xs]; [done|]. intros _. by rewrite join_lines_cons. Qed.

Section backward_text.
Import StateOps.

Variables (h : heap) (max_depth : option Z).

Local Arguments StateOps.show : simpl never.

Lemma build_tree_lines_nonempty (fuel : nat) (state : addr) (depth : nat)
    (visited v' : gset addr) (out : list line) :
  build_tree_lines fuel h max_depth state depth visited = Some (out, v') →
  out ≠ [].
Proof. intros (l & rest & -> & _)%build_tree_head. done. Qed.

Lemma each_text_lines
    (child : addr → gset addr → option (string * gset addr))
    (child_lines : addr → gset addr → option (list line * gset addr)) :
  (∀ inp v, child inp v =
            (λ p, (join_lines (show <$> p.1), p.2)) <$> child_lines inp v) →
  (∀ inp v ls v', child_lines inp v = Some (ls, v') → ls ≠ []) →
  ∀ (inps : list addr) (x : string) (xs : list string) (v : gset addr),
    (λ p, (join_lines p.1, p.2)) <$> each child inps (x :: xs) v =
    (λ p, (join_lines (x :: xs) +:+ after_lines (show <$> p.1), p.2))
      <$> each_lines child_lines inps v.
Proof.
  intros Hchild Hne inps. induction inps as [|inp rest IH]; intros x xs v.
  - simpl. by rewrite string_app_empty_r.
  - simpl. rewrite Hchild.
    destruct (child_lines inp v) as [[ls1 v1]|] eqn:Hc; [|done]. simpl.
    rewrite IH. destruct (each_lines child_lines rest v1) as [[more v2]|];
      [|done].
    simpl. do 2 f_equal.
    rewrite fmap_app, after_lines_app, !join_lines_cons, after_lines_app.
    rewrite <- (after_lines_join (show <$> ls1)).
    + change (after_lines [join_lines (show <$> ls1)])
        with (newline +:+ join_lines (show <$> ls1) +:+ "").
      by rewrite string_app_empty_r, !string_app_assoc.
    + intros Hnil. apply fmap_nil_inv in Hnil. by eapply Hne.
Qed.

(** The text of [build_tree] is the lines of [build_tree_lines], joined;
    the two leave the same [visited]. *)
Lemma build_tree_text_lines (fuel : nat) :
  ∀ (state : addr) (depth : nat) (visited : gset addr),
    build_tree fuel h max_depth state depth visited =
    (λ p, (join_lines (show <$> p.1), p.2))
      <$> build_tree_lines fuel h max_depth state depth visited.
Proof.
  induction fuel as [|fuel IH]; intros state depth visited; [done|].
  rewrite build_tree_unfold.
  change (build_tree (S fuel) h max_depth state depth visited) with
    (if bool_decide (state ∈ visited) || too_deep max_depth depth
     then Some (show (Marker depth state), visited)
     else
       st ← h !! state;
       match State.inputs st with
       | [] => Some (show (Bubble depth state st), {[state]} ∪ visited)
       | _ =>
           '(result, visited) ←
             each (λ inp, build_tree fuel h max_depth inp (S depth))
                  (State.inputs st) [show (Bubble depth state st)]
                  ({[state]} ∪ visited);
           Some (join_lines result, visited)
       end).
  destruct (bool_decide (state ∈ visited) || too_deep max_depth depth); [done|].
  destruct (h !! state) as [st|]; [|done]. simpl.
  destruct (State.inputs st) as [|inp rest] eqn:Hinps; [done|].
  pose proof (each_text_lines
                (λ inp, build_tree fuel h max_depth inp (S depth))
                (λ inp, build_tree_lines fuel h max_depth inp (S depth))
                (λ inp v, IH inp (S depth) v)
                (λ inp v ls v', build_tree_lines_nonempty fuel inp (S depth) v v' ls)
                (inp :: rest) (show (Bubble depth state st)) []
                ({[state]} ∪ visited)) as Heach.
  destruct (each _ (inp :: rest) _ _) as [[result v1]|];
    destruct (each_lines _ (inp :: rest) _) as [[below v2]|];
    simpl in Heach; try done.
  injection Heach as Htext ->. simpl. do 2 f_equal.
  rewrite Htext, !join_lines_cons. change (after_lines []) with "".
  by rewrite string_app_empty_r.
Qed.

Lemma backward_text_lines (self : addr) :
  backward h self max_depth =
  (λ ls, join_lines (show <$> ls)) <$> backward_lines h self max_depth.
Proof.
  unfold backward, backward_lines. rewrite build_tree_text_lines.
  by destruct (build_tree_lines _ _ _ _ _ _) as [[ls v]|].
Qed.
End backward_text.

Section display_text.
Import Logbook.

Variables (h : heap) (op_records : list OpRecord.t) (count : option Z).

Lemma trace_tree_lines_nonempty (fuel : nat) (bubble : addr) (depth : nat)
    (visited : gset addr) (prefix : string) (out : list line) :
  trace_tree_lines fuel h op_records count bubble depth visited prefix
    = Some out →
  out ≠ [].
Proof.
  intros Hrun. apply trace_tree_inv in Hrun
    as [(c & _ & ->)
       |(_ & st & _
         & [(_ & ->)|[(_ & _ & ->)|(_ & ? & ? & ? & _ & _ & _ & ->)]])];
    done.
Qed.

Lemma children_text_lines (child : addr → string → option string)
    (child_lines : addr → string → option (list line)) :
  (∀ inp p, child inp p =
            (λ ls, StateOps.join_lines (show <$> ls)) <$> child_lines inp p) →
  (∀ inp p ls, child_lines inp p = Some ls → ls ≠ []) →
  ∀ (inps : list addr) (prefix : string) (n i : nat) (result : string),
    children child prefix n i inps result =
    (λ below, result +:+ after_lines (show <$> below))
      <$> children_lines child_lines prefix n i inps.
Proof.
  intros Hchild Hne inps. induction inps as [|inp rest IH];
    intros prefix n i result.
  - simpl. by rewrite string_app_empty_r.
  - simpl. rewrite Hchild.
    destruct (child_lines inp _) as [[|l r]|] eqn:Hc;
      [by apply Hne in Hc| |done].
    simpl. rewrite IH.
    destruct (children_lines child_lines prefix n (S i) rest) as [more|];
      [|done].
    simpl. f_equal. rewrite join_lines_cons.
    change (list_fmap line string show) with (fmap (M:=list) show).
    rewrite fmap_app, after_lines_app.
    generalize (after_lines (show <$> r)) (after_lines (show <$> more)).
    intros text_r text_more. unfold show. simpl.
    by rewrite !string_app_assoc.
Qed.

(** The text of [trace_tree] is the lines of [trace_tree_lines], each
    with its drawing in front, joined. *)
Lemma trace_tree_text_lines (fuel : nat) :
  ∀ (bubble : addr) (depth : nat) (visited : gset addr) (prefix : string),
    trace_tree fuel h op_records count bubble depth visited prefix =
    (λ ls, StateOps.join_lines (show <$> ls))
      <$> trace_tree_lines fuel h op_records count bubble depth visited prefix.
Proof.
  induction fuel as [|fuel IH]; intros bubble depth visited prefix; [done|].
  rewrite trace_tree_unfold.
  change (trace_tree (S fuel) h op_records count bubble depth visited prefix)
    with
    (match limit_reached count depth with
     | Some c => Some (show_item (DepthLimit c))
     | None =>
         st ← h !! bubble;
         if bool_decide (bubble ∈ visited)
         then Some (show_item (Cycle bubble (State.note st)))
         else
           match producing_record op_records bubble with
           | Some r =>
               children
                 (λ inp, trace_tree fuel h op_records count inp (S depth)
                                    ({[bubble]} ∪ visited))
                 prefix (length (OpRecord.inputs r)) 0 (OpRecord.inputs r)
                 (show_item (Produced (OpRecord.op_name r) bubble
                                      (State.note st)))
           | None => Some (show_item (Origin bubble (State.note st)))
           end
     end).
  destruct (limit_reached count depth); [done|].
  destruct (h !! bubble) as [st|]; [|done]. simpl.
  case_bool_decide; [done|].
  destruct (producing_record op_records bubble) as [r|]; [|done].
  rewrite (children_text_lines _
             (λ inp, trace_tree_lines fuel h op_records count inp (S depth)
                                      ({[bubble]} ∪ visited))
             (λ inp p, IH inp (S depth) _ p)
             (λ inp p ls, trace_tree_lines_nonempty fuel inp (S depth) _ p ls)).
  destruct (children_lines _ _ _ _ _) as [below|]; [|done].
  simpl. by rewrite join_lines_cons.
Qed.

End display_text.

Lemma display_text_lines (self : Logbook.t) (h : heap) (from_bubble : addr)
    (count : option Z) :
  Logbook.display self h (Some from_bubble) count =
  (λ ls, ["📝 Logbook '" +:+ Logbook.name self +:+ "' 计算图追溯:";
          StateOps.join_lines (Logbook.show <$> ls)])
    <$> Logbook.trace_lines self h from_bubble count.
Proof.
  unfold Logbook.display, Logbook.trace_lines. rewrite trace_tree_text_lines.
  by destruct (Logbook.trace_tree_lines _ _ _ _ _ _ _ _) as [ls|].
Qed.

(** * What the walks render *)

Lemma rendered_app (ls1 ls2 : list StateOps.line) :
  rendered (ls1 ++ ls2) = rendered ls1 ++ rendered ls2.
Proof. apply omap_app. Qed.

(** What the shared [visited] set holds when a call returns: what it held
    before and the nodes the call has rendered, each of them new and
    rendered once. *)
Lemma build_tree_visited (h : heap) (max_depth : option Z) (fuel : nat) :
  ∀ (state : addr) (depth : nat) (visited v' : gset addr)
    (out : list StateOps.line),
    StateOps.build_tree_lines fuel h max_depth state depth visited
      = Some (out, v') →
    (∀ x, x ∈ v' ↔ x ∈ visited ∨ x ∈ rendered out)
    ∧ NoDup (rendered out)
    ∧ (∀ x, x ∈ rendered out → x ∉ visited)
    ∧ (∀ x, x ∈ rendered out → x < length h).
Proof.
  induction fuel as [|fuel IH]; intros state depth visited v' out Hrun; [done|].
  apply build_tree_inv in Hrun
    as [(-> & -> & _)
       |(fuel' & st & below & [= <-] & Hnot & _ & Hst & Heach & ->)].
  { simpl. split; [intros x; split; [by left|intros [?|[]%elem_of_nil]; done]|].
    split; [apply NoDup_nil_2|]. split; intros x []%elem_of_nil. }
  assert (∀ inps v v2 ls,
            StateOps.each_lines
              (λ inp, StateOps.build_tree_lines fuel h max_depth inp (S depth))
              inps v = Some (ls, v2) →
            (∀ x, x ∈ v2 ↔ x ∈ v ∨ x ∈ rendered ls)
            ∧ NoDup (rendered ls)
            ∧ (∀ x, x ∈ rendered ls → x ∉ v)
            ∧ (∀ x, x ∈ rendered ls → x < length h)) as Hloop.
  { induction inps as [|inp rest IHl]; intros v v2 ls Hl.
    - injection Hl as <- <-. simpl.
      split; [intros x; split; [by left|intros [?|[]%elem_of_nil]; done]|].
      split; [apply NoDup_nil_2|]. split; intros x []%elem_of_nil.
    - apply each_cons_inv in Hl as (ls1 & v1 & more & Hc & Hr & ->).
      apply IH in Hc as (Hv1 & Hnd1 & Hnew1 & Hlt1).
      apply IHl in Hr as (Hv2 & Hnd2 & Hnew2 & Hlt2).
      rewrite rendered_app. split; [|split; [|split]].
      + intros x. rewrite Hv2, Hv1, elem_of_app. tauto.
      + apply NoDup_app. split; [done|]. split; [|done].
        intros x Hx1 Hx2. apply (Hnew2 x Hx2). apply Hv1. by right.
      + intros x [Hx|Hx]%elem_of_app; [by apply Hnew1|].
        intros Hv. apply (Hnew2 x Hx). apply Hv1. by left.
      + intros x [Hx|Hx]%elem_of_app; [by apply Hlt1|by apply Hlt2]. }
  apply Hloop in Heach as (Hv & Hnd & Hnew & Hlt).
  change (rendered (StateOps.Bubble depth state st :: below))
    with (state :: rendered below).
  split; [|split; [|split]].
  - intros x. rewrite Hv, elem_of_union, elem_of_singleton, elem_of_cons. tauto.
  - apply NoDup_cons. split; [|done]. intros Hx.
    apply (Hnew state Hx). apply elem_of_union. left. by apply elem_of_singleton.
  - intros x [->|Hx]%elem_of_cons; [done|]. intros Hvis.
    apply (Hnew x Hx). apply elem_of_union. by right.
  - intros x [->|Hx]%elem_of_cons; [by eapply lookup_lt_Some|by apply Hlt].
Qed.

(** On a store without dangling references both walks return. *)
Lemma backward_lines_total (h : heap) (self : addr) (max_depth : option Z) :
  closed_heap h → self < length h →
  ∃ ls, StateOps.backward_lines h self max_depth = Some ls
    ∧ StateOps.backward h self max_depth =
        Some (StateOps.join_lines (StateOps.show <$> ls)).
Proof.
  intros Hclosed Hself.
  destruct (build_tree_total h max_depth (S (length h)) Hclosed self 0 ∅ Hself)
    as [[ls v] Hrun].
  { apply Nat.lt_succ_r. etrans; [apply subseteq_size|].
    - apply subseteq_difference_l. reflexivity.
    - unfold addresses. by rewrite size_set_seq. }
  exists ls. rewrite backward_text_lines. unfold StateOps.backward_lines.
  by rewrite Hrun.
Qed.

Lemma trace_lines_total (self : Logbook.t) (h : heap) (from_bubble : addr)
    (count : option Z) :
  closed_ledger h (Logbook.op_records self) → from_bubble < length h →
  ∃ ls, Logbook.trace_lines self h from_bubble count = Some ls
    ∧ Logbook.display self h (Some from_bubble) count =
        Some ["📝 Logbook '" +:+ Logbook.name self +:+ "' 计算图追溯:";
              StateOps.join_lines (Logbook.show <$> ls)].
Proof.
  intros Hclosed Hstart.
  destruct (trace_tree_total h (Logbook.op_records self) count (S (length h))
              Hclosed from_bubble 0 ∅ "" Hstart) as [ls Hrun].
  { apply Nat.lt_succ_r. etrans; [apply subseteq_size|].
    - apply subseteq_difference_l. reflexivity.
    - unfold addresses. by rewrite size_set_seq. }
  exists ls. rewrite display_text_lines. unfold Logbook.trace_lines.
  by rewrite Hrun.
Qed.

(** ** The shape of the lines of backward *)

(** The first line of a call is about its node, rendered or marker. *)
Lemma build_tree_first (h : heap) (max_depth : option Z) (fuel : nat)
    (state : addr) (depth : nat) (visited v' : gset addr)
    (out : list StateOps.line) :
  StateOps.build_tree_lines fuel h max_depth state depth visited
    = Some (out, v') →
  out = [StateOps.Marker depth state]
  ∨ ∃ st rest, h !! state = Some st
      ∧ StateOps.too_deep max_depth depth = false
      ∧ out = StateOps.Bubble depth state st :: rest.
Proof.
  intros Hrun. apply build_tree_inv in Hrun
    as [(-> & _ & _)|(fuel' & st & below & _ & _ & Hdeep & Hst & _ & ->)].
  - by left.
  - right. by exists st, below.
Qed.

(** What the lines of a call say: a line [n] levels below the call is
    about a node [n] inputs away from the node of the call; a rendered
    line shows the node as the store has it; a marker that is not due to
    the depth limit is on a node that is in [visited]; and every input of
    a rendered node has a line one level below, rendered or marker. *)
Lemma build_tree_lines_shape (h : heap) (max_depth : option Z) (fuel : nat) :
  ∀ (state : addr) (depth : nat) (visited v' : gset addr)
    (out : list StateOps.line),
    StateOps.build_tree_lines fuel h max_depth state depth visited
      = Some (out, v') →
    (∀ l, l ∈ out →
       ∃ n, StateOps.line_depth l = depth + n
            ∧ nsteps (input_edge h) n state (line_addr l))
    ∧ (∀ d a st, StateOps.Bubble d a st ∈ out → h !! a = Some st)
    ∧ (∀ d a, StateOps.Marker d a ∈ out →
              StateOps.too_deep max_depth d = true ∨ a ∈ v')
    ∧ (∀ d a st b, StateOps.Bubble d a st ∈ out → b ∈ State.inputs st →
         (∃ st', StateOps.Bubble (S d) b st' ∈ out)
         ∨ StateOps.Marker (S d) b ∈ out).
Proof.
  induction fuel as [|fuel IH]; intros state depth visited v' out Hrun; [done|].
  apply build_tree_inv in Hrun
    as [(-> & -> & Hwhy)
       |(fuel' & st & below & [= <-] & Hnot & Hdeep & Hst & Heach & ->)].
  { split; [|split; [|split]].
    - intros l ->%list_elem_of_singleton. exists 0. split; [simpl; lia|].
      apply nsteps_O.
    - by intros d a st' ?%list_elem_of_singleton.
    - intros d a [= <- <-]%list_elem_of_singleton. destruct Hwhy; auto.
    - by intros d a st' b ?%list_elem_of_singleton. }
  assert (∀ inps v v2 ls,
            StateOps.each_lines
              (λ inp, StateOps.build_tree_lines fuel h max_depth inp (S depth))
              inps v = Some (ls, v2) →
            v ⊆ v2
            ∧ (∀ l, l ∈ ls →
                 ∃ b n, b ∈ inps ∧ StateOps.line_depth l = S depth + n
                        ∧ nsteps (input_edge h) n b (line_addr l))
            ∧ (∀ d a st, StateOps.Bubble d a st ∈ ls → h !! a = Some st)
            ∧ (∀ d a, StateOps.Marker d a ∈ ls →
                      StateOps.too_deep max_depth d = true ∨ a ∈ v2)
            ∧ (∀ b, b ∈ inps →
                 (∃ st', StateOps.Bubble (S depth) b st' ∈ ls)
                 ∨ StateOps.Marker (S depth) b ∈ ls)
            ∧ (∀ d a st b, StateOps.Bubble d a st ∈ ls →
                 b ∈ State.inputs st →
                 (∃ st', StateOps.Bubble (S d) b st' ∈ ls)
                 ∨ StateOps.Marker (S d) b ∈ ls)) as Hloop.
  { induction inps as [|inp rest IHl]; intros v v2 ls Hl.
    - injection Hl as <- <-. split; [done|].
      split; [by intros l ?%elem_of_nil|].
      split; [by intros d a st' ?%elem_of_nil|].
      split; [by intros d a ?%elem_of_nil|].
      split; [by intros b ?%elem_of_nil|].
      by intros d a st' b ?%elem_of_nil.
    - apply each_cons_inv in Hl as (ls1 & v1 & more & Hc & Hr & ->).
      pose proof (build_tree_mono _ _ _ _ _ _ _ _ Hc) as Hsub1.
      pose proof (build_tree_first _ _ _ _ _ _ _ _ Hc) as Hfirst1.
      apply IH in Hc as (Hsteps1 & Hst1 & Hmark1 & Hin1).
      apply IHl in Hr as (Hsub2 & Hsteps2 & Hst2 & Hmark2 & Hfirst2 & Hin2).
      split; [by etrans|]. split; [|split; [|split; [|split]]].
      + intros l [Hl|Hl]%elem_of_app.
        * destruct (Hsteps1 l Hl) as (n & Hd & Hn).
          exists inp, n. split; [apply list_elem_of_here|done].
        * destruct (Hsteps2 l Hl) as (b & n & Hb & Hd & Hn).
          exists b, n. split; [by apply list_elem_of_further|done].
      + intros d a st' [Hl|Hl]%elem_of_app; [by eapply Hst1|by eapply Hst2].
      + intros d a [Hl|Hl]%elem_of_app.
        * destruct (Hmark1 d a Hl) as [?|Ha]; [by left|]. right. by apply Hsub2.
        * by apply Hmark2.
      + intros b [->|Hb]%elem_of_cons.
        * destruct Hfirst1 as [->|(st1 & tl & _ & _ & ->)].
          -- right. apply elem_of_app. left. apply list_elem_of_here.
          -- left. exists st1. apply elem_of_app. left. apply list_elem_of_here.
        * destruct (Hfirst2 b Hb) as [[st' Hl]|Hl].
          -- left. exists st'. apply elem_of_app. by right.
          -- right. apply elem_of_app. by right.
      + intros d a st' b [Hl|Hl]%elem_of_app Hb.
        * destruct (Hin1 d a st' b Hl Hb) as [[st2 Hl2]|Hl2].
          -- left. exists st2. apply elem_of_app. by left.
          -- right. apply elem_of_app. by left.
        * destruct (Hin2 d a st' b Hl Hb) as [[st2 Hl2]|Hl2].
          -- left. exists st2. apply elem_of_app. by right.
          -- right. apply elem_of_app. by right. }
  apply Hloop in Heach as (Hsub & Hsteps & Hsts & Hmark & Hfirst & Hin).
  split; [|split; [|split]].
  - intros l [->|Hl]%elem_of_cons.
    + exists 0. split; [simpl; lia|]. apply nsteps_O.
    + destruct (Hsteps l Hl) as (b & n & Hb & Hd & Hn).
      exists (S n). split; [lia|]. eapply nsteps_l; [|exact Hn]. by exists st.
  - intros d a st' [[= <- <- <-]|Hl]%elem_of_cons; [done|by eapply Hsts].
  - intros d a [?|Hl]%elem_of_cons; [done|by apply Hmark].
  - intros d a st' b [[= <- <- <-]|Hl]%elem_of_cons Hb.
    + destruct (Hfirst b Hb) as [[st2 Hl2]|Hl2].
      * left. exists st2. by apply list_elem_of_further.
      * right. by apply list_elem_of_further.
    + destruct (Hin d a st' b Hl Hb) as [[st2 Hl2]|Hl2].
      * left. exists st2. by apply list_elem_of_further.
      * right. by apply list_elem_of_further.
Qed.

Lemma elem_of_rendered (ls : list StateOps.line) (a : addr) :
  a ∈ rendered ls ↔ ∃ d st, StateOps.Bubble d a st ∈ ls.
Proof.
  unfold rendered. rewrite list_elem_of_omap. split.
  - intros ([d b st|d b] & Hl & Hsome); [|done].
    injection Hsome as ->. by exists d, st.
  - intros (d & st & Hl). by exists (StateOps.Bubble d a st).
Qed.

(** A node that is rendered once has one level. *)
Lemma rendered_unique (ls : list StateOps.line) (a : addr) (d d' : nat)
    (st st' : State.t) :
  NoDup (rendered ls) →
  StateOps.Bubble d a st ∈ ls → StateOps.Bubble d' a st' ∈ ls → d = d'.
Proof.
  induction ls as [|l ls IH]; [by intros _ ?%elem_of_nil|].
  destruct l as [d0 a0 st0|d0 a0].
  - change (rendered (StateOps.Bubble d0 a0 st0 :: ls))
      with (a0 :: rendered ls).
    intros [Hnew Hnd]%NoDup_cons H1 H2.
    apply elem_of_cons in H1 as [H1|H1]; apply elem_of_cons in H2 as [H2|H2].
    + congruence.
    + injection H1 as -> -> ->. destruct Hnew. apply elem_of_rendered.
      by eexists _, _.
    + injection H2 as -> -> ->. destruct Hnew. apply elem_of_rendered.
      by eexists _, _.
    + by apply IH.
  - change (rendered (StateOps.Marker d0 a0 :: ls)) with (rendered ls).
    intros Hnd [?|H1]%elem_of_cons [?|H2]%elem_of_cons; try done.
    by apply IH.
Qed.

(** A cycle that can be reached shows in the lines of [backward]: there
    is a marker on a node that is its own ancestor, unless the depth
    limit has cut the walk, and then there is a marker below the limit. *)
Lemma build_tree_cycle_marker (h : heap) (max_depth : option Z) (fuel : nat)
    (start c : addr) (v' : gset addr) (out : list StateOps.line) :
  StateOps.build_tree_lines fuel h max_depth start 0 ∅ = Some (out, v') →
  rtc (input_edge h) start c → tc (input_edge h) c c →
  ∃ d a, StateOps.Marker d a ∈ out
    ∧ rtc (input_edge h) start a
    ∧ (tc (input_edge h) a a ∨ StateOps.too_deep max_depth d = true).
Proof.
  intros Hrun Hway Hcyc.
  pose proof (build_tree_lines_shape _ _ _ _ _ _ _ _ Hrun)
    as (Hsteps & Hsts & Hmark & Hin).
  pose proof (build_tree_visited _ _ _ _ _ _ _ _ Hrun) as (Hv & Hnd & _ & _).
  assert (∀ d a, StateOps.Marker d a ∈ out → rtc (input_edge h) start a)
    as Hreach.
  { intros d a Hl. destruct (Hsteps _ Hl) as (n & _ & Hn).
    by eapply rtc_nsteps_2. }
  assert ((∃ d a, StateOps.Marker d a ∈ out
                  ∧ StateOps.too_deep max_depth d = true)
          ∨ ∃ d st, StateOps.Bubble d c st ∈ out) as [(d & a & Hl & Hd)|Hc].
  { clear Hcyc. revert c Hway.
    apply (rtc_ind_r
             (λ c, (∃ d a, StateOps.Marker d a ∈ out
                           ∧ StateOps.too_deep max_depth d = true)
                   ∨ ∃ d st, StateOps.Bubble d c st ∈ out)).
    - destruct (build_tree_first _ _ _ _ _ _ _ _ Hrun)
        as [->|(st & rest & _ & _ & ->)].
      + left. exists 0, start. split; [apply list_elem_of_here|].
        destruct (Hmark 0 start (list_elem_of_here _ _)) as [?|Hvis]; [done|].
        apply Hv in Hvis as [[]%elem_of_empty|[]%elem_of_nil].
      + right. exists 0, st. apply list_elem_of_here.
    - intros x y Hway Hxy IHw.
      destruct IHw as [?|(d & st & Hl)]; [by left|].
      destruct Hxy as (st' & Hst' & Hy).
      rewrite (Hsts _ _ _ Hl) in Hst'. injection Hst' as <-.
      destruct (Hin d x st y Hl Hy) as [[st2 Hl2]|Hl2].
      + right. by exists (S d), st2.
      + destruct (Hmark _ _ Hl2) as [Hdeep|Hvis].
        * left. by exists (S d), y.
        * right. apply Hv in Hvis as [[]%elem_of_empty|Hvis].
          by apply elem_of_rendered. }
  { exists d, a. split; [done|]. split; [by eapply Hreach|by right]. }
  destruct Hc as (d0 & st0 & Hc).
  apply tc_nsteps in Hcyc as (n & Hn & Hloop).
  assert (∀ k w, nsteps (input_edge h) k c w → rtc (input_edge h) w c →
                 (∃ d a, StateOps.Marker d a ∈ out ∧ tc (input_edge h) a a)
                 ∨ ∃ st, StateOps.Bubble (d0 + k) w st ∈ out) as Hround.
  { induction k as [|k IHk]; intros w Hk Hback.
    - inversion Hk; subst. right. exists st0. by rewrite Nat.add_0_r.
    - apply nsteps_inv_r in Hk as (w0 & Hk & Hedge).
      destruct (IHk w0 Hk) as [?|(st & Hl)]; [by eapply rtc_l|by left|].
      pose proof Hedge as (st' & Hst' & Hw).
      rewrite (Hsts _ _ _ Hl) in Hst'. injection Hst' as <-.
      destruct (Hin _ _ _ w Hl Hw) as [[st2 Hl2]|Hl2].
      + right. exists st2. by rewrite Nat.add_succ_r.
      + left. exists (S (d0 + k)), w. split; [done|].
        eapply tc_rtc_l; [exact Hback|]. eapply tc_rtc_l; [|by apply tc_once].
        by eapply rtc_nsteps_2. }
  destruct (Hround n c Hloop (rtc_refl _ _)) as [(d & a & Hl & Ha)|(st & Hl)].
  - exists d, a. split; [done|]. split; [by eapply Hreach|by left].
  - pose proof (rendered_unique _ _ _ _ _ _ Hnd Hc Hl). lia.
Qed.

(** ** Texts and what they contain *)

Lemma contains_refl (s : string) : contains s s.
Proof. exists "", "". by rewrite string_app_empty_r. Qed.

Lemma contains_app_r (pre s needle : string) :
  contains s needle → contains (pre +:+ s) needle.
Proof.
  intros (p & q & ->). exists (pre +:+ p), q. by rewrite string_app_assoc.
Qed.

Lemma contains_app_l (s post needle : string) :
  contains s needle → contains (s +:+ post) needle.
Proof.
  intros (p & q & ->). exists p, (q +:+ post). by rewrite !string_app_assoc.
Qed.

Lemma contains_after_lines (xs : list string) (x : string) :
  x ∈ xs → contains (after_lines xs) x.
Proof.
  induction xs as [|y xs IH]; [by intros ?%elem_of_nil|].
  change (after_lines (y :: xs))
    with (StateOps.newline +:+ y +:+ after_lines xs).
  intros [->|Hx]%elem_of_cons.
  - apply contains_app_r, contains_app_l, contains_refl.
  - by apply contains_app_r, contains_app_r, IH.
Qed.

(** Every line is in the joined text. *)
Lemma contains_join_lines (xs : list string) (x : string) :
  x ∈ xs → contains (StateOps.join_lines xs) x.
Proof.
  destruct xs as [|y xs]; [by intros ?%elem_of_nil|].
  rewrite join_lines_cons. intros [->|Hx]%elem_of_cons.
  - apply contains_app_l, contains_refl.
  - by apply contains_app_r, contains_after_lines.
Qed.

Lemma contains_trans (a b c : string) :
  contains a b → contains b c → contains a c.
Proof.
  intros (p & q & ->) Hc. by apply contains_app_r, contains_app_l.
Qed.

(** ** The markers of display *)

Lemma limit_reached_Some (count : option Z) (d : nat) (c : Z) :
  Logbook.limit_reached count d = Some c → count = Some c ∧ c ≠ 0%Z.
Proof.
  destruct count as [c'|]; [|done]. simpl.
  case_bool_decide as Hc; [|done]. simpl.
  case_bool_decide; [|done]. by intros [= <-].
Qed.

(** A cycle marker is on a node that the walk has reached and shows the
    note of that node; a depth-limit marker shows the limit, which is
    [count] and is not [0]. *)
Lemma trace_tree_marker_shows (h : heap) (op_records : list OpRecord.t)
    (count : option Z) (fuel : nat) :
  ∀ (bubble : addr) (depth : nat) (visited : gset addr) (prefix : string)
    (out : list Logbook.line),
    Logbook.trace_tree_lines fuel h op_records count bubble depth visited
                             prefix = Some out →
    ∀ l, l ∈ out →
      (∀ a n, Logbook.what l = Logbook.Cycle a n →
              rtc (record_edge op_records) bubble a
              ∧ ∃ st, h !! a = Some st ∧ n = State.note st)
      ∧ (∀ c, Logbook.what l = Logbook.DepthLimit c →
              count = Some c ∧ c ≠ 0%Z).
Proof.
  induction fuel as [|fuel IH];
    intros bubble depth visited prefix out Hrun l Hl; [done|].
  apply trace_tree_inv in Hrun
    as [(k & Hk & ->)
       |(_ & st & Hst
         & [(Hvis & ->)
           |[(Hnot & Hrec & ->)
            |(Hnot & fuel' & r & below & [= <-] & Hrec & Hbelow & ->)]])].
  - apply list_elem_of_singleton in Hl as ->. split; [done|].
    intros c [= <-]. by eapply limit_reached_Some.
  - apply list_elem_of_singleton in Hl as ->. split; [|done].
    intros a n [= <- <-]. split; [done|]. by exists st.
  - by apply list_elem_of_singleton in Hl as ->.
  - apply elem_of_cons in Hl as [->|Hl]; [done|].
    assert (∀ inps n0 i ls,
              Logbook.children_lines
                (λ inp, Logbook.trace_tree_lines fuel h op_records count inp
                          (S depth) ({[bubble]} ∪ visited))
                prefix n0 i inps = Some ls →
              (∀ b, b ∈ inps → b ∈ OpRecord.inputs r) →
              l ∈ ls →
              (∀ a n, Logbook.what l = Logbook.Cycle a n →
                      rtc (record_edge op_records) bubble a
                      ∧ ∃ st, h !! a = Some st ∧ n = State.note st)
              ∧ (∀ c, Logbook.what l = Logbook.DepthLimit c →
                      count = Some c ∧ c ≠ 0%Z)) as Hloop.
    { induction inps as [|inp rest IHl]; intros n0 i ls Hrun Hsub Hin.
      - injection Hrun as <-. by apply elem_of_nil in Hin.
      - apply children_cons_inv in Hrun
          as (cp & drawing & child_result & more & Hchild & Hrest & ->).
        apply elem_of_app in Hin as [Hin|Hin].
        + apply elem_of_attach in Hin as (l0 & Hl0 & Hw0 & _).
          destruct (IH _ _ _ _ _ Hchild l0 Hl0) as [Hcyc Hlim].
          rewrite Hw0. split; [|done]. intros a n Hw.
          destruct (Hcyc a n Hw) as [Hway Hnote]. split; [|done].
          eapply rtc_l; [|exact Hway]. exists r. split; [done|].
          apply Hsub, list_elem_of_here.
        + eapply IHl; [exact Hrest| |done].
          intros b Hb. by apply Hsub, list_elem_of_further. }
    by eapply Hloop.
Qed.

(** * The claims about the two walks *)

(** C8 fails on the code for [State.backward]. In the graph [B = Op1(A)],
    [C = Op2(A)], [D = Op3(B, C)], which has no cycle, [D.backward()]
    renders [A] under [B] and puts the marker on [A] under [C], although
    the path from [D] to that line is [D], [C]: its [visited] set is
    shared by all calls.  [Logbook.display], which copies the set for
    every child, renders [A] under both. *)
Theorem C8_backward_marks_shared_ancestor :
  let h := Run.diamond.1 in
  (∀ a b, input_edge h a b → b < a)
  ∧ StateOps.backward h 3 None =
      Some (StateOps.join_lines
              ["🎈 bubble_3: ResearchBriefPayload ←Execute | D";
               "  🎈 bubble_1: ResearchBriefPayload ←Generate | B";
               "    🎈 bubble_0: ResearchBriefPayload (原始) | A";
               "  🎈 bubble_2: ResearchBriefPayload ←Critique | C";
               "    🔄 bubble_0 (循环引用或深度限制)"])
  ∧ (∃ ls, StateOps.backward_lines h 3 None = Some ls
       ∧ line_summary <$> ls =
           [(false, 0, 3); (false, 1, 1); (false, 2, 0);
            (false, 1, 2); (true, 2, 0)])
  ∧ Logbook.display Run.diamond.2 h (Some 3) None =
      Some ["📝 Logbook 'default' 计算图追溯:";
            StateOps.join_lines
              ["🧠 Op3 -> 🎈 D";
               "├── 🧠 Op1 -> 🎈 B";
               "│   └── 🎈 Origin: A";
               "└── 🧠 Op2 -> 🎈 C";
               "    └── 🎈 Origin: A"]]
  ∧ (∃ ls, Logbook.trace_lines Run.diamond.2 h 3 None = Some ls
       ∧ Logbook.what <$> ls =
           [Logbook.Produced "Op3" 3 "D"; Logbook.Produced "Op1" 1 "B";
            Logbook.Origin 0 "A"; Logbook.Produced "Op2" 2 "C";
            Logbook.Origin 0 "A"]).
Proof.
  split; [|split; [by vm_compute|split; [eexists; split; by vm_compute|]];
           split; [by vm_compute|eexists; split; by vm_compute]].
  intros a b (st & Hst & Hb).
  destruct a as [|[|[|[|a]]]]; vm_compute in Hst; [..|done];
    injection Hst as <-; simpl in Hb;
    repeat (apply elem_of_cons in Hb as [->|Hb]; [lia|]);
    by apply elem_of_nil in Hb.
Qed.

(** C9. On a store and a logbook without dangling references, both walks
    return, from every node and for every depth limit.  When a cycle can
    be reached from the start node, the text that [backward] returns has
    the marker line of a node that the walk has reached: of a node that is
    its own ancestor, or, if [max_depth] has cut the walk, of a node below
    the limit.  The text that [display] prints then has the cycle marker
    of a node that is its own ancestor in the records, with the note of
    that node, or, if [count] has cut the walk, the depth-limit marker;
    with no [count], and with [count = 0], it is the cycle marker. *)
Theorem C9_traversals_terminate
    (h : heap) (self : Logbook.t) (start : addr) (max_depth count : option Z) :
  closed_heap h →
  closed_ledger h (Logbook.op_records self) →
  start < length h →
  (∃ ls text,
     StateOps.backward_lines h start max_depth = Some ls
     ∧ StateOps.backward h start max_depth = Some text
     ∧ ∀ c, rtc (input_edge h) start c → tc (input_edge h) c c →
            ∃ d a, StateOps.Marker d a ∈ ls
              ∧ rtc (input_edge h) start a
              ∧ contains text ("🔄 " +:+ State.bubble_id a
                                 +:+ " (循环引用或深度限制)")
              ∧ (tc (input_edge h) a a
                 ∨ ∃ k, max_depth = Some k ∧ (k < Z.of_nat d)%Z))
  ∧ (∃ ls text,
       Logbook.trace_lines self h start count = Some ls
       ∧ Logbook.display self h (Some start) count =
           Some ["📝 Logbook '" +:+ Logbook.name self +:+ "' 计算图追溯:";
                 text]
       ∧ ∀ c, rtc (record_edge (Logbook.op_records self)) start c →
              tc (record_edge (Logbook.op_records self)) c c →
              (∃ l a st, l ∈ ls
                 ∧ Logbook.what l = Logbook.Cycle a (State.note st)
                 ∧ h !! a = Some st
                 ∧ rtc (record_edge (Logbook.op_records self)) start a
                 ∧ tc (record_edge (Logbook.op_records self)) a a
                 ∧ contains text ("🔄 " +:+ State.note st +:+ " (循环引用)"))
              ∨ (∃ l k, l ∈ ls
                   ∧ Logbook.what l = Logbook.DepthLimit k
                   ∧ count = Some k ∧ k ≠ 0%Z
                   ∧ contains text ("🔄 深度限制(" +:+ pretty k +:+ ")"))).
Proof.
  intros Hheap Hledger Hstart. split.
  - destruct (backward_lines_total h start max_depth Hheap Hstart)
      as (ls & Hls & Htext).
    exists ls, (StateOps.join_lines (StateOps.show <$> ls)).
    split; [done|]. split; [done|]. intros c Hway Hcyc.
    revert Hls. unfold StateOps.backward_lines.
    destruct (StateOps.build_tree_lines _ _ _ _ _ _) as [[out v]|] eqn:Hrun;
      [|done].
    intros [= <-].
    destruct (build_tree_cycle_marker _ _ _ _ _ _ _ Hrun Hway Hcyc)
      as (d & a & Hl & Hreach & Hwhy).
    exists d, a. split; [done|]. split; [done|]. split.
    + eapply contains_trans.
      * apply contains_join_lines, list_elem_of_fmap.
        exists (StateOps.Marker d a). split; [reflexivity|exact Hl].
      * apply (contains_app_r (StateOps.indent d)), contains_refl.
    + destruct Hwhy as [?|Hdeep]; [by left|]. right.
      destruct max_depth as [k|]; [|done]. exists k. split; [done|].
      by apply bool_decide_eq_true in Hdeep.
  - destruct (trace_lines_total self h start count Hledger Hstart)
      as (ls & Hls & Htext).
    exists ls, (StateOps.join_lines (Logbook.show <$> ls)).
    split; [done|]. split; [done|]. intros c Hway Hcyc.
    destruct (trace_tree_marker _ _ _ _ _ _ _ _ _ Hls) as (l & Hl & Hm);
      [exists c; auto|].
    destruct (trace_tree_marker_shows _ _ _ _ _ _ _ _ _ Hls l Hl)
      as [Hshow_cycle Hshow_limit].
    assert (contains (StateOps.join_lines (Logbook.show <$> ls))
                     (Logbook.show_item (Logbook.what l))) as Hin.
    { eapply contains_trans.
      - apply contains_join_lines, list_elem_of_fmap.
        exists l. split; [reflexivity|exact Hl].
      - apply (contains_app_r (Logbook.lead l)), contains_refl. }
    unfold is_cycle_line, is_depth_line in Hm.
    destruct (Logbook.what l) as [| |a n|k] eqn:Hw;
      try (by destruct Hm).
    + left. destruct (Hshow_cycle a n eq_refl) as (Hreach & st & Hst & ->).
      exists l, a, st. split; [done|]. split; [done|]. split; [done|].
      split; [done|]. split; [|done].
      eapply (trace_tree_cycle_line h (Logbook.op_records self) count);
        [exact Hls| |exact Hl|exact Hw].
      intros v []%elem_of_empty.
    + right. destruct (Hshow_limit k eq_refl) as [-> Hk].
      by exists l, k.
Qed.

Lemma C9_traversals_terminate_witness :
  (∃ text a, StateOps.backward Run.cycle.1 0 None = Some text
     ∧ tc (input_edge Run.cycle.1) a a
     ∧ contains text ("🔄 " +:+ State.bubble_id a +:+ " (循环引用或深度限制)"))
  ∧ (∃ text a st,
       Logbook.display Run.cycle.2 Run.cycle.1 (Some 0) None =
         Some ["📝 Logbook 'default' 计算图追溯:"; text]
       ∧ Run.cycle.1 !! a = Some st
       ∧ tc (record_edge (Logbook.op_records Run.cycle.2)) a a
       ∧ contains text ("🔄 " +:+ State.note st +:+ " (循环引用)")).
Proof.
  assert (closed_heap Run.cycle.1) as Hheap.
  { repeat (constructor; try (simpl; lia)). }
  assert (closed_ledger Run.cycle.1 (Logbook.op_records Run.cycle.2)) as Hledger.
  { repeat (constructor; try (simpl; lia)). }
  assert (0 < length Run.cycle.1) as Hstart by (simpl; lia).
  destruct (C9_traversals_terminate Run.cycle.1 Run.cycle.2 0 None None
              Hheap Hledger Hstart)
    as [(ls & text & _ & Htext & Hmark) (ls' & text' & _ & Htext' & Hmark')].
  split.
  - destruct (Hmark 0) as (d & a & _ & _ & Hin & Hwhy); [apply rtc_refl| |].
    + apply tc_l with 1; [|apply tc_once]; eexists; (split; [reflexivity|]);
        apply list_elem_of_here.
    + exists text, a. split; [exact Htext|]. split; [|exact Hin].
      destruct Hwhy as [Ha|(k & Hk & _)]; [exact Ha|discriminate Hk].
  - destruct (Hmark' 0) as [(l & a & st & _ & _ & Hst & _ & Ha & Hin)
                           |(l & k & _ & _ & Hk & _)];
      [apply rtc_refl| | |discriminate Hk].
    + apply tc_l with 1; [|apply tc_once]; eexists; (split; [reflexivity|]);
        apply list_elem_of_here.
    + exists text', a, st. split; [exact Htext'|]. split; [exact Hst|].
      split; [exact Ha|exact Hin].
Defined.

(** The depth limit of [backward], for a limit that is not negative: no
    node more than [k] levels from the start is rendered, no line is more
    than [k + 1] levels down, and every input of a node rendered at level
    [k] has the marker at level [k + 1]. *)
Lemma backward_depth_limit (h : heap) (start : addr) (k : Z)
    (ls : list StateOps.line) :
  (0 ≤ k)%Z →
  StateOps.backward_lines h start (Some k) = Some ls →
  (∀ l, l ∈ ls →
        (Z.of_nat (StateOps.line_depth l) ≤ k + 1)%Z
        ∧ (StateOps.is_marker l = false →
           (Z.of_nat (StateOps.line_depth l) ≤ k)%Z))
  ∧ (∀ a st b, StateOps.Bubble (Z.to_nat k) a st ∈ ls →
               b ∈ State.inputs st →
               StateOps.Marker (S (Z.to_nat k)) b ∈ ls).
Proof.
  intros Hk. unfold StateOps.backward_lines.
  destruct (StateOps.build_tree_lines _ _ _ _ _ _) as [[out v]|] eqn:Hrun; [|done].
  intros [= <-]. split.
  - eapply build_tree_depth_bound; [exact Hrun|]. simpl. lia.
  - intros a st b Hl Hb.
    destruct (build_tree_inputs _ _ _ _ _ _ _ _ Hrun _ _ _ _ Hl Hb)
      as (l & Hin & _ & Hmark).
    rewrite <- Hmark; [done|]. simpl. apply bool_decide_eq_true. lia.
Qed.

(** The depth limit of [display], for [count = k] with [k > 0]: no node
    [k] levels or more from the start is rendered, and no line is more
    than [k] levels down. *)
Lemma display_depth_limit (self : Logbook.t) (h : heap) (start : addr)
    (k : Z) (ls : list Logbook.line) :
  (0 < k)%Z →
  Logbook.trace_lines self h start (Some k) = Some ls →
  ∀ l, l ∈ ls →
       (Z.of_nat (Logbook.depth l) ≤ k)%Z
       ∧ (is_depth_line l = false → (Z.of_nat (Logbook.depth l) < k)%Z).
Proof.
  intros Hk Hrun.
  eapply trace_tree_depth_bound; [done|done|exact Hrun|]. simpl. lia.
Qed.

(** C10 fails on the code for [Logbook.display] with [count=0]. On the
    chain [B = Op1(A)], [C = Op2(B)], [display(C, count=0)] prints what
    [display(C)] prints: [B] one level and [A] two levels from [C] are
    rendered and no depth-limit marker appears, because [if count and ...]
    takes [0] for no limit.  [C.backward(max_depth=0)] renders [C] and
    puts the marker on [B]. *)
Theorem C10_display_count_zero_unbounded :
  let h := Run.chain.1 in
  let lb := Run.chain.2 in
  Logbook.display lb h (Some 2) (Some 0%Z) =
    Some ["📝 Logbook 'default' 计算图追溯:";
          StateOps.join_lines
            ["🧠 Op2 -> 🎈 C";
             "└── 🧠 Op1 -> 🎈 B";
             "    └── 🎈 Origin: A"]]
  ∧ Logbook.display lb h (Some 2) (Some 0%Z) = Logbook.display lb h (Some 2) None
  ∧ (∃ ls, Logbook.trace_lines lb h 2 (Some 0%Z) = Some ls
       ∧ Logbook.depth <$> ls = [0; 1; 2]
       ∧ Logbook.what <$> ls =
           [Logbook.Produced "Op2" 2 "C"; Logbook.Produced "Op1" 1 "B";
            Logbook.Origin 0 "A"]
       ∧ is_depth_line <$> ls = [false; false; false])
  ∧ StateOps.backward h 2 (Some 0%Z) =
      Some (StateOps.join_lines
              ["🎈 bubble_2: ResearchBriefPayload ←Critique | C";
               "  🔄 bubble_1 (循环引用或深度限制)"]).
Proof.
  split; [by vm_compute|]. split; [by vm_compute|].
  split; [eexists; by vm_compute|by vm_compute].
Qed.

(** * Further properties: calls and the logbook *)

Lemma check_inputs_rejects (pre : list addr) (ty : string) (post : list value) :
  OpFunction.check_inputs ((VState <$> pre) ++ VOther ty :: post) =
    Raise (Exn TypeError ("Expected State, got " +:+ ty)).
Proof. induction pre as [|a pre IH]; csimpl; [done|]. by rewrite IH. Qed.

(** X1. An input that is not a [State] makes [apply] raise [TypeError] for
    the first such input; [forward] is not run (the result is the same for
    every [forward]) and the store is the one that was passed in. *)
Theorem X1_apply_rejects_input
    (op : Op.t) (forward : forward_fn) (pre : list addr) (ty : string)
    (post : list value) (h : heap) :
  OpFunction.apply op forward ((VState <$> pre) ++ VOther ty :: post) h =
    (h, Raise (Exn TypeError ("Expected State, got " +:+ ty))).
Proof. unfold OpFunction.apply. by rewrite check_inputs_rejects. Qed.

Lemma record_outputs_all (lb : Logbook.t) (op_name : string)
    (states outs : list addr) :
  record_outputs lb op_name states outs =
    (logbook_completed lb op_name states outs, Ok ()).
Proof.
  revert lb. induction outs as [|b outs IH]; intros lb.
  - simpl. unfold logbook_completed. simpl. rewrite !app_nil_r.
    by destruct lb.
  - simpl. rewrite IH. unfold logbook_completed. simpl.
    by rewrite <- !app_assoc.
Qed.

(** What [Op.__call__] does around [apply]. *)
Lemma Op_call_apply (op : Op.t) (forward : forward_fn) (states : list addr)
    (logbook : option Logbook.t) (h : heap) :
  Op_call op forward states logbook h =
    let '(h', r) := OpFunction.apply op forward (VState <$> states) h in
    (h',
     (λ lb, match r with
            | Ok res => logbook_completed lb (Op.name op) states
                                          (result_nodes res)
            | Raise e =>
                if is_exception e
                then logbook_failed lb (Op.name op) states (str e)
                else lb
            end) <$> logbook,
     r).
Proof.
  unfold Op_call.
  destruct (OpFunction.apply op forward (VState <$> states) h) as [h' [res|e]];
    destruct logbook as [lb|]; simpl; try done.
  - fold (result_nodes res). by rewrite record_outputs_all.
  - by destruct (is_exception e).
  - by destruct (is_exception e).
Qed.

(** X2. The logbook is an observer: [Op.__call__] returns (or raises) what
    [apply] does and leaves the store that [apply] leaves, with or without
    a logbook.  The logbook gets, when the call returns, one [completed]
    record per returned node, in order, each with the name of the
    operation and the inputs of the call, and the returned nodes at the
    end of the node list; when the call raises an [Exception], one
    [failed] record with [str(e)] and no node; and when it raises what is
    not an [Exception], nothing: [except Exception] does not catch it. *)
Theorem X2_call_logbook_effect
    (op : Op.t) (forward : forward_fn) (states : list addr)
    (lb : Logbook.t) (h : heap) :
  let call := OpFunction.apply op forward (VState <$> states) h in
  Op_call op forward states None h = (call.1, None, call.2)
  ∧ Op_call op forward states (Some lb) h =
      (call.1,
       Some match call.2 with
            | Ok res => logbook_completed lb (Op.name op) states
                                          (result_nodes res)
            | Raise e =>
                if is_exception e
                then logbook_failed lb (Op.name op) states (str e)
                else lb
            end,
       call.2).
Proof.
  simpl. rewrite !Op_call_apply.
  by destruct (OpFunction.apply op forward (VState <$> states) h) as [h' r].
Qed.

(** X3. An operation that returns the empty list succeeds with the empty
    list as result: nothing is stamped, and with a logbook nothing at all
    is recorded, neither a record nor a node. *)
Theorem X3_empty_output
    (op : Op.t) (forward : forward_fn) (states : list addr)
    (lb : Logbook.t) (h h1 : heap) :
  forward states h = (h1, Ok (FList [])) →
  OpFunction.apply op forward (VState <$> states) h = (h1, Ok (RList []))
  ∧ Op_call op forward states (Some lb) h = (h1, Some lb, Ok (RList [])).
Proof.
  intros Hfw.
  assert (OpFunction.apply op forward (VState <$> states) h
          = (h1, Ok (RList []))) as Happly.
  { by rewrite (apply_forward_returns _ _ _ _ _ _ _ (check_inputs_states _) Hfw). }
  split; [done|]. rewrite Op_call_apply, Happly. simpl.
  unfold logbook_completed. simpl. rewrite !app_nil_r. by destruct lb.
Qed.

Lemma X3_empty_output_witness :
  Op_call Scenario.Op1 (λ _ h, (h, Ok (FList []))) [0]
          (Some Scenario.empty_logbook) Scenario.store_A
  = (Scenario.store_A, Some Scenario.empty_logbook, Ok (RList [])).
Proof.
  apply (X3_empty_output Scenario.Op1 (λ _ h, (h, Ok (FList []))) [0]
           Scenario.empty_logbook Scenario.store_A Scenario.store_A eq_refl).
Defined.

Lemma terminal_completed (op_name : string) (states : list addr) (b : addr) :
  terminal_record (completed_record op_name states b).
Proof. unfold terminal_record. simpl. eauto. Qed.

Lemma terminal_failed (op_name : string) (states : list addr) (e : string) :
  terminal_record (failed_record op_name states e).
Proof. unfold terminal_record. simpl. eauto. Qed.

Lemma logbook_completed_ok (lb : Logbook.t) (op_name : string)
    (states outs : list addr) :
  logbook_ok lb → logbook_ok (logbook_completed lb op_name states outs).
Proof.
  intros [Hterm Hout]. split; simpl.
  - apply Forall_app. split; [done|]. apply Forall_fmap, Forall_forall.
    intros b _. apply terminal_completed.
  - apply Forall_app. split.
    + eapply Forall_impl; [exact Hout|]. intros r Hr b Hb.
      apply elem_of_app. left. by apply Hr.
    + apply Forall_fmap, Forall_forall. intros b Hb b' [= <-].
      apply elem_of_app. by right.
Qed.

Lemma logbook_failed_ok (lb : Logbook.t) (op_name : string)
    (states : list addr) (e : string) :
  logbook_ok lb → logbook_ok (logbook_failed lb op_name states e).
Proof.
  intros [Hterm Hout]. split; simpl.
  - apply Forall_app. split; [done|]. apply Forall_singleton, terminal_failed.
  - apply Forall_app. split; [done|]. by apply Forall_singleton.
Qed.

(** X4. The logbook only grows, and it stays well formed: a call of
    [record] that returns, and every [Op.__call__] with the logbook,
    leaves the old records and nodes as a prefix of the new ones; every
    record stays terminal ([completed] with an output and no error text,
    or [failed] with an error text and no output, never [started]) and
    the output of every record is in the node list.  A new logbook is
    well formed. *)
Theorem X4_logbook_grows
    (lb : Logbook.t) (bubble : option addr) (op_name : option string)
    (inputs : option (list addr)) (error : option string)
    (op : Op.t) (forward : forward_fn) (states : list addr) (h : heap) :
  logbook_ok lb →
  (∀ lb', Logbook.record lb bubble op_name inputs error = Ok lb' →
          logbook_ok lb'
          ∧ Logbook.op_records lb `prefix_of` Logbook.op_records lb'
          ∧ Logbook.bubbles lb `prefix_of` Logbook.bubbles lb')
  ∧ (∀ lb', (Op_call op forward states (Some lb) h).1.2 = Some lb' →
            logbook_ok lb'
            ∧ Logbook.op_records lb `prefix_of` Logbook.op_records lb'
            ∧ Logbook.bubbles lb `prefix_of` Logbook.bubbles lb')
  ∧ (∀ name verbose, logbook_ok (Logbook.init name verbose)).
Proof.
  intros Hok. split; [|split].
  - intros lb'. unfold Logbook.record.
    destruct op_name as [n|]; [destruct inputs as [ins|]; [|done]|];
      destruct bubble as [b|]; [| destruct error as [e|]; [|done] | |done];
      intros [= <-].
    + split; [apply (logbook_completed_ok lb n ins [b] Hok)|].
      split; by apply prefix_app_r.
    + split; [apply (logbook_failed_ok lb n ins e Hok)|].
      split; [by apply prefix_app_r|done].
    + destruct Hok as [Hterm Hout]. split; [|split; [done|by apply prefix_app_r]].
      split; [done|]. simpl. eapply Forall_impl; [exact Hout|].
      intros r Hr b' Hb'. apply elem_of_app. left. by apply Hr.
  - intros lb'. rewrite Op_call_apply.
    destruct (OpFunction.apply op forward (VState <$> states) h)
      as [h' [res|e]]; simpl; intros [= <-].
    + split; [by apply logbook_completed_ok|]. split; by apply prefix_app_r.
    + destruct (is_exception e); [|done].
      split; [by apply logbook_failed_ok|]. split; [by apply prefix_app_r|done].
  - intros name verbose. split; apply Forall_nil_2.
Qed.

Lemma X4_logbook_grows_witness :
  logbook_ok Run.chain.2
  ∧ Logbook.op_records Run.start.2 `prefix_of` Logbook.op_records Run.chain.2.
Proof.
  assert (logbook_ok Run.start.2) as Hstart.
  { split; apply Forall_nil_2. }
  destruct (X4_logbook_grows Run.start.2 None None None None Scenario.Op1
              (Scenario.forward_new "B") [0] Scenario.store_A Hstart)
    as (_ & Hcall & _).
  destruct (Hcall _ eq_refl) as (Hok1 & _ & _).
  destruct (X4_logbook_grows _ None None None None Scenario.Op2
              (Scenario.forward_new "C") [1]
              (Run.call Scenario.Op1 (Scenario.forward_new "B") [0] Run.start).1
              Hok1)
    as (_ & Hcall2 & _).
  destruct (Hcall2 _ eq_refl) as (Hok2 & _ & _).
  split; [exact Hok2|]. by exists (Logbook.op_records Run.chain.2).
Defined.

(** * Further properties: nodes *)

Lemma closed_heap_insert (h : heap) (a : addr) (st : State.t) :
  closed_heap h →
  Forall (λ b, b < length h) (State.inputs st) →
  closed_heap (<[a := st]> h).
Proof.
  intros Hclosed Hst. unfold closed_heap. rewrite length_insert.
  apply Forall_insert; done.
Qed.

Lemma closed_heap_stamp (op : Op.t) (ins : list addr) (a : addr) (h : heap) :
  closed_heap h → Forall (λ b, b < length h) ins →
  closed_heap (OpFunction.stamp op ins a h).
Proof.
  intros Hclosed Hins. unfold OpFunction.stamp.
  destruct (h !! a) as [st|]; [|done].
  destruct (State.creator_op st); [done|]. by apply closed_heap_insert.
Qed.

(** X5. An operation that returns one of its own inputs, when that node
    has no producing operation yet, makes the node its own input: [apply]
    stamps it with the inputs of the call, the node among them.  The graph
    then has a cycle that was made by the wiring itself, and [backward]
    from the node ends in a marker. *)
Theorem X5_returned_input_becomes_own_input
    (op : Op.t) (forward : forward_fn) (ins : list addr) (h h1 : heap)
    (a : addr) (st : State.t) :
  forward ins h = (h1, Ok (FSingle (VState a))) →
  h1 !! a = Some st →
  State.creator_op st = None →
  a ∈ ins →
  closed_heap h1 →
  Forall (λ b, b < length h1) ins →
  let h2 := (OpFunction.apply op forward (VState <$> ins) h).1 in
  (∃ st2, h2 !! a = Some st2
     ∧ State.creator_op st2 = Some op ∧ State.inputs st2 = ins)
  ∧ input_edge h2 a a
  ∧ ∃ ls, StateOps.backward_lines h2 a None = Some ls
      ∧ ∃ l, l ∈ ls ∧ StateOps.is_marker l = true.
Proof.
  intros Hfw Hst Hnone Hin Hclosed Hins h2. subst h2.
  rewrite (apply_heap _ _ _ _ _ _ _ (check_inputs_states _) Hfw). simpl.
  pose proof (stamp_absent op ins a h1 st Hst Hnone) as Hst2.
  assert (input_edge (OpFunction.stamp op ins a h1) a a) as Hedge.
  { eexists. split; [exact Hst2|done]. }
  split; [eexists; split; [exact Hst2|done]|]. split; [done|].
  pose proof (closed_heap_stamp op ins a h1 Hclosed Hins) as Hclosed2.
  assert (a < length (OpFunction.stamp op ins a h1)) as Ha.
  { eapply lookup_lt_Some, Hst2. }
  destruct (build_tree_total _ None (S (length (OpFunction.stamp op ins a h1)))
              Hclosed2 a 0 ∅ Ha) as [[ls v] Hrun].
  { apply Nat.lt_succ_r. etrans; [apply subseteq_size|].
    - apply subseteq_difference_l. reflexivity.
    - unfold addresses. by rewrite size_set_seq. }
  exists ls. unfold StateOps.backward_lines. rewrite Hrun. split; [done|].
  eapply build_tree_marker; [exact Hrun|].
  exists a. split; [done|]. right. by apply tc_once.
Qed.

Lemma X5_returned_input_becomes_own_input_witness :
  let h2 := (OpFunction.apply Scenario.Op1 (Scenario.forward_same 0)
               [VState 0] Scenario.store_A).1 in
  input_edge h2 0 0
  ∧ ∃ ls, StateOps.backward_lines h2 0 None = Some ls
      ∧ ∃ l, l ∈ ls ∧ StateOps.is_marker l = true.
Proof.
  refine (proj2 (X5_returned_input_becomes_own_input Scenario.Op1
                   (Scenario.forward_same 0) [0] Scenario.store_A
                   Scenario.store_A 0 _ eq_refl eq_refl eq_refl
                   (list_elem_of_here _ _) _ _)).
  - repeat constructor.
  - repeat constructor.
Defined.

Lemma closed_heap_init (h : heap) (payload : Payload)
    (creator_op : option Op.t) (inps : list addr) (can_trace : bool)
    (note : string) :
  closed_heap h → Forall (λ b, b < length h) inps →
  closed_heap (StateOps.init h payload creator_op (Some inps) can_trace note).1.
Proof.
  intros Hclosed Hinps. unfold closed_heap. simpl. rewrite length_app. simpl.
  apply Forall_app. split.
  - eapply Forall_impl; [exact Hclosed|]. intros st Hst.
    eapply Forall_impl; [exact Hst|]. intros b Hb. simpl in *. lia.
  - apply Forall_singleton. simpl.
    eapply Forall_impl; [exact Hinps|]. intros b Hb. simpl in *. lia.
Qed.

(** X6. [detach] builds a new origin node and touches nothing else: the
    node is at a fresh address, every node of the store is as it was, the
    new node has the payload of the source, no producing operation, no
    inputs, [can_trace] off and the note of the source after ["Detached
    from "]; it answers [is_origin()] with [True] whether or not the
    source was stamped, and its [backward] text is its own line alone,
    whatever ancestors the source has. *)
Theorem X6_detach
    (h : heap) (self : addr) (st : State.t) :
  h !! self = Some st →
  ∃ h' a st',
    StateOps.detach h self = Some (h', a)
    ∧ a = length h
    ∧ (∀ b, b < length h → h' !! b = h !! b)
    ∧ h' !! a = Some st'
    ∧ st' = State.mk (State.payload st) None [] false
                     ("Detached from " +:+ State.note st) None
    ∧ StateOps.is_origin st' = Ok true
    ∧ StateOps.get_source st' = Ok "原始输入"
    ∧ origin_invariant st'
    ∧ StateOps.backward_lines h' a None = Some [StateOps.Bubble 0 a st'].
Proof.
  intros Hst. unfold StateOps.detach. rewrite Hst. simpl.
  eexists _, _, _. split; [done|]. split; [done|].
  split; [intros b Hb; by rewrite lookup_app_l|].
  assert ((h ++ [State.mk (State.payload st) None [] false
                            ("Detached from " +:+ State.note st) None])
            !! length h
          = Some (State.mk (State.payload st) None [] false
                           ("Detached from " +:+ State.note st) None)) as Hnew.
  { by rewrite lookup_app_r, Nat.sub_diag. }
  split; [exact Hnew|]. split; [done|]. split; [done|]. split; [done|].
  split; [done|]. unfold StateOps.backward_lines.
  rewrite build_tree_unfold. simpl. by rewrite Hnew.
Qed.

Lemma X6_detach_witness :
  ∃ h' a, StateOps.detach Run.chain.1 2 = Some (h', a)
    ∧ a = 3
    ∧ ∃ st', h' !! a = Some st' ∧ StateOps.is_origin st' = Ok true
        ∧ StateOps.backward_lines h' a None = Some [StateOps.Bubble 0 a st'].
Proof.
  destruct (X6_detach Run.chain.1 2 _ eq_refl)
    as (h' & a & st' & Hd & Ha & _ & Hl & _ & Ho & _ & _ & Hb).
  exists h', a. split; [exact Hd|]. split; [exact Ha|].
  exists st'. split; [exact Hl|]. split; [exact Ho|exact Hb].
Defined.

(** X7. [clone] builds a new node with the payload, producing operation,
    inputs, [can_trace] and (after ["Cloned from "]) note of the source,
    at a fresh address, and touches nothing else; references stay inside
    the store.  The copy does not carry the [is_origin] attribute that
    [apply] sets, so [is_origin()] on the copy returns whether it has a
    producing operation, and [get_source()] returns a description, also
    when the source was stamped by [apply]. *)
Theorem X7_clone
    (h : heap) (self : addr) (st : State.t) :
  h !! self = Some st →
  closed_heap h →
  ∃ h' a st',
    StateOps.clone h self = Some (h', a)
    ∧ a = length h
    ∧ (∀ b, b < length h → h' !! b = h !! b)
    ∧ h' !! a = Some st'
    ∧ st' = State.mk (State.payload st) (State.creator_op st)
                     (State.inputs st) (State.can_trace st)
                     ("Cloned from " +:+ State.note st) None
    ∧ closed_heap h'
    ∧ StateOps.is_origin st' = Ok (bool_decide (State.creator_op st = None))
    ∧ ∃ s, StateOps.get_source st' = Ok s.
Proof.
  intros Hst Hclosed. unfold StateOps.clone. rewrite Hst. simpl.
  eexists _, _, _. split; [done|]. split; [done|].
  split; [intros b Hb; by rewrite lookup_app_l|].
  split; [by rewrite lookup_app_r, Nat.sub_diag|]. split; [done|].
  split.
  - apply (closed_heap_init h _ _ (State.inputs st) _ _ Hclosed).
    apply Forall_forall. by eapply closed_heap_inputs.
  - exact (is_origin_fresh
             (State.mk (State.payload st) (State.creator_op st)
                       (State.inputs st) (State.can_trace st)
                       ("Cloned from " +:+ State.note st) None) eq_refl).
Qed.

Lemma X7_clone_witness :
  ∃ h' a st', StateOps.clone Run.chain.1 2 = Some (h', a)
    ∧ h' !! a = Some st'
    ∧ StateOps.is_origin st' = Ok false
    ∧ (State.is_origin_attr <$> Run.chain.1 !! 2) = Some (Some false).
Proof.
  assert (closed_heap Run.chain.1) as Hclosed.
  { repeat (constructor; try (simpl; lia)). }
  destruct (X7_clone Run.chain.1 2 _ eq_refl Hclosed)
    as (h' & a & st' & Hc & _ & _ & Hl & _ & _ & Ho & _).
  exists h', a, st'. split; [exact Hc|]. split; [exact Hl|].
  split; [exact Ho|reflexivity].
Defined.

(** * Further properties: the walk over the input pointers *)

(** X8. [backward] renders a node at most once, whatever the graph and the
    depth limit: because all calls share one [visited] set, the rendered
    lines are about pairwise different nodes (every further arrival at a
    node gives a marker line), so the text has at most as many rendered
    lines as the store has nodes. *)
Theorem X8_backward_renders_once
    (h : heap) (self : addr) (max_depth : option Z) :
  closed_heap h → self < length h →
  ∃ ls, StateOps.backward_lines h self max_depth = Some ls
    ∧ StateOps.backward h self max_depth =
        Some (StateOps.join_lines (StateOps.show <$> ls))
    ∧ NoDup (rendered ls) ∧ (length (rendered ls) ≤ length h)%nat.
Proof.
  intros Hclosed Hself.
  destruct (backward_lines_total h self max_depth Hclosed Hself)
    as (ls & Hls & Htext).
  exists ls. split; [done|]. split; [done|]. revert Hls.
  unfold StateOps.backward_lines.
  destruct (StateOps.build_tree_lines _ _ _ _ _ _) as [[out v]|] eqn:Hrun;
    [|done].
  intros [= <-]. apply build_tree_visited in Hrun as (_ & Hnd & _ & Hlt).
  split; [done|].
  assert (rendered out ⊆+ seq 0 (length h)) as Hsub.
  { apply NoDup_submseteq; [done|]. intros x Hx. apply elem_of_seq.
    specialize (Hlt x Hx). lia. }
  apply submseteq_length in Hsub. by rewrite length_seq in Hsub.
Qed.

Lemma X8_backward_renders_once_witness :
  ∃ ls, StateOps.backward_lines Run.diamond.1 3 None = Some ls
    ∧ NoDup (rendered ls) ∧ (length (rendered ls) ≤ 4)%nat.
Proof.
  assert (closed_heap Run.diamond.1) as Hclosed.
  { repeat (constructor; try (simpl; lia)). }
  assert (3 < length Run.diamond.1) as Hself by (simpl; lia).
  destruct (X8_backward_renders_once Run.diamond.1 3 None Hclosed Hself)
    as (ls & Hls & _ & Hnd & Hlen).
  exists ls. split; [exact Hls|]. split; [exact Hnd|exact Hlen].
Defined.

(** Without a depth limit, the node of a call is in [visited] when the
    call returns, and so are the inputs of every node that the call has
    added. *)
Lemma build_tree_closed (h : heap) (fuel : nat) :
  ∀ (state : addr) (depth : nat) (visited v' : gset addr)
    (out : list StateOps.line),
    StateOps.build_tree_lines fuel h None state depth visited
      = Some (out, v') →
    state ∈ v'
    ∧ (∀ x y, x ∈ v' → x ∉ visited → input_edge h x y → y ∈ v')
    ∧ (∀ x, x ∈ rendered out → rtc (input_edge h) state x).
Proof.
  induction fuel as [|fuel IH]; intros state depth visited v' out Hrun; [done|].
  pose proof (build_tree_mono _ _ _ _ _ _ _ _ Hrun) as Hmono.
  apply build_tree_inv in Hrun
    as [(-> & -> & [Hvis|Hdeep])
       |(fuel' & st & below & [= <-] & Hnot & _ & Hst & Heach & ->)];
    [|done|].
  { split; [done|]. split; [done|]. intros x []%elem_of_nil. }
  assert (∀ inps v v2 ls,
            StateOps.each_lines
              (λ inp, StateOps.build_tree_lines fuel h None inp (S depth))
              inps v = Some (ls, v2) →
            v ⊆ v2
            ∧ (∀ b, b ∈ inps → b ∈ v2)
            ∧ (∀ x y, x ∈ v2 → x ∉ v → input_edge h x y → y ∈ v2)
            ∧ (∀ x, x ∈ rendered ls →
                    ∃ b, b ∈ inps ∧ rtc (input_edge h) b x)) as Hloop.
  { induction inps as [|inp rest IHl]; intros v v2 ls Hl.
    - injection Hl as <- <-. split; [done|].
      split; [intros b []%elem_of_nil|]. split; [done|].
      intros x []%elem_of_nil.
    - apply each_cons_inv in Hl as (ls1 & v1 & more & Hc & Hr & ->).
      pose proof (build_tree_mono _ _ _ _ _ _ _ _ Hc) as Hsub1.
      apply IH in Hc as (Hin1 & Hcl1 & Hreach1).
      apply IHl in Hr as (Hsub2 & Hin2 & Hcl2 & Hreach2).
      split; [by etrans|]. split; [|split].
      + intros b [->|Hb]%elem_of_cons; [by apply Hsub2|by apply Hin2].
      + intros x y Hx Hnv Hedge. destruct (decide (x ∈ v1)) as [Hx1|Hx1].
        * apply Hsub2. by eapply Hcl1.
        * by eapply Hcl2.
      + rewrite rendered_app. intros x [Hx|Hx]%elem_of_app.
        * exists inp. split; [apply list_elem_of_here|by apply Hreach1].
        * destruct (Hreach2 x Hx) as (b & Hb & Hway).
          exists b. split; [by apply list_elem_of_further|done]. }
  apply Hloop in Heach as (Hsub & Hin & Hcl & Hreach).
  assert (state ∈ v') as Hstate.
  { apply Hsub, elem_of_union. left. by apply elem_of_singleton. }
  split; [done|]. split.
  - intros x y Hx Hnv Hedge. destruct (decide (x = state)) as [->|Hne].
    + destruct Hedge as (st' & Hst' & Hy). rewrite Hst in Hst'.
      injection Hst' as <-. by apply Hin.
    + eapply Hcl; [exact Hx| |exact Hedge].
      intros [->%elem_of_singleton|?]%elem_of_union; done.
  - change (rendered (StateOps.Bubble depth state st :: below))
      with (state :: rendered below).
    intros x [->|Hx]%elem_of_cons; [done|].
    destruct (Hreach x Hx) as (b & Hb & Hway).
    eapply rtc_l; [|exact Hway]. by exists st.
Qed.

(** X9. Without [max_depth], [backward] renders exactly the ancestors: a
    node has a rendered line in the text if and only if it can be reached
    from the start node through [inputs] (the start node included), and
    by X8 it has one such line. *)
Theorem X9_backward_renders_ancestors (h : heap) (self : addr) :
  closed_heap h → self < length h →
  ∃ ls, StateOps.backward_lines h self None = Some ls
    ∧ ∀ c, c ∈ rendered ls ↔ rtc (input_edge h) self c.
Proof.
  intros Hclosed Hself.
  destruct (backward_lines_total h self None Hclosed Hself) as (ls & Hls & _).
  exists ls. split; [done|]. revert Hls. unfold StateOps.backward_lines.
  destruct (StateOps.build_tree_lines _ _ _ _ _ _) as [[out v]|] eqn:Hrun;
    [|done].
  intros [= <-] c.
  pose proof (build_tree_visited _ _ _ _ _ _ _ _ Hrun) as (Hv & _ & _ & _).
  apply build_tree_closed in Hrun as (Hstart & Hcl & Hreach).
  split; [apply Hreach|]. intros Hway.
  assert (c ∈ v) as Hc.
  { clear Hreach Hv Hself. induction Hway as [x|x y z Hxy _ IHw]; [done|].
    apply IHw. eapply Hcl; [exact Hstart| |exact Hxy].
    apply not_elem_of_empty. }
  apply Hv in Hc as [[]%elem_of_empty|Hc]. done.
Qed.

Lemma X9_backward_renders_ancestors_witness :
  ∃ ls, StateOps.backward_lines Run.diamond.1 3 None = Some ls
    ∧ (0 ∈ rendered ls ↔ rtc (input_edge Run.diamond.1) 3 0).
Proof.
  assert (closed_heap Run.diamond.1) as Hclosed.
  { repeat (constructor; try (simpl; lia)). }
  assert (3 < length Run.diamond.1) as Hself by (simpl; lia).
  destruct (X9_backward_renders_ancestors Run.diamond.1 3 Hclosed Hself)
    as (ls & Hls & Hiff).
  exists ls. split; [exact Hls|apply Hiff].
Defined.

(** * Further properties: the walk over the records *)

(** X10. [display] reports no false cycle: on a logbook without dangling
    references it returns, and a cycle marker is only ever on a node that
    is its own ancestor in the records.  So when no node of the records is
    its own ancestor and no [count] is given, no line of the text is a
    marker. *)
Theorem X10_display_cycle_marker_is_a_cycle
    (self : Logbook.t) (h : heap) (from_bubble : addr) (count : option Z) :
  closed_ledger h (Logbook.op_records self) →
  from_bubble < length h →
  ∃ ls, Logbook.trace_lines self h from_bubble count = Some ls
    ∧ (∀ l a n, l ∈ ls → Logbook.what l = Logbook.Cycle a n →
                tc (record_edge (Logbook.op_records self)) a a)
    ∧ ((∀ a, ¬ tc (record_edge (Logbook.op_records self)) a a) →
       count = None →
       ∀ l, l ∈ ls → is_cycle_line l = false ∧ is_depth_line l = false).
Proof.
  intros Hclosed Hstart.
  destruct (trace_lines_total self h from_bubble count Hclosed Hstart)
    as (ls & Hls & _).
  exists ls. split; [done|].
  assert (∀ l a n, l ∈ ls → Logbook.what l = Logbook.Cycle a n →
                   tc (record_edge (Logbook.op_records self)) a a) as Hcycle.
  { intros l a n Hl Hw.
    eapply (trace_tree_cycle_line h (Logbook.op_records self) count);
      [exact Hls| |exact Hl|exact Hw].
    intros v []%elem_of_empty. }
  split; [done|]. intros Hacyclic -> l Hl. split.
  - unfold is_cycle_line. destruct (Logbook.what l) as [| |a n|] eqn:Hw; try done.
    by destruct (Hacyclic a (Hcycle l a n Hl Hw)).
  - by eapply (trace_tree_no_depth_line h (Logbook.op_records self) None _
                 (λ _, eq_refl)).
Qed.

Lemma X10_display_cycle_marker_is_a_cycle_witness :
  ∃ ls, Logbook.trace_lines Run.diamond.2 Run.diamond.1 3 None = Some ls
    ∧ ∀ l a n, l ∈ ls → Logbook.what l = Logbook.Cycle a n →
               tc (record_edge (Logbook.op_records Run.diamond.2)) a a.
Proof.
  assert (closed_ledger Run.diamond.1 (Logbook.op_records Run.diamond.2))
    as Hclosed.
  { repeat (constructor; try (simpl; lia)). }
  assert (3 < length Run.diamond.1) as Hstart by (simpl; lia).
  destruct (X10_display_cycle_marker_is_a_cycle Run.diamond.2 Run.diamond.1 3
              None Hclosed Hstart) as (ls & Hls & Hcycle & _).
  exists ls. split; [exact Hls|exact Hcycle].
Defined.

(** X11. The depth limit of [backward], for [max_depth = k] with [k >= 0].
    The walk returns and its first line renders the start node.  A line
    at level [d] is about a node [d] inputs away from the start; rendered
    lines are at level [k] at most and markers at level [k + 1] at most.
    Every input of a rendered node has a line one level below it,
    rendered or marker; a marker that is not below level [k] is on a node
    that is rendered elsewhere in the text, and every input of a node rendered
    at level [k] has the marker, at level [k + 1].  ([display] with
    [count = k] stops one level earlier, see X12.) *)
Theorem X11_backward_max_depth
    (h : heap) (self : addr) (k : Z) :
  closed_heap h → self < length h → (0 ≤ k)%Z →
  ∃ ls st rest,
    StateOps.backward_lines h self (Some k) = Some ls
    ∧ h !! self = Some st
    ∧ ls = StateOps.Bubble 0 self st :: rest
    ∧ (∀ l, l ∈ ls →
         nsteps (input_edge h) (StateOps.line_depth l) self (line_addr l)
         ∧ (Z.of_nat (StateOps.line_depth l) ≤ k + 1)%Z
         ∧ (StateOps.is_marker l = false →
            (Z.of_nat (StateOps.line_depth l) ≤ k)%Z))
    ∧ (∀ d a st' b, StateOps.Bubble d a st' ∈ ls → b ∈ State.inputs st' →
         (∃ st2, StateOps.Bubble (S d) b st2 ∈ ls)
         ∨ StateOps.Marker (S d) b ∈ ls)
    ∧ (∀ d a, StateOps.Marker d a ∈ ls → (Z.of_nat d ≤ k)%Z →
              a ∈ rendered ls)
    ∧ (∀ a st' b, StateOps.Bubble (Z.to_nat k) a st' ∈ ls →
                  b ∈ State.inputs st' →
                  StateOps.Marker (S (Z.to_nat k)) b ∈ ls).
Proof.
  intros Hclosed Hself Hk.
  destruct (backward_lines_total h self (Some k) Hclosed Hself)
    as (ls & Hls & _).
  revert Hls. unfold StateOps.backward_lines.
  destruct (StateOps.build_tree_lines _ _ _ _ _ _) as [[out v]|] eqn:Hrun;
    [|done].
  intros [= <-].
  pose proof (build_tree_lines_shape _ _ _ _ _ _ _ _ Hrun)
    as (Hsteps & Hsts & Hmark & Hin).
  pose proof (build_tree_visited _ _ _ _ _ _ _ _ Hrun) as (Hv & _ & _ & _).
  destruct (build_tree_first _ _ _ _ _ _ _ _ Hrun)
    as [->|(st & rest & Hst & _ & ->)].
  { destruct (Hmark 0 self (list_elem_of_here _ _)) as [Hdeep|Hvis].
    - apply bool_decide_eq_true in Hdeep. simpl in Hdeep. lia.
    - apply Hv in Hvis as [[]%elem_of_empty|[]%elem_of_nil]. }
  exists (StateOps.Bubble 0 self st :: rest), st, rest.
  split; [done|]. split; [done|]. split; [done|].
  split; [|split; [done|split]].
  - intros l Hl. split.
    + destruct (Hsteps l Hl) as (n & -> & Hn). exact Hn.
    + eapply build_tree_depth_bound; [exact Hrun|simpl; lia|exact Hl].
  - intros d a Hl Hd. destruct (Hmark d a Hl) as [Hdeep|Hvis].
    + apply bool_decide_eq_true in Hdeep. lia.
    + by apply Hv in Hvis as [[]%elem_of_empty|Hvis].
  - intros a st' b Hl Hb.
    destruct (build_tree_inputs _ _ _ _ _ _ _ _ Hrun _ _ _ _ Hl Hb)
      as (l & Hl' & _ & Hm).
    rewrite <- Hm; [done|]. simpl. apply bool_decide_eq_true. lia.
Qed.

Lemma X11_backward_max_depth_witness :
  ∃ ls st rest,
    StateOps.backward_lines Run.chain.1 2 (Some 1%Z) = Some ls
    ∧ ls = StateOps.Bubble 0 2 st :: rest
    ∧ ∀ l, l ∈ ls → StateOps.is_marker l = false →
           (Z.of_nat (StateOps.line_depth l) ≤ 1)%Z.
Proof.
  assert (closed_heap Run.chain.1) as Hclosed.
  { repeat (constructor; try (simpl; lia)). }
  assert (2 < length Run.chain.1) as Hself by (simpl; lia).
  destruct (X11_backward_max_depth Run.chain.1 2 1 Hclosed Hself ltac:(lia))
    as (ls & st & rest & Hls & _ & Hhead & Hbound & _).
  exists ls, st, rest. split; [exact Hls|]. split; [exact Hhead|].
  intros l Hl. apply (Hbound l Hl).
Defined.

(** X12. The depth limit of [display], for [count = k] with [k > 0]: the
    walk returns; only nodes fewer than [k] levels from the start are
    rendered, and no line is more than [k] levels down. *)
Theorem X12_display_count
    (self : Logbook.t) (h : heap) (from_bubble : addr) (k : Z) :
  closed_ledger h (Logbook.op_records self) →
  from_bubble < length h → (0 < k)%Z →
  ∃ ls, Logbook.trace_lines self h from_bubble (Some k) = Some ls
    ∧ ∀ l, l ∈ ls →
           (Z.of_nat (Logbook.depth l) ≤ k)%Z
           ∧ (is_depth_line l = false → (Z.of_nat (Logbook.depth l) < k)%Z).
Proof.
  intros Hclosed Hstart Hk.
  destruct (trace_lines_total self h from_bubble (Some k) Hclosed Hstart)
    as (ls & Hls & _).
  exists ls. split; [done|].
  eapply trace_tree_depth_bound; [done|done|exact Hls|]. simpl. lia.
Qed.

Lemma X12_display_count_witness :
  ∃ ls, Logbook.trace_lines Run.chain.2 Run.chain.1 2 (Some 1%Z) = Some ls
    ∧ ∀ l, l ∈ ls → (Z.of_nat (Logbook.depth l) ≤ 1)%Z.
Proof.
  assert (closed_ledger Run.chain.1 (Logbook.op_records Run.chain.2))
    as Hclosed.
  { repeat (constructor; try (simpl; lia)). }
  assert (2 < length Run.chain.1) as Hstart by (simpl; lia).
  destruct (X12_display_count Run.chain.2 Run.chain.1 2 1 Hclosed Hstart
              ltac:(lia)) as (ls & Hls & Hbound).
  exists ls. split; [exact Hls|]. intros l Hl. apply (Hbound l Hl).
Defined.

(** X13. A negative limit hides the start node itself: [backward] with
    [max_depth < 0] returns the marker line for the start node and nothing
    else, and [display] with [count < 0] prints the depth-limit marker and
    nothing else.  Neither looks at the graph. *)
Theorem X13_negative_limit
    (self : Logbook.t) (h : heap) (start : addr) (k : Z) :
  (k < 0)%Z →
  StateOps.backward h start (Some k) =
    Some ("🔄 " +:+ State.bubble_id start +:+ " (循环引用或深度限制)")
  ∧ Logbook.display self h (Some start) (Some k) =
      Some ["📝 Logbook '" +:+ Logbook.name self +:+ "' 计算图追溯:";
            "🔄 深度限制(" +:+ pretty k +:+ ")"].
Proof.
  intros Hk. split.
  - unfold StateOps.backward. simpl.
    rewrite (bool_decide_eq_true_2 (k < Z.of_nat 0)%Z) by (simpl; lia).
    by rewrite orb_true_r.
  - unfold Logbook.display. simpl.
    rewrite (bool_decide_eq_true_2 (k ≠ 0%Z)) by lia.
    by rewrite (bool_decide_eq_true_2 (k ≤ Z.of_nat 0)%Z) by (simpl; lia).
Qed.

Lemma X13_negative_limit_witness :
  StateOps.backward Run.chain.1 2 (Some (-1)%Z) =
    Some "🔄 bubble_2 (循环引用或深度限制)"
  ∧ Logbook.display Run.chain.2 Run.chain.1 (Some 2) (Some (-1)%Z) =
      Some ["📝 Logbook 'default' 计算图追溯:"; "🔄 深度限制(-1)"].
Proof.
  apply (X13_negative_limit Run.chain.2 Run.chain.1 2 (-1)). lia.
Defined.

Lemma find_app_first {A} (f : A → bool) (l1 l2 : list A) :
  find f (l1 ++ l2) =
    match find f l1 with Some x => Some x | None => find f l2 end.
Proof.
  induction l1 as [|x l1 IH]; simpl; [done|]. by destruct (f x).
Qed.

(** X14. [display()] with no start node traces the node recorded last:
    after an [Op.__call__] with the logbook has returned, that is the
    last node of its result.  On a new logbook it prints the line that
    says there are no records, whatever the [count]. *)
Theorem X14_display_default_start
    (op : Op.t) (forward : forward_fn) (states : list addr) (lb lb' : Logbook.t)
    (h h' : heap) (res : apply_ret) (outs : list addr) (b : addr)
    (count : option Z) :
  Op_call op forward states (Some lb) h = (h', Some lb', Ok res) →
  result_nodes res = outs ++ [b] →
  Logbook.display lb' h' None count = Logbook.display lb' h' (Some b) count
  ∧ ∀ name verbose,
      Logbook.display (Logbook.init name verbose) h' None count =
        Some ["📝 Logbook '" +:+ name +:+ "': 无记录"].
Proof.
  rewrite Op_call_apply.
  destruct (OpFunction.apply op forward (VState <$> states) h) as [h1 [res1|e]];
    simpl; [|done].
  intros [= <- <- <-] Hres. split; [|done].
  unfold Logbook.display. simpl.
  by rewrite Hres, app_assoc, last_snoc.
Qed.

Lemma X14_display_default_start_witness :
  Logbook.display Run.chain.2 Run.chain.1 None None =
  Logbook.display Run.chain.2 Run.chain.1 (Some 2) None.
Proof.
  apply (X14_display_default_start Scenario.Op2 (Scenario.forward_new "C") [1]
           (Run.call Scenario.Op1 (Scenario.forward_new "B") [0] Run.start).2
           Run.chain.2
           (Run.call Scenario.Op1 (Scenario.forward_new "B") [0] Run.start).1
           Run.chain.1 (RSingle 2) [] 2 None eq_refl eq_refl).
Defined.

(** X15. How a produced node is traced.  After a call of [op] on [states]
    with the logbook has returned the single node [b]: if no earlier record
    has [b] as output, the record found for [b] is the one of this call,
    and the text of [display(b)] starts with the line of the operation and
    [b]; if an earlier record has [b] as output (the operation returned a
    node that was recorded before), that earlier record is still the one
    found: the first record of a node wins. *)
Theorem X15_display_after_call
    (op : Op.t) (forward : forward_fn) (states : list addr) (lb lb' : Logbook.t)
    (h h' : heap) (b : addr) (st : State.t) :
  Op_call op forward states (Some lb) h = (h', Some lb', Ok (RSingle b)) →
  h' !! b = Some st →
  closed_ledger h' (Logbook.op_records lb) →
  Forall (λ a, a < length h') states →
  (∀ r, Logbook.producing_record (Logbook.op_records lb) b = Some r →
        Logbook.producing_record (Logbook.op_records lb') b = Some r)
  ∧ (Logbook.producing_record (Logbook.op_records lb) b = None →
     Logbook.producing_record (Logbook.op_records lb') b
       = Some (completed_record (Op.name op) states b)
     ∧ ∃ below,
         Logbook.trace_lines lb' h' b None =
           Some (Logbook.mk_line "" 0
                   (Logbook.Produced (Op.name op) b (State.note st))
                 :: below)).
Proof.
  rewrite Op_call_apply.
  destruct (OpFunction.apply op forward (VState <$> states) h) as [h1 [res1|e]];
    simpl; [|done].
  intros [= <- <- ->] Hst Hclosed Hstates.
  unfold Logbook.producing_record. simpl. split.
  - intros r Hr. by rewrite find_app_first, Hr.
  - intros Hnone.
    assert (find (λ r, bool_decide (OpRecord.output r = Some b))
              (Logbook.op_records lb ++ [completed_record (Op.name op) states b])
            = Some (completed_record (Op.name op) states b)) as Hfind.
    { rewrite find_app_first, Hnone. simpl. by rewrite bool_decide_eq_true_2. }
    split; [done|].
    assert (closed_ledger h1
              (Logbook.op_records
                 (logbook_completed lb (Op.name op) states [b]))) as Hclosed'.
    { apply Forall_app. split; [done|]. by apply Forall_singleton. }
    destruct (trace_lines_total _ h1 b None Hclosed')
      as (ls & Hls & _); [by eapply lookup_lt_Some|].
    unfold Logbook.trace_lines in *.
    pose proof Hls as Hinv. apply trace_tree_inv in Hinv
      as [(c & Hc & _)
         |(_ & st' & Hst'
           & [([]%elem_of_empty & _)
             |[(_ & Hrec & _)
              |(_ & fuel' & r & below & _ & Hrec & _ & ->)]])].
    + done.
    + unfold Logbook.producing_record in Hrec. simpl in Hrec.
      by rewrite Hfind in Hrec.
    + unfold Logbook.producing_record in Hrec. simpl in Hrec.
      rewrite Hfind in Hrec. injection Hrec as <-.
      rewrite Hst in Hst'. injection Hst' as <-. by exists below.
Qed.

Lemma X15_display_after_call_witness :
  Logbook.producing_record (Logbook.op_records Run.chain.2) 2
    = Some (completed_record "Op2" [1] 2)
  ∧ ∃ below,
      Logbook.trace_lines Run.chain.2 Run.chain.1 2 None =
        Some (Logbook.mk_line "" 0 (Logbook.Produced "Op2" 2 "C") :: below).
Proof.
  refine (proj2 (X15_display_after_call Scenario.Op2 (Scenario.forward_new "C")
                   [1]
                   (Run.call Scenario.Op1 (Scenario.forward_new "B") [0]
                             Run.start).2
                   Run.chain.2
                   (Run.call Scenario.Op1 (Scenario.forward_new "B") [0]
                             Run.start).1
                   Run.chain.1 2 _ eq_refl eq_refl _ _) eq_refl).
  - repeat (constructor; try (simpl; lia)).
  - repeat (constructor; try (simpl; lia)).
Defined.

(** * Further properties: CompositeOp *)

Lemma stamp_lookup_None (op : Op.t) (ins : list addr) (b a : addr) (h : heap) :
  h !! a = None → OpFunction.stamp op ins b h !! a = None.
Proof.
  intros Hnone. unfold OpFunction.stamp. destruct (h !! b) as [st|]; [|done].
  destruct (State.creator_op st); [done|].
  apply lookup_ge_None. rewrite length_insert. by apply lookup_ge_None.
Qed.

(** Stamping changes nothing when every node stamped has a producing
    operation (or is not in the store). *)
Lemma stamp_all_noop (op : Op.t) (ins outs : list addr) (h : heap) :
  (∀ a st, a ∈ outs → h !! a = Some st → State.creator_op st ≠ None) →
  stamp_all op ins outs h = h.
Proof.
  induction outs as [|b outs IH]; intros Hset; [done|].
  unfold stamp_all. simpl. fold (stamp_all op ins outs).
  assert (OpFunction.stamp op ins b h = h) as ->.
  { unfold OpFunction.stamp. destruct (h !! b) as [st|] eqn:Hst; [|done].
    destruct (State.creator_op st) eqn:Hc; [done|].
    by destruct (Hset b st (list_elem_of_here _ _) Hst). }
  apply IH. intros a st Ha. apply Hset. by apply list_elem_of_further.
Qed.

Lemma wire_ok_inv (op : Op.t) (ins : list addr) (outputs : list value)
    (acc rs : list addr) (h h' : heap) :
  OpFunction.wire op ins outputs acc h = (h', Ok rs) →
  ∃ outs, outputs = VState <$> outs ∧ rs = acc ++ outs
          ∧ h' = stamp_all op ins outs h.
Proof.
  revert acc h. induction outputs as [|[b|ty] rest IH]; intros acc h; simpl.
  - intros [= <- <-]. exists []. by rewrite app_nil_r.
  - intros (outs & -> & -> & ->)%IH. exists (b :: outs).
    by rewrite <- app_assoc.
  - done.
Qed.

Lemma result_nodes_collapse (l : list addr) : result_nodes (collapse l) = l.
Proof. by destruct l as [|a [|b l]]. Qed.

(** After [apply] has returned, every node of the result has a producing
    operation. *)
Lemma apply_ok_stamped (op : Op.t) (forward : forward_fn)
    (inputs : list value) (h h' : heap) (res : apply_ret) :
  OpFunction.apply op forward inputs h = (h', Ok res) →
  ∀ a st, a ∈ result_nodes res → h' !! a = Some st →
          State.creator_op st ≠ None.
Proof.
  unfold OpFunction.apply.
  destruct (OpFunction.check_inputs inputs) as [ins|]; [|done].
  destruct (forward ins h) as [h1 [ret|e]]; [|by destruct (is_exception e)].
  destruct (OpFunction.wire _ _ _ _ _) as [h2 [rs|]] eqn:Hwire; [|done].
  intros [= <- <-] a st Ha Hst.
  apply wire_ok_inv in Hwire as (outs & _ & -> & ->). simpl in *.
  fold (collapse outs) in Ha. rewrite result_nodes_collapse in Ha.
  destruct (h1 !! a) as [st0|] eqn:Hst0.
  - destruct (stamp_all_member op ins outs h1 a st0 Ha Hst0)
      as (st' & Hst' & Hset & _).
    rewrite Hst in Hst'. by injection Hst' as <-.
  - assert (stamp_all op ins outs h1 !! a = None) as Hnone; [|congruence].
    clear Hst Ha. revert h1 Hst0. induction outs as [|b outs IH];
      intros h1 Hst0; [done|].
    unfold stamp_all. simpl. fold (stamp_all op ins outs).
    by apply IH, stamp_lookup_None.
Qed.

Lemma run_app (ops1 ops2 : list (Op.t * forward_fn)) (states : list addr)
    (h : heap) :
  CompositeOp.run (ops1 ++ ops2) states h =
    match CompositeOp.run ops1 states h with
    | (h1, Ok current) => CompositeOp.run ops2 current h1
    | (h1, Raise e) => (h1, Raise e)
    end.
Proof.
  revert states h. induction ops1 as [|[op fw] ops1 IH]; intros states h;
    [done|].
  simpl. destruct (Op_call op fw states None h) as [[h1 lb] [res|e]]; [|done].
  apply IH.
Qed.

(** When the operations of a composite have run, the nodes they return
    have a producing operation. *)
Lemma run_stamped (ops : list (Op.t * forward_fn)) :
  ops ≠ [] →
  ∀ (states : list addr) (h h1 : heap) (outs : list addr),
    CompositeOp.run ops states h = (h1, Ok outs) →
    ∀ a st, a ∈ outs → h1 !! a = Some st → State.creator_op st ≠ None.
Proof.
  induction ops as [|[op fw] ops IH]; [done|]. intros _ states h h1 outs.
  simpl. rewrite Op_call_apply.
  destruct (OpFunction.apply op fw (VState <$> states) h) as [h0 [res|e]]
    eqn:Happly; simpl; [|done].
  destruct ops as [|next ops].
  - simpl. intros [= <- <-]. fold (result_nodes res).
    by eapply apply_ok_stamped.
  - by apply IH.
Qed.

Lemma composite_apply (self : Op.t) (ops : list (Op.t * forward_fn))
    (states : list addr) (h h1 : heap) (outs : list addr) :
  ops ≠ [] →
  CompositeOp.run ops states h = (h1, Ok outs) →
  OpFunction.apply self (CompositeOp.forward ops) (VState <$> states) h
    = (h1, Ok (collapse outs)).
Proof.
  intros Hops Hrun.
  pose proof (run_stamped ops Hops states h h1 outs Hrun) as Hset.
  assert (CompositeOp.forward ops states h
          = (h1, Ok (match outs with
                     | [a] => FSingle (VState a)
                     | _ => FList (VState <$> outs)
                     end))) as Hfw.
  { unfold CompositeOp.forward. by rewrite Hrun. }
  rewrite (apply_forward_returns _ _ _ _ _ _ _ (check_inputs_states _) Hfw).
  assert (outputs_of (match outs with
                      | [a] => FSingle (VState a)
                      | _ => FList (VState <$> outs)
                      end) = VState <$> outs) as ->.
  { by destruct outs as [|a [|b outs]]. }
  rewrite wire_states. by rewrite stamp_all_noop.
Qed.

(** X16. A composite with at least one operation adds nothing of its own
    to the graph: when its operations have run, the call returns what the
    last of them returned and the store is as they have left it, for every
    returned node already has a producing operation and the stamp of the
    composite is never applied.  With a logbook, the call leaves one
    [completed] record per returned node, under the name of the composite
    and with the inputs of the composite; the operations inside are not
    recorded. *)
Theorem X16_composite_adds_no_stamp
    (self : Op.t) (ops : list (Op.t * forward_fn)) (states : list addr)
    (lb : Logbook.t) (h h1 : heap) (outs : list addr) :
  ops ≠ [] →
  CompositeOp.run ops states h = (h1, Ok outs) →
  OpFunction.apply self (CompositeOp.forward ops) (VState <$> states) h
    = (h1, Ok (collapse outs))
  ∧ Op_call self (CompositeOp.forward ops) states (Some lb) h
    = (h1, Some (logbook_completed lb (Op.name self) states outs),
       Ok (collapse outs))
  ∧ ∀ a st, a ∈ outs → h1 !! a = Some st → State.creator_op st ≠ None.
Proof.
  intros Hops Hrun.
  pose proof (composite_apply self ops states h h1 outs Hops Hrun) as Happly.
  split; [done|]. split; [|by eapply run_stamped].
  rewrite Op_call_apply, Happly. simpl. by rewrite result_nodes_collapse.
Qed.

Lemma X16_composite_adds_no_stamp_witness :
  let ops := [(Scenario.Op1, Scenario.forward_new "B");
              (Scenario.Op2, Scenario.forward_new "C")] in
  let self := CompositeOp.init 9 ops None in
  ∃ h1, Op_call self (CompositeOp.forward ops) [0]
                (Some Scenario.empty_logbook) Scenario.store_A
        = (h1,
           Some (logbook_completed Scenario.empty_logbook "Composite(2)" [0] [2]),
           Ok (RSingle 2))
    ∧ (State.creator_op <$> h1 !! 2) = Some (Some Scenario.Op2)
    ∧ (State.inputs <$> h1 !! 2) = Some [1].
Proof.
  simpl.
  destruct (X16_composite_adds_no_stamp
              (CompositeOp.init 9 [(Scenario.Op1, Scenario.forward_new "B");
                                   (Scenario.Op2, Scenario.forward_new "C")]
                                None)
              [(Scenario.Op1, Scenario.forward_new "B");
               (Scenario.Op2, Scenario.forward_new "C")]
              [0] Scenario.empty_logbook Scenario.store_A _ [2]
              ltac:(discriminate) eq_refl) as (_ & Hcall & _).
  eexists. split; [exact Hcall|]. split; reflexivity.
Defined.

(** X17. A composite is the sequence of its operations, and nesting does
    not show on success: running [ops1 ++ ops2] is running [ops2] on what
    [ops1] has returned, and a composite of [ops1] (not empty) placed in
    front of other operations gives, when [ops1] runs through, the result
    and the store of the flat sequence [ops1 ++ rest]. *)
Theorem X17_composite_flattens
    (inner : Op.t) (ops1 rest : list (Op.t * forward_fn))
    (states : list addr) (h h1 : heap) (outs : list addr) :
  ops1 ≠ [] →
  CompositeOp.run ops1 states h = (h1, Ok outs) →
  CompositeOp.run (ops1 ++ rest) states h = CompositeOp.run rest outs h1
  ∧ CompositeOp.run ((inner, CompositeOp.forward ops1) :: rest) states h
    = CompositeOp.run (ops1 ++ rest) states h.
Proof.
  intros Hops Hrun. rewrite run_app, Hrun. split; [done|]. simpl.
  rewrite Op_call_apply.
  rewrite (composite_apply inner ops1 states h h1 outs Hops Hrun). simpl.
  by destruct outs as [|a [|b outs]].
Qed.

Lemma X17_composite_flattens_witness :
  let ops1 := [(Scenario.Op1, Scenario.forward_new "B")] in
  let rest := [(Scenario.Op2, Scenario.forward_new "C")] in
  CompositeOp.run ((CompositeOp.init 9 ops1 None, CompositeOp.forward ops1)
                   :: rest) [0] Scenario.store_A
  = CompositeOp.run (ops1 ++ rest) [0] Scenario.store_A.
Proof.
  apply (X17_composite_flattens
           (CompositeOp.init 9 [(Scenario.Op1, Scenario.forward_new "B")] None)
           [(Scenario.Op1, Scenario.forward_new "B")]
           [(Scenario.Op2, Scenario.forward_new "C")]
           [0] Scenario.store_A _ [1] ltac:(discriminate) eq_refl).
Defined.

(** X18. A failure inside a composite is wrapped twice.  When the
    operations [pre] have run and the [forward] of the next one raises
    [e0], the operations after it are not run and the store is as the
    failing [forward] has left it (the nodes that [pre] produced keep
    their stamps).  If [e0] is an [Exception], the composite raises a
    [RuntimeError] caused by the [RuntimeError] of the failing operation,
    which is caused by [e0], and its message still contains the message
    of [e0]; with a logbook there is one [failed] record, under the name
    of the composite.  If [e0] is not an [Exception], no [except
    Exception] on the way catches it: it leaves the composite as it is
    and the logbook is not touched. *)
Theorem X18_composite_failure
    (self : Op.t) (pre post : list (Op.t * forward_fn)) (op : Op.t)
    (fw : forward_fn) (states cur : list addr) (lb : Logbook.t)
    (h h0 h1 : heap) (e0 : exn) :
  CompositeOp.run pre states h = (h0, Ok cur) →
  fw cur h0 = (h1, Raise e0) →
  let ops := pre ++ (op, fw) :: post in
  let inner := ExnFrom RuntimeError
                 ("Op " +:+ Op.name op +:+ " failed: " +:+ str e0) e0 in
  let outer := ExnFrom RuntimeError
                 ("Op " +:+ Op.name self +:+ " failed: " +:+ str inner)
                 inner in
  if is_exception e0 then
    CompositeOp.run ops states h = (h1, Raise inner)
    ∧ Op_call self (CompositeOp.forward ops) states (Some lb) h
      = (h1, Some (logbook_failed lb (Op.name self) states (str outer)),
         Raise outer)
    ∧ contains (str outer) (str e0)
    ∧ exn_cause outer = Some inner ∧ exn_cause inner = Some e0
  else
    CompositeOp.run ops states h = (h1, Raise e0)
    ∧ Op_call self (CompositeOp.forward ops) states (Some lb) h
      = (h1, Some lb, Raise e0).
Proof.
  intros Hpre Hfw ops inner outer. destruct (is_exception e0) eqn:He.
  - assert (CompositeOp.run ops states h = (h1, Raise inner)) as Hrun.
    { unfold ops. rewrite run_app, Hpre. simpl. rewrite Op_call_apply.
      by rewrite (apply_forward_raises _ _ _ _ _ _ _ (check_inputs_states _)
                    Hfw He). }
    split; [done|]. split; [|split; [|done]].
    + rewrite Op_call_apply.
      assert (CompositeOp.forward ops states h = (h1, Raise inner))
        as Hforward.
      { unfold CompositeOp.forward. by rewrite Hrun. }
      by rewrite (apply_forward_raises _ _ _ _ _ _ _ (check_inputs_states _)
                    Hforward eq_refl).
    + exists ("Op " +:+ Op.name self +:+ " failed: " +:+ "Op " +:+ Op.name op
              +:+ " failed: "), "".
      simpl. by rewrite string_app_empty_r, !string_app_assoc.
  - assert (CompositeOp.run ops states h = (h1, Raise e0)) as Hrun.
    { unfold ops. rewrite run_app, Hpre. simpl. rewrite Op_call_apply.
      by rewrite (apply_forward_passes _ _ _ _ _ _ _ (check_inputs_states _)
                    Hfw He). }
    split; [done|]. rewrite Op_call_apply.
    assert (CompositeOp.forward ops states h = (h1, Raise e0)) as Hforward.
    { unfold CompositeOp.forward. by rewrite Hrun. }
    rewrite (apply_forward_passes _ _ _ _ _ _ _ (check_inputs_states _)
               Hforward He).
    simpl. by rewrite He.
Qed.

Lemma X18_composite_failure_witness :
  let ops := [(Scenario.Op1, Scenario.forward_new "B");
              (Scenario.Op3, Scenario.forward_raise "bad input")] in
  (Op_call (CompositeOp.init 9 ops None) (CompositeOp.forward ops) [0]
           (Some Scenario.empty_logbook) Scenario.store_A).2
  = Raise (ExnFrom RuntimeError
             "Op Composite(2) failed: Op Op3 failed: bad input"
             (ExnFrom RuntimeError "Op Op3 failed: bad input"
                      (Exn ValueError "bad input"))).
Proof.
  destruct (X18_composite_failure
              (CompositeOp.init 9
                 [(Scenario.Op1, Scenario.forward_new "B");
                  (Scenario.Op3, Scenario.forward_raise "bad input")] None)
              [(Scenario.Op1, Scenario.forward_new "B")] []
              Scenario.Op3 (Scenario.forward_raise "bad input")
              [0] [1] Scenario.empty_logbook Scenario.store_A _ _
              (Exn ValueError "bad input") eq_refl eq_refl)
    as (_ & Hcall & _).
  exact (f_equal snd Hcall).
Defined.

(** X19. The composite of no operations is not neutral on the graph.  It
    returns its inputs (the node itself for one input, the list
    otherwise), and [apply] then stamps every input that has no producing
    operation with the composite and the inputs of the call, so that such
    a node becomes its own input. *)
Theorem X19_empty_composite
    (self : Op.t) (states : list addr) (h : heap) (a : addr) (st : State.t) :
  a ∈ states →
  h !! a = Some st →
  State.creator_op st = None →
  let call := OpFunction.apply self (CompositeOp.forward []) (VState <$> states) h in
  call = (stamp_all self states states h, Ok (collapse states))
  ∧ ∃ st', call.1 !! a = Some st'
      ∧ State.creator_op st' = Some self
      ∧ State.inputs st' = states
      ∧ input_edge call.1 a a.
Proof.
  intros Ha Hst Hnone call.
  assert (call = (stamp_all self states states h, Ok (collapse states)))
    as Hcall.
  { unfold call.
    assert (CompositeOp.forward [] states h
            = (h, Ok (match states with
                      | [a] => FSingle (VState a)
                      | _ => FList (VState <$> states)
                      end))) as Hfw by done.
    rewrite (apply_forward_returns _ _ _ _ _ _ _ (check_inputs_states _) Hfw).
    assert (outputs_of (match states with
                        | [a] => FSingle (VState a)
                        | _ => FList (VState <$> states)
                        end) = VState <$> states) as ->.
    { by destruct states as [|x [|y states]]. }
    by rewrite wire_states. }
  split; [done|]. rewrite Hcall. simpl.
  destruct (stamp_all_member self states states h a st Ha Hst)
    as (st' & Hst' & _ & _ & Hnew).
  destruct (Hnew Hnone) as [Hop Hins].
  exists st'. split; [done|]. split; [done|]. split; [done|].
  exists st'. split; [done|]. by rewrite Hins.
Qed.

Lemma X19_empty_composite_witness :
  input_edge
    (OpFunction.apply (CompositeOp.init 9 [] None) (CompositeOp.forward [])
                      [VState 0] Scenario.store_A).1 0 0.
Proof.
  destruct (X19_empty_composite (CompositeOp.init 9 [] None) [0]
              Scenario.store_A 0 _ (list_elem_of_here _ _) eq_refl eq_refl)
    as (_ & st' & _ & _ & _ & Hedge).
  exact Hedge.
Defined.

(** * Further properties: the tree of modules *)

Lemma string_app_cons (c : Ascii.ascii) (a s : string) :
  String c a +:+ s = String c (a +:+ s).
Proof. done. Qed.

Lemma split_dot_nonempty (s : string) : split_dot s ≠ [].
Proof.
  induction s as [|c s IH]; simpl; [done|].
  destruct (Ascii.eqb c dot); [done|]. by destruct (split_dot s).
Qed.

Lemma join_dot_cons_char (c : Ascii.ascii) (x : string) (xs : list string) :
  join_dot (String c x :: xs) = String c (join_dot (x :: xs)).
Proof. by destruct xs. Qed.

Lemma join_split_dot (s : string) : join_dot (split_dot s) = s.
Proof.
  induction s as [|c s IH]; [done|]. simpl.
  destruct (Ascii.eqb c dot) eqn:Hc.
  - apply Ascii.eqb_eq in Hc as ->.
    pose proof (split_dot_nonempty s) as Hne.
    destruct (split_dot s) as [|x xs]; [done|].
    change (join_dot ("" :: x :: xs)) with (String dot (join_dot (x :: xs))).
    by rewrite IH.
  - pose proof (split_dot_nonempty s) as Hne.
    destruct (split_dot s) as [|x xs]; [done|].
    by rewrite join_dot_cons_char, IH.
Qed.

Lemma split_dot_app (p q : string) :
  split_dot (p +:+ "." +:+ q) = split_dot p ++ split_dot q.
Proof.
  induction p as [|c p IH]; [done|].
  rewrite string_app_cons. simpl. rewrite IH.
  destruct (Ascii.eqb c dot); [done|].
  pose proof (split_dot_nonempty p) as Hne.
  by destruct (split_dot p) as [|x xs].
Qed.

Lemma split_dot_plain (a : string) : has_dot a = false → split_dot a = [a].
Proof.
  induction a as [|c a IH]; [done|]. simpl.
  destruct (Ascii.eqb c dot); [done|]. simpl. intros Ha. by rewrite IH.
Qed.

Lemma split_join_dot (atoms : list string) :
  atoms ≠ [] → Forall (λ a, has_dot a = false) atoms →
  split_dot (join_dot atoms) = atoms.
Proof.
  induction atoms as [|a [|b atoms] IH]; [done| |]; intros _ Hall.
  - apply split_dot_plain. by inversion Hall.
  - change (join_dot (a :: b :: atoms)) with (a +:+ "." +:+ join_dot (b :: atoms)).
    inversion Hall as [|? ? Ha Hrest]; subst.
    rewrite split_dot_app, split_dot_plain by done. simpl.
    by rewrite IH.
Qed.

(** Induction on an agent, with the property at hand for the agents
    among its modules. *)
Lemma agent_ind (P : agent → Prop) :
  (∀ cls name modules,
     Forall (λ km, match km.2 with inr sub => P sub | inl _ => True end)
            modules →
     P (Agent cls name modules)) →
  ∀ self, P self.
Proof.
  intros Hstep.
  refine (fix IH (self : agent) : P self :=
            match self with
            | Agent cls name modules =>
                Hstep cls name modules
                  ((fix all (modules : list (string * module_)) :=
                      match modules
                            return Forall (λ km, match km.2 with
                                                 | inr sub => P sub
                                                 | inl _ => True
                                                 end) modules
                      with
                      | [] => Forall_nil_2 _
                      | (k, m) :: rest =>
                          Forall_cons_2 _ (k, m) rest
                            (match m return match m with
                                            | inr sub => P sub
                                            | inl _ => True
                                            end
                             with
                             | inl _ => I
                             | inr sub => IH sub
                             end)
                            (all rest)
                      end) modules)
            end).
Qed.

(** The prefix as [named_modules] uses it. *)
Lemma named_modules_unfold (cls name : string)
    (modules : list (string * module_)) (prefix : string) :
  AispAgent.named_modules (Agent cls name modules) prefix =
    let pre := if bool_decide (prefix = "") then prefix else prefix +:+ "." in
    modules ≫= λ km,
      (pre +:+ km.1, km.2)
        :: match km.2 with
           | inr sub => AispAgent.named_modules sub (pre +:+ km.1)
           | inl _ => []
           end.
Proof.
  simpl. induction modules as [|[k m] modules IH]; [done|].
  csimpl. by rewrite IH.
Qed.

Lemma paths_unfold (cls name : string) (modules : list (string * module_)) :
  paths (Agent cls name modules) =
    modules ≫= λ km,
      ([km.1], km.2)
        :: match km.2 with
           | inr sub => (λ p, (km.1 :: p.1, p.2)) <$> paths sub
           | inl _ => []
           end.
Proof.
  simpl. induction modules as [|[k m] modules IH]; [done|].
  csimpl. by rewrite IH.
Qed.

Lemma tree_ok_unfold (cls name : string) (modules : list (string * module_)) :
  tree_ok (Agent cls name modules) ↔
    NoDup (fst <$> modules)
    ∧ Forall (λ km, plain_name km.1
                    ∧ match km.2 with
                      | inr sub => tree_ok sub
                      | inl _ => True
                      end) modules.
Proof.
  simpl. apply and_iff_compat_l.
  induction modules as [|[k m] modules IH]; [by split; [constructor|]|].
  rewrite Forall_cons. simpl. rewrite IH. tauto.
Qed.

Lemma od_get_elem_of {A} (key : string) (d : list (string * A)) (v : A) :
  AispAgent.od_get key d = Some v → (key, v) ∈ d.
Proof.
  induction d as [|[k x] d IH]; simpl; [done|].
  case_bool_decide as Hk.
  - intros [= <-]. subst. apply list_elem_of_here.
  - intros Hget. by apply list_elem_of_further, IH.
Qed.

Lemma od_get_NoDup {A} (key : string) (d : list (string * A)) (v : A) :
  NoDup (fst <$> d) → (key, v) ∈ d → AispAgent.od_get key d = Some v.
Proof.
  induction d as [|[k x] d IH]; simpl; [by intros _ ?%elem_of_nil|].
  intros [Hk Hnd]%NoDup_cons [[= <- <-]|Hin]%elem_of_cons.
  - by rewrite bool_decide_eq_true_2.
  - rewrite bool_decide_eq_false_2; [by apply IH|].
    intros ->. apply Hk. apply list_elem_of_fmap. by exists (key, v).
Qed.

Lemma paths_nonempty (self : agent) (atoms : list string) (m : module_) :
  (atoms, m) ∈ paths self → atoms ≠ [].
Proof.
  destruct self as [cls name modules]. rewrite paths_unfold.
  intros (km & Hin & _)%list_elem_of_bind.
  apply elem_of_cons in Hin as [[= -> _]|Hin]; [done|].
  destruct km.2 as [|sub]; [by apply elem_of_nil in Hin|].
  by apply list_elem_of_fmap in Hin as (p & [= -> _] & _).
Qed.

(** Under an agent whose names are plain, the names on the way to a
    module are plain. *)
Lemma paths_plain (self : agent) :
  tree_ok self →
  ∀ atoms m, (atoms, m) ∈ paths self → Forall plain_name atoms.
Proof.
  induction self as [cls name modules IH] using agent_ind.
  intros [_ Hok]%tree_ok_unfold atoms m. rewrite paths_unfold.
  intros (km & Hin & Hkm)%list_elem_of_bind.
  pose proof (proj1 (Forall_forall _ _) Hok km Hkm) as [Hplain Hsub].
  pose proof (proj1 (Forall_forall _ _) IH km Hkm) as IHsub.
  destruct km as [k m0]. simpl in *.
  apply elem_of_cons in Hin as [[= -> _]|Hin]; [by apply Forall_singleton|].
  destruct m0 as [|sub]; [by apply elem_of_nil in Hin|].
  apply list_elem_of_fmap in Hin as ([atoms' m'] & [= -> ->] & Hin).
  apply Forall_cons. split; [done|]. by eapply IHsub.
Qed.

(** Every module under an agent is found by walking down the names that
    lead to it. *)
Lemma walk_paths (self : agent) :
  tree_ok self →
  ∀ atoms m, (atoms, m) ∈ paths self →
             AispAgent.walk (inr self) atoms = Ok m.
Proof.
  induction self as [cls name modules IH] using agent_ind.
  intros [Hnd Hok]%tree_ok_unfold atoms m. rewrite paths_unfold.
  intros (km & Hin & Hkm)%list_elem_of_bind.
  pose proof (proj1 (Forall_forall _ _) Hok km Hkm) as [Hplain Hsub].
  pose proof (proj1 (Forall_forall _ _) IH km Hkm) as IHsub.
  destruct km as [k m0]. simpl in *.
  pose proof (od_get_NoDup k modules m0 Hnd Hkm) as Hget.
  apply elem_of_cons in Hin as [[= -> ->]|Hin]; [simpl; by rewrite Hget|].
  destruct m0 as [|sub]; [by apply elem_of_nil in Hin|].
  apply list_elem_of_fmap in Hin as ([atoms' m'] & [= -> ->] & Hin).
  simpl. rewrite Hget. by apply IHsub.
Qed.

(** What walking down names finds is a module under the agent. *)
Lemma paths_walk (self : agent) :
  ∀ atoms m, atoms ≠ [] → AispAgent.walk (inr self) atoms = Ok m →
             (atoms, m) ∈ paths self.
Proof.
  induction self as [cls name modules IH] using agent_ind.
  intros [|k rest] m Hne Hwalk; [done|]. rewrite paths_unfold.
  simpl in Hwalk.
  destruct (AispAgent.od_get k modules) as [m0|] eqn:Hget; [|done].
  apply od_get_elem_of in Hget.
  pose proof (proj1 (Forall_forall _ _) IH _ Hget) as IHsub.
  apply list_elem_of_bind.
  exists (k, m0). split; [|done]. simpl in *.
  destruct rest as [|k' rest].
  - injection Hwalk as <-. apply list_elem_of_here.
  - apply list_elem_of_further. destruct m0 as [op|sub]; [done|].
    apply list_elem_of_fmap. exists (k' :: rest, m). split; [done|].
    by apply IHsub.
Qed.

Lemma string_app_empty (a b : string) : a +:+ b = "" → b = "".
Proof. by destruct a. Qed.

Lemma join_dot_cons (a : string) (atoms : list string) :
  atoms ≠ [] → join_dot (a :: atoms) = a +:+ "." +:+ join_dot atoms.
Proof. by destruct atoms. Qed.

(** The names that [named_modules] yields are the names on the way,
    joined with dots, after the prefix. *)
Lemma named_modules_paths (self : agent) :
  tree_ok self →
  ∀ prefix,
    AispAgent.named_modules self prefix =
      (λ p, ((if bool_decide (prefix = "") then prefix else prefix +:+ ".")
               +:+ join_dot p.1, p.2)) <$> paths self.
Proof.
  induction self as [cls name modules IH] using agent_ind.
  intros [_ Hok]%tree_ok_unfold prefix.
  rewrite named_modules_unfold, paths_unfold. simpl.
  generalize (if bool_decide (prefix = "") then prefix else prefix +:+ ".").
  intros pre. clear prefix.
  induction modules as [|[k m] modules IHm]; [done|].
  apply Forall_cons in IH as [IHsub IH]. apply Forall_cons in Hok as [[Hk Hm] Hok].
  csimpl. rewrite fmap_app. rewrite <- (IHm IH Hok). f_equal. f_equal.
  destruct m as [op|sub]; [done|]. simpl in *.
  rewrite (IHsub Hm), <- list_fmap_compose.
  apply Forall_fmap_ext, Forall_forall. intros [atoms m'] Hin. simpl.
  rewrite bool_decide_eq_false_2.
  - rewrite join_dot_cons by (by eapply paths_nonempty).
    by rewrite !string_app_assoc.
  - intros Hempty. apply string_app_empty in Hempty. by destruct Hk.
Qed.

Lemma join_dot_nonempty (atoms : list string) :
  atoms ≠ [] → Forall plain_name atoms → join_dot atoms ≠ "".
Proof.
  destruct atoms as [|a atoms]; [done|]. intros _ [[Ha _] _]%Forall_cons.
  destruct a as [|c a]; [done|]. by destruct atoms.
Qed.

Lemma named_modules_top (self : agent) :
  tree_ok self →
  AispAgent.named_modules self "" = (λ p, (join_dot p.1, p.2)) <$> paths self.
Proof.
  intros Hok. rewrite (named_modules_paths self Hok "").
  by apply list_fmap_ext.
Qed.

(** X20. [named_modules] and [get_submodule] agree.  In a tree whose names
    are plain (not empty, no dot), every name that [named_modules()]
    yields is found by [get_submodule], which returns the module yielded
    with it; and whatever [get_submodule] returns for a name that is not
    empty is yielded under that name by [named_modules()].  For the empty
    name [get_submodule] returns the agent itself. *)
Theorem X20_named_modules_get_submodule (self : agent) :
  tree_ok self →
  (∀ target m, (target, m) ∈ AispAgent.named_modules self "" →
               target ≠ "" ∧ AispAgent.get_submodule self target = Ok m)
  ∧ (∀ target m, target ≠ "" →
                 AispAgent.get_submodule self target = Ok m →
                 (target, m) ∈ AispAgent.named_modules self "")
  ∧ AispAgent.get_submodule self "" = Ok (inr self).
Proof.
  intros Hok. rewrite (named_modules_top self Hok).
  split; [|split; [|done]].
  - intros target m ([atoms m'] & [= -> ->] & Hin)%list_elem_of_fmap. simpl.
    pose proof (paths_nonempty _ _ _ Hin) as Hne.
    pose proof (paths_plain _ Hok _ _ Hin) as Hplain.
    pose proof (join_dot_nonempty atoms Hne Hplain) as Hjoin.
    split; [done|]. unfold AispAgent.get_submodule.
    rewrite bool_decide_eq_false_2 by done.
    rewrite split_join_dot; [by apply walk_paths|done|].
    eapply Forall_impl; [exact Hplain|]. by intros a [_ Ha].
  - intros target m Hne. unfold AispAgent.get_submodule.
    rewrite bool_decide_eq_false_2 by done. intros Hwalk.
    apply paths_walk in Hwalk; [|apply split_dot_nonempty].
    apply list_elem_of_fmap. exists (split_dot target, m).
    split; [|done]. simpl. by rewrite join_split_dot.
Qed.

Lemma X20_named_modules_get_submodule_witness :
  let inner := Agent "Planner" "planner" [("gen", inl Scenario.Op1)] in
  let self := Agent "Scientist" "root"
                [("plan", inr inner); ("crit", inl Scenario.Op2)] in
  AispAgent.named_modules self "" =
    [("plan", inr inner); ("plan.gen", inl Scenario.Op1);
     ("crit", inl Scenario.Op2)]
  ∧ AispAgent.get_submodule self "plan.gen" = Ok (inl Scenario.Op1).
Proof.
  split; [reflexivity|].
  refine (proj2 (proj1 (X20_named_modules_get_submodule
                          (Agent "Scientist" "root"
                             [("plan",
                               inr (Agent "Planner" "planner"
                                      [("gen", inl Scenario.Op1)]));
                              ("crit", inl Scenario.Op2)]) _)
                   "plan.gen" (inl Scenario.Op1) _)).
  - repeat split; try done; apply (bool_decide_unpack _); exact I.
  - apply list_elem_of_further, list_elem_of_here.
Defined.






Lemma walk_app (module : module_) (atoms1 atoms2 : list string) :
  AispAgent.walk module (atoms1 ++ atoms2) =
    match AispAgent.walk module atoms1 with
    | Ok found => AispAgent.walk found atoms2
    | Raise e => Raise e
    end.
Proof.
  revert module. induction atoms1 as [|item atoms1 IH]; intros module; [done|].
  simpl. destruct module as [op|[cls name modules]]; [done|].
  destruct (AispAgent.od_get item modules); [apply IH|done].
Qed.

Lemma string_app_nonempty (a b : string) : a ≠ "" → a +:+ b ≠ "".
Proof. by destruct a. Qed.

(** X22. Dotted names compose: for [p] and [q] not empty, looking up
    ["p.q"] is looking up [q] in what [p] gives.  If [p] gives an agent,
    the result is that of [get_submodule(q)] on that agent; if [p] gives
    an operation, the lookup raises [AttributeError], since an operation
    has no modules; if [p] fails, so does ["p.q"], with the same error. *)
Theorem X22_get_submodule_composes (self : agent) (p q : string) :
  p ≠ "" → q ≠ "" →
  AispAgent.get_submodule self (p +:+ "." +:+ q) =
    match AispAgent.get_submodule self p with
    | Ok (inr sub) => AispAgent.get_submodule sub q
    | Ok (inl op) =>
        Raise (Exn AispAgent.AttributeError
                   (AispAgent.repr (inl op) +:+ " has no attribute _modules"))
    | Raise e => Raise e
    end.
Proof.
  intros Hp Hq. unfold AispAgent.get_submodule.
  rewrite !bool_decide_eq_false_2; [|done|done|by apply string_app_nonempty].
  rewrite split_dot_app, walk_app.
  destruct (AispAgent.walk (inr self) (split_dot p)) as [[op|sub]|e];
    [|done|done].
  pose proof (split_dot_nonempty q) as Hne.
  by destruct (split_dot q).
Qed.

Lemma X22_get_submodule_composes_witness :
  let inner := Agent "Planner" "planner" [("gen", inl Scenario.Op1)] in
  let self := Agent "Scientist" "root" [("plan", inr inner)] in
  AispAgent.get_submodule self ("plan" +:+ "." +:+ "gen")
  = AispAgent.get_submodule inner "gen".
Proof.
  apply (X22_get_submodule_composes
           (Agent "Scientist" "root"
              [("plan", inr (Agent "Planner" "planner"
                               [("gen", inl Scenario.Op1)]))])
           "plan" "gen"); done.
Defined.
